(** * periodic-osmium: a Redis-backed cache service and its Express middleware

    A shallow embedding of [src/core/cache.ts] (class [CacheService]), of
    [src/adapters/express.ts] ([cacheMiddleware]: the auto-cache branch and
    the invalidation that follows a mutating request) and of
    [src/core/redis.ts] ([createRedisClient], [checkRedisHealth]), together
    with the parts of the platform they call: JavaScript strings (sequences
    of UTF-16 code units), Node's [Buffer] conversions (UTF-8 and base64),
    and the Redis commands the service issues through ioredis. *)

From Stdlib Require Import ZArith Lia List String Ascii Bool DecimalString DecimalZ DecimalPos.
From stdpp Require Import base option list gmap sorting.

Open Scope Z_scope.

(** ** JavaScript strings *)

(** A JavaScript string is a finite sequence of 16-bit code units; [length]
    counts code units, exactly as [String.prototype.length] does. *)
Abbreviation jsstring := (list Z).

Definition str (s : string) : jsstring :=
  map (fun a => Z.of_N (N_of_ascii a)) (list_ascii_of_string s).

(** [a.startsWith(p)] *)
Fixpoint starts_with (p a : jsstring) : bool :=
  match p, a with
  | [], _ => true
  | _ :: _, [] => false
  | x :: p', y :: a' => (x =? y) && starts_with p' a'
  end.

(** [parts.join(sep)] *)
Fixpoint join (sep : jsstring) (parts : list jsstring) : jsstring :=
  match parts with
  | [] => []
  | [p] => p
  | p :: rest => p ++ sep ++ join sep rest
  end.

Definition is_high_surrogate (u : Z) : bool := (0xD800 <=? u) && (u <=? 0xDBFF).
Definition is_low_surrogate (u : Z) : bool := (0xDC00 <=? u) && (u <=? 0xDFFF).

(** A string is well formed when every surrogate code unit is half of a
    high/low pair.  Every text produced by [JSON.stringify] is (ES2019). *)
Inductive well_formed : jsstring -> Prop :=
| wf_nil : well_formed []
| wf_unit u s :
    0 <= u < 0xD800 \/ 0xDFFF < u < 0x10000 ->
    well_formed s -> well_formed (u :: s)
| wf_pair h l s :
    is_high_surrogate h = true -> is_low_surrogate l = true ->
    well_formed s -> well_formed (h :: l :: s).

Fixpoint well_formedb (s : jsstring) : bool :=
  match s with
  | [] => true
  | u :: rest =>
      if is_high_surrogate u then
        match rest with
        | l :: rest' => is_low_surrogate l && well_formedb rest'
        | [] => false
        end
      else if is_low_surrogate u then false
      else (0 <=? u) && (u <? 0x10000) && well_formedb rest
  end.

(** ** Node's Buffer: UTF-8 and base64 *)

(** The Unicode scalar values of a string.  An unpaired surrogate is replaced
    by U+FFFD, which is what [Buffer.from(data)] does before encoding. *)
Fixpoint utf16_scalars (s : jsstring) : list Z :=
  match s with
  | [] => []
  | u :: rest =>
      if is_high_surrogate u then
        match rest with
        | l :: rest' =>
            if is_low_surrogate l
            then (0x10000 + (u - 0xD800) * 1024 + (l - 0xDC00)) :: utf16_scalars rest'
            else 0xFFFD :: utf16_scalars rest
        | [] => [0xFFFD]
        end
      else if is_low_surrogate u then 0xFFFD :: utf16_scalars rest
      else u :: utf16_scalars rest
  end.

Definition is_byte (b : Z) : Prop := 0 <= b < 256.

(** A Unicode scalar value: a code point that is not a surrogate. *)
Definition is_scalar (cp : Z) : Prop := 0 <= cp < 0xD800 \/ 0xDFFF < cp < 0x110000.

Definition utf8_encode_scalar (cp : Z) : list Z :=
  if cp <? 0x80 then [cp]
  else if cp <? 0x800 then [0xC0 + cp / 64; 0x80 + cp mod 64]
  else if cp <? 0x10000 then
    [0xE0 + cp / 4096; 0x80 + (cp / 64) mod 64; 0x80 + cp mod 64]
  else
    [0xF0 + cp / 262144; 0x80 + (cp / 4096) mod 64;
     0x80 + (cp / 64) mod 64; 0x80 + cp mod 64].

(** [Buffer.from(data)]: the UTF-8 bytes of a string. *)
Definition Buffer_from (data : jsstring) : list Z :=
  flat_map utf8_encode_scalar (utf16_scalars data).

Definition is_continuation (b : Z) : bool := (0x80 <=? b) && (b <=? 0xBF).

Definition utf16_units (cp : Z) : jsstring :=
  if cp <? 0x10000 then [cp]
  else [0xD800 + (cp - 0x10000) / 1024; 0xDC00 + (cp - 0x10000) mod 1024].

(** The byte that may follow the lead byte [b0] of a sequence of three or
    four bytes: its bounds rule out overlong forms, surrogates and what lies
    beyond U+10FFFF. *)
Definition second_byte_ok (b0 b1 : Z) : bool :=
  if b0 =? 0xE0 then (0xA0 <=? b1) && (b1 <=? 0xBF)
  else if b0 =? 0xED then (0x80 <=? b1) && (b1 <=? 0x9F)
  else if b0 =? 0xF0 then (0x90 <=? b1) && (b1 <=? 0xBF)
  else if b0 =? 0xF4 then (0x80 <=? b1) && (b1 <=? 0x8F)
  else is_continuation b1.

(** [buf.toString('utf-8')].  Bytes that do not make a sequence decode to
    U+FFFD: one for a byte that cannot start a sequence, one for the start of
    a sequence up to the byte that cannot continue it, where decoding
    resumes, and one for a sequence cut short by the end. *)
Fixpoint Buffer_toString_utf8 (bs : list Z) : jsstring :=
  match bs with
  | [] => []
  | b0 :: r0 =>
      if (0 <=? b0) && (b0 <? 0x80) then b0 :: Buffer_toString_utf8 r0
      else if (0xC2 <=? b0) && (b0 <=? 0xDF) then
        match r0 with
        | b1 :: r1 =>
            if is_continuation b1
            then ((b0 - 0xC0) * 64 + (b1 - 0x80)) :: Buffer_toString_utf8 r1
            else 0xFFFD :: Buffer_toString_utf8 r0
        | [] => [0xFFFD]
        end
      else if (0xE0 <=? b0) && (b0 <=? 0xEF) then
        match r0 with
        | b1 :: r1 =>
            if second_byte_ok b0 b1 then
              match r1 with
              | b2 :: r2 =>
                  if is_continuation b2
                  then ((b0 - 0xE0) * 4096 + (b1 - 0x80) * 64 + (b2 - 0x80))
                       :: Buffer_toString_utf8 r2
                  else 0xFFFD :: Buffer_toString_utf8 r1
              | [] => [0xFFFD]
              end
            else 0xFFFD :: Buffer_toString_utf8 r0
        | [] => [0xFFFD]
        end
      else if (0xF0 <=? b0) && (b0 <=? 0xF4) then
        match r0 with
        | b1 :: r1 =>
            if second_byte_ok b0 b1 then
              match r1 with
              | b2 :: r2 =>
                  if is_continuation b2 then
                    match r2 with
                    | b3 :: r3 =>
                        if is_continuation b3
                        then utf16_units ((b0 - 0xF0) * 262144 + (b1 - 0x80) * 4096
                                          + (b2 - 0x80) * 64 + (b3 - 0x80))
                             ++ Buffer_toString_utf8 r3
                        else 0xFFFD :: Buffer_toString_utf8 r2
                    | [] => [0xFFFD]
                    end
                  else 0xFFFD :: Buffer_toString_utf8 r1
              | [] => [0xFFFD]
              end
            else 0xFFFD :: Buffer_toString_utf8 r0
        | [] => [0xFFFD]
        end
      else 0xFFFD :: Buffer_toString_utf8 r0
  end.

(** The base64 alphabet: sextet to character code and back.  The decoder also
    accepts the URL-safe characters, as Node does. *)
Definition b64_char (i : Z) : Z :=
  if i <? 26 then 65 + i
  else if i <? 52 then 97 + (i - 26)
  else if i <? 62 then 48 + (i - 52)
  else if i =? 62 then 43
  else 47.

Definition b64_index (c : Z) : option Z :=
  if (65 <=? c) && (c <=? 90) then Some (c - 65)
  else if (97 <=? c) && (c <=? 122) then Some (c - 71)
  else if (48 <=? c) && (c <=? 57) then Some (c + 4)
  else if (c =? 43) || (c =? 45) then Some 62
  else if (c =? 47) || (c =? 95) then Some 63
  else None.

(** [buf.toString('base64')] *)
Fixpoint Buffer_toString_base64 (bs : list Z) : jsstring :=
  match bs with
  | [] => []
  | [a] => [b64_char (a / 4); b64_char ((a mod 4) * 16); 61; 61]
  | [a; b] =>
      [b64_char (a / 4); b64_char ((a mod 4) * 16 + b / 16);
       b64_char ((b mod 16) * 4); 61]
  | a :: b :: c :: rest =>
      b64_char (a / 4) :: b64_char ((a mod 4) * 16 + b / 16)
      :: b64_char ((b mod 16) * 4 + c / 64) :: b64_char (c mod 64)
      :: Buffer_toString_base64 rest
  end.

(** Decoding stops at the first padding character [=]; any other character
    outside the alphabet (white space, say) is skipped. *)
Fixpoint b64_sextets (cs : jsstring) : list Z :=
  match cs with
  | [] => []
  | c :: rest =>
      if c =? 61 then []
      else
        match b64_index c with
        | Some i => i :: b64_sextets rest
        | None => b64_sextets rest
        end
  end.

Fixpoint b64_bytes (xs : list Z) : list Z :=
  match xs with
  | x0 :: x1 :: x2 :: x3 :: rest =>
      (x0 * 4 + x1 / 16) :: ((x1 mod 16) * 16 + x2 / 4)
      :: ((x2 mod 4) * 64 + x3) :: b64_bytes rest
  | [x0; x1; x2] => [x0 * 4 + x1 / 16; (x1 mod 16) * 16 + x2 / 4]
  | [x0; x1] => [x0 * 4 + x1 / 16]
  | _ => []
  end.

(** [Buffer.from(text, 'base64')] *)
Definition Buffer_from_base64 (text : jsstring) : list Z :=
  b64_bytes (b64_sextets text).

(** ** JavaScript values *)

#[local] Unset Elimination Schemes.

(** The values that travel through the cache: what [JSON.parse] can return,
    and [undefined].  Numbers are the integer-valued ones. *)
Inductive jsvalue :=
| JUndefined
| JNull
| JBool (b : bool)
| JNum (n : Z)
| JStr (s : jsstring)
| JArr (items : list jsvalue)
| JObj (fields : list (jsstring * jsvalue)).

#[local] Set Elimination Schemes.

(** [v !== null] *)
Definition not_null (v : jsvalue) : bool :=
  match v with
  | JNull => false
  | _ => true
  end.

(** Truthiness, as tested by [if (v)] and [a || b]. *)
Definition truthy (v : jsvalue) : bool :=
  match v with
  | JUndefined | JNull => false
  | JBool b => b
  | JNum n => negb (n =? 0)
  | JStr s => match s with [] => false | _ => true end
  | JArr _ | JObj _ => true
  end.

Definition decimal (n : Z) : jsstring :=
  str (DecimalString.NilZero.string_of_int (Z.to_int n)).

(** String conversion, as performed by a template literal.  A number is
    written in decimal, as JavaScript writes an integer below 10^21. *)
Fixpoint to_string (v : jsvalue) : jsstring :=
  match v with
  | JUndefined => str "undefined"
  | JNull => str "null"
  | JBool true => str "true"
  | JBool false => str "false"
  | JNum n => decimal n
  | JStr s => s
  | JArr items =>
      join (str ",")
        (map (fun x => match x with
                       | JUndefined | JNull => []
                       | _ => to_string x
                       end) items)
  | JObj _ => str "[object Object]"
  end.

(** [JSON.stringify] and [JSON.parse] belong to the platform.  [None] stands
    for a thrown exception; [JSON_stringify] also answers [None] where
    [JSON.stringify] returns [undefined], since the caller then fails on
    [data.length] and lands in the same handler. *)
Class JSON := {
  JSON_stringify : jsvalue -> option jsstring;
  JSON_parse : jsstring -> option jsvalue
}.

(** [crypto.createHash('md5').update(s).digest('hex')] *)
Class Crypto := {
  md5_hex : jsstring -> jsstring
}.

(** A JSON text starts with one of these characters, never with [c]. *)
Definition json_start (c : Z) : bool :=
  (c =? 123) || (c =? 91) || (c =? 34) || (c =? 45)
  || ((48 <=? c) && (c <=? 57))
  || (c =? 116) || (c =? 102) || (c =? 110).

Definition json_text (s : jsstring) : Prop :=
  well_formed s /\ match s with c :: _ => json_start c = true | [] => False end.

(** [v] is JSON-serializable: it has a JSON text and parsing that text gives a
    value structurally equal to [v]. *)
Definition serializable `{JSON} (v : jsvalue) : Prop :=
  exists s, JSON_stringify v = Some s /\ json_text s /\ JSON_parse s = Some v.

(** ** The Redis server, as seen through ioredis *)

(** Keys and string values are kept as the strings the client passes.  What
    the server holds is their UTF-8 text, which is the same thing for a well
    formed string, and the patterns of a scan are matched against that text,
    byte by byte. *)
Inductive rvalue :=
| RString (s : jsstring)
| RSet (members : gset jsstring).

(** A key's value and, when it has one, the time at which it expires. *)
Record entry := Entry { value : rvalue; deadline : option Z }.

Inductive command :=
| GET (key : jsstring)
| SETEX (key : jsstring) (seconds : Z) (data : jsstring)
| SADD (key member : jsstring)
| EXPIRE (key : jsstring) (seconds : Z)
| SMEMBERS (key : jsstring)
| DEL (keys : list jsstring)
| SCAN (cursor : nat) (pattern : jsstring) (count : nat)
| EXISTS (key : jsstring)
| TTL (key : jsstring).

Inductive redis_error := ConnectionError | WrongType | InvalidExpire | NotAnInteger.

Inductive reply :=
| Nil
| Bulk (s : jsstring)
| Int (n : Z)
| Status
| Array (items : list jsstring)
| Page (cursor : nat) (keys : list jsstring)
| Error (e : redis_error).

(** The server: whether it can be reached, its clock (seconds), its key
    space, and the commands it has been sent, oldest first; then two things
    that depend on how the server is built and run: the keys a scan comes
    across a second time, because the table of keys is resized while the
    scan is under way, and whether a byte is a signed [char] to it. *)
Record redis := Redis {
  online : bool;
  clock : Z;
  db : gmap jsstring entry;
  sent : list command;
  rescanned : list jsstring;
  signed_chars : bool
}.

Definition expired (now : Z) (e : entry) : bool :=
  match deadline e with
  | Some d => d <=? now
  | None => false
  end.

(** What a key holds, if it is there and has not expired. *)
Definition live (st : redis) (k : jsstring) : option entry :=
  match db st !! k with
  | Some e => if expired (clock st) e then None else Some e
  | None => None
  end.

Definition record_command (c : command) (st : redis) : redis :=
  {| online := online st; clock := clock st; db := db st; sent := sent st ++ [c];
     rescanned := rescanned st; signed_chars := signed_chars st |}.

Definition with_db (d : gmap jsstring entry) (st : redis) : redis :=
  {| online := online st; clock := clock st; db := d; sent := sent st;
     rescanned := rescanned st; signed_chars := signed_chars st |}.

(** Time passing between two calls. *)
Definition advance (seconds : Z) (st : redis) : redis :=
  {| online := online st; clock := clock st + seconds; db := db st; sent := sent st;
     rescanned := rescanned st; signed_chars := signed_chars st |}.

Definition is_live (st : redis) (k : jsstring) : bool :=
  match live st k with Some _ => true | None => false end.

(** [DEL k1 k2 ...]: removes the keys, counting those that were there. *)
Fixpoint del_keys (ks : list jsstring) (st : redis) : Z * redis :=
  match ks with
  | [] => (0, st)
  | k :: rest =>
      let n := if is_live st k then 1 else 0 in
      let '(m, st') := del_keys rest (with_db (delete k (db st)) st) in
      (n + m, st')
  end.

(** ** Glob-style patterns ([SCAN ... MATCH pattern]) *)

Inductive class_item :=
| One (c : Z)
| Range (lo hi : Z).

Inductive glob_token :=
| Star
| AnyChar
| Class (negated : bool) (items : list class_item)
| Lit (c : Z).

(** The pattern language of Redis: [*], [?], [[...]] with ranges and [^], and
    [\] to quote the next character.  Pattern and subject are sequences of
    bytes.  [cls] is the bracket expression being read, if any; one that is
    never closed ends with the pattern. *)
Fixpoint glob_parse (cls : option (bool * list class_item)) (pat : jsstring)
  : list glob_token :=
  match cls with
  | None =>
      match pat with
      | [] => []
      | c :: rest =>
          if c =? 42 then Star :: glob_parse None rest
          else if c =? 63 then AnyChar :: glob_parse None rest
          else if c =? 91 then
            match rest with
            | x :: rest' =>
                if x =? 94 then glob_parse (Some (true, [])) rest'
                else glob_parse (Some (false, [])) rest
            | [] => [Class false []]
            end
          else if c =? 92 then
            match rest with
            | x :: rest' => Lit x :: glob_parse None rest'
            | [] => [Lit c]
            end
          else Lit c :: glob_parse None rest
      end
  | Some (neg, items) =>
      match pat with
      | [] => [Class neg items]
      | c :: rest =>
          match rest with
          | x :: rest' =>
              if c =? 92 then glob_parse (Some (neg, items ++ [One x])) rest'
              else if c =? 93 then Class neg items :: glob_parse None rest
              else
                match rest' with
                | hi :: rest'' =>
                    if x =? 45
                    then glob_parse (Some (neg, items ++ [Range c hi])) rest''
                    else glob_parse (Some (neg, items ++ [One c])) rest
                | [] => glob_parse (Some (neg, items ++ [One c])) rest
                end
          | [] =>
              if c =? 93 then [Class neg items]
              else [Class neg (items ++ [One c])]
          end
      end
  end.

(** A byte as the [char] the matcher reads: where [char] is signed, the
    bytes from 128 on are negative. *)
Definition as_char (signed : bool) (b : Z) : Z :=
  if signed && (128 <=? b) then b - 256 else b.

(** The bounds of a range are compared as [char]s, and swapped when they come
    in the wrong order. *)
Definition class_item_has (signed : bool) (c : Z) (i : class_item) : bool :=
  match i with
  | One x => x =? c
  | Range lo hi =>
      let lo := as_char signed lo in
      let hi := as_char signed hi in
      let c := as_char signed c in
      (Z.min lo hi <=? c) && (c <=? Z.max lo hi)
  end.

Fixpoint tokens_match (signed : bool) (ts : list glob_token) (s : list Z) : bool :=
  match ts with
  | [] => match s with [] => true | _ => false end
  | Star :: ts' =>
      (fix star (s : list Z) : bool :=
         tokens_match signed ts' s
         || match s with [] => false | _ :: s' => star s' end) s
  | AnyChar :: ts' =>
      match s with [] => false | _ :: s' => tokens_match signed ts' s' end
  | Class neg items :: ts' =>
      match s with
      | [] => false
      | c :: s' =>
          xorb neg (existsb (class_item_has signed c) items)
          && tokens_match signed ts' s'
      end
  | Lit x :: ts' =>
      match s with
      | [] => false
      | c :: s' => (x =? c) && tokens_match signed ts' s'
      end
  end.

Definition glob_match (signed : bool) (pattern s : list Z) : bool :=
  tokens_match signed (glob_parse None pattern) s.

(** The characters that mean something in a pattern. *)
Definition glob_special (c : Z) : bool :=
  (c =? 42) || (c =? 63) || (c =? 91) || (c =? 92).

Definition glob_free (s : jsstring) : bool := forallb (fun c => negb (glob_special c)) s.

(** ** Commands *)

(** The keys of the table. *)
Definition table (st : redis) : list jsstring := (map_to_list (db st)).*1.

(** The slots a full scan visits: every key of the table, and the keys it
    comes across again.  A key can so be reported more than once; the order
    of the visits is of no consequence to the callers. *)
Definition scan_walk (st : redis) : list jsstring := table st ++ rescanned st.

(** [MATCH pattern]: the pattern and the key are compared as the bytes of
    their UTF-8 text. *)
Definition matches (st : redis) (pattern key : jsstring) : bool :=
  glob_match (signed_chars st) (Buffer_from pattern) (Buffer_from key).

(** [SCAN cursor MATCH pattern COUNT count] walks [count] slots at a time.
    The cursor is the number of slots already visited and [0] once the walk
    is over; a page holds the visited keys that are there and match, so it
    can be shorter than [count], even empty. *)
Definition scan_page (st : redis) (cursor : nat) (pattern : jsstring) (count : nat)
  : nat * list jsstring :=
  let visited := take count (drop cursor (scan_walk st)) in
  let next := (cursor + count)%nat in
  (if (length (scan_walk st) <=? next)%nat then 0%nat else next,
   filter (fun k => is_live st k && matches st pattern k = true) visited).

(** *** Lifetimes

    The server keeps a deadline in milliseconds, as a signed 64-bit integer,
    and refuses a lifetime whose deadline it cannot hold.  A lifetime in
    seconds must itself be a 64-bit integer, is multiplied by 1000 and added
    to the present time; [SETEX] wants it positive, [EXPIRE] takes a
    lifetime that is not. *)
Definition LLONG_MAX : Z := 2 ^ 63 - 1.
Definition LLONG_MIN : Z := - 2 ^ 63.

(** The server's time in milliseconds. *)
Definition mstime (st : redis) : Z := clock st * 1000.

(** What [SETEX] objects to in a lifetime, if anything. *)
Definition setex_lifetime (st : redis) (seconds : Z) : option redis_error :=
  if (seconds <? LLONG_MIN) || (LLONG_MAX <? seconds) then Some NotAnInteger
  else if (seconds <=? 0) || (Z.quot LLONG_MAX 1000 <? seconds) then Some InvalidExpire
  else if (LLONG_MAX <? seconds * 1000 + mstime st)
          || (seconds * 1000 + mstime st <=? 0)
  then Some InvalidExpire
  else None.

(** What [EXPIRE] objects to. *)
Definition expire_lifetime (st : redis) (seconds : Z) : option redis_error :=
  if (seconds <? LLONG_MIN) || (LLONG_MAX <? seconds) then Some NotAnInteger
  else if (seconds <? Z.quot LLONG_MIN 1000) || (Z.quot LLONG_MAX 1000 <? seconds)
  then Some InvalidExpire
  else if LLONG_MAX - mstime st <? seconds * 1000 then Some InvalidExpire
  else None.

Definition ttl_reply (st : redis) (k : jsstring) : Z :=
  match live st k with
  | Some e => match deadline e with Some d => d - clock st | None => -1 end
  | None => -2
  end.

(** One command, sent and answered.  An unreachable server answers every
    command with an error and keeps its state. *)
Definition execute (c : command) (st0 : redis) : reply * redis :=
  let st := record_command c st0 in
  if negb (online st) then (Error ConnectionError, st)
  else
    match c with
    | GET k =>
        match live st k with
        | Some (Entry (RString s) _) => (Bulk s, st)
        | Some (Entry (RSet _) _) => (Error WrongType, st)
        | None => (Nil, st)
        end
    | SETEX k seconds data =>
        match setex_lifetime st seconds with
        | Some e => (Error e, st)
        | None =>
            (Status,
             with_db (<[k := Entry (RString data) (Some (clock st + seconds))]> (db st)) st)
        end
    | SADD k m =>
        match live st k with
        | Some (Entry (RSet ms) d) =>
            (Int (if decide (m ∈ ms) then 0 else 1),
             with_db (<[k := Entry (RSet ({[m]} ∪ ms)) d]> (db st)) st)
        | Some (Entry (RString _) _) => (Error WrongType, st)
        | None => (Int 1, with_db (<[k := Entry (RSet {[m]}) None]> (db st)) st)
        end
    | EXPIRE k seconds =>
        match expire_lifetime st seconds with
        | Some e => (Error e, st)
        | None =>
            match live st k with
            | Some (Entry v _) =>
                if seconds <=? 0 then (Int 1, with_db (delete k (db st)) st)
                else (Int 1,
                      with_db (<[k := Entry v (Some (clock st + seconds))]> (db st)) st)
            | None => (Int 0, st)
            end
        end
    | SMEMBERS k =>
        match live st k with
        | Some (Entry (RSet ms) _) => (Array (elements ms), st)
        | Some (Entry (RString _) _) => (Error WrongType, st)
        | None => (Array [], st)
        end
    | DEL ks => let '(n, st') := del_keys ks st in (Int n, st')
    | SCAN cursor pattern count =>
        let '(next, keys) := scan_page st cursor pattern count in
        (Page next keys, st)
    | EXISTS k => (Int (if is_live st k then 1 else 0), st)
    | TTL k => (Int (ttl_reply st k), st)
    end.

(** [redis.pipeline() ... .exec()]: the queued commands run in order.  [exec]
    resolves to the list of replies, errors included, which the cache service
    never looks at. *)
Definition pipeline_exec (cmds : list command) (st : redis) : redis :=
  fold_left (fun st c => (execute c st).2) cmds st.

(** *** Counters and ping

    [INCR] and [PING] are given on their own; [sent] keeps the commands above
    only. *)

(** The inverse of [str], for strings of 8-bit code units. *)
Fixpoint unstr (s : jsstring) : option string :=
  match s with
  | [] => Some EmptyString
  | c :: rest =>
      if (0 <=? c) && (c <? 256)
      then String (ascii_of_N (Z.to_N c)) <$> unstr rest
      else None
  end.

(** Redis reads an integer off a string only when the string is the decimal
    form of a 64-bit signed integer as [decimal] writes it: no sign for zero,
    no leading zero, no blank. *)
Definition string2ll (s : jsstring) : option Z :=
  match unstr s ≫= NilZero.int_of_string with
  | Some d =>
      let n := Z.of_int d in
      if bool_decide (decimal n = s) && (- 2 ^ 63 <=? n) && (n <? 2 ^ 63)
      then Some n
      else None
  | None => None
  end.

(** [INCR key]: the new value, or nothing when the command is refused (the
    server is out of reach, the key holds a set or a string that is not an
    integer, the increment would overflow).  A key that is not there counts
    from 0 and gets no expiry; a key that is there keeps its expiry. *)
Definition redis_incr (k : jsstring) (st : redis) : option Z * redis :=
  if negb (online st) then (None, st)
  else
    match live st k with
    | Some (Entry (RString s) d) =>
        match string2ll s with
        | Some n =>
            if n <? 2 ^ 63 - 1
            then (Some (n + 1),
                  with_db (<[k := Entry (RString (decimal (n + 1))) d]> (db st)) st)
            else (None, st)
        | None => (None, st)
        end
    | Some (Entry (RSet _) _) => (None, st)
    | None => (Some 1, with_db (<[k := Entry (RString (decimal 1)) None]> (db st)) st)
    end.

(** [PING]: answered when the server can be reached. *)
Definition redis_ping (st : redis) : bool := online st.

(** ** The cache service ([CacheService], src/core/cache.ts) *)

(** The configuration a service holds; the client it talks to is the [redis]
    state passed to every method. *)
Record CacheService := {
  namespace : jsstring;
  defaultTTL : Z;
  compressionThreshold : Z
}.

(** [new CacheService(redisClient, namespace = 'app', defaultTTL = 3600)] *)
Definition new_CacheService (ns : option jsstring) (ttl : option Z) : CacheService :=
  {| namespace := default (str "app") ns;
     defaultTTL := default 3600 ttl;
     compressionThreshold := 1024 |}.

(** [namespace || this.namespace], then [`${ns}:${key}`] *)
Definition generateKey (this : CacheService) (key : jsstring)
    (ns_override : option jsstring) : jsstring :=
  let ns := match ns_override with
            | Some (c :: n) => c :: n
            | _ => namespace this
            end in
  ns ++ str ":" ++ key.

Definition compress (this : CacheService) (data : jsstring) : jsstring :=
  if compressionThreshold this <? Z.of_nat (length data)
  then str "compressed:" ++ Buffer_toString_base64 (Buffer_from data)
  else data.

Definition decompress (data : jsstring) : jsstring :=
  if starts_with (str "compressed:") data
  then Buffer_toString_utf8 (Buffer_from_base64 (drop 11 data))
  else data.

(** [get]: a missing key, an empty string, a failed command and a text that
    does not parse all give [null]. *)
Definition get `{JSON} (this : CacheService) (key : jsstring)
    (ns_override : option jsstring) (st : redis) : jsvalue * redis :=
  let fullKey := generateKey this key ns_override in
  match execute (GET fullKey) st with
  | (Bulk data, st') =>
      match data with
      | [] => (JNull, st')
      | _ =>
          match JSON_parse (decompress data) with
          | Some v => (v, st')
          | None => (JNull, st')
          end
      end
  | (_, st') => (JNull, st')
  end.

Definition tag_key (this : CacheService) (tag : jsstring) : jsstring :=
  generateKey this (str "tag:" ++ tag) None.

(** [ttl || this.defaultTTL] *)
Definition effective_ttl (this : CacheService) (ttl : option Z) : Z :=
  match ttl with
  | Some t => if t =? 0 then defaultTTL this else t
  | None => defaultTTL this
  end.

Definition tag_commands (this : CacheService) (fullKey : jsstring) (expiry : Z)
    (tags : option (list jsstring)) : list command :=
  match tags with
  | Some ts =>
      flat_map (fun tag => [SADD (tag_key this tag) fullKey;
                            EXPIRE (tag_key this tag) expiry]) ts
  | None => []
  end.

(** [set]: [false] only when the value cannot be serialized. *)
Definition set `{JSON} (this : CacheService) (key : jsstring) (value : jsvalue)
    (ttl : option Z) (tags : option (list jsstring)) (st : redis) : bool * redis :=
  let fullKey := generateKey this key None in
  let expiry := effective_ttl this ttl in
  match JSON_stringify value with
  | Some serialized =>
      let data := compress this serialized in
      (true,
       pipeline_exec (SETEX fullKey expiry data
                      :: tag_commands this fullKey expiry tags) st)
  | None => (false, st)
  end.

Definition del (this : CacheService) (key : jsstring)
    (ns_override : option jsstring) (st : redis) : bool * redis :=
  match execute (DEL [generateKey this key ns_override]) st with
  | (Error _, st') => (false, st')
  | (_, st') => (true, st')
  end.

(** The loop of [invalidateByTags]; a failing [SMEMBERS] lands in the handler,
    which answers [0] whatever was counted before. *)
Fixpoint invalidate_loop (this : CacheService) (tags : list jsstring)
    (totalDeleted : Z) (st : redis) : Z * redis :=
  match tags with
  | [] => (totalDeleted, st)
  | tag :: rest =>
      let tagKey := tag_key this tag in
      match execute (SMEMBERS tagKey) st with
      | (Array keys, st1) =>
          match keys with
          | [] => invalidate_loop this rest totalDeleted st1
          | _ =>
              let st2 :=
                pipeline_exec (map (fun k => DEL [k]) keys ++ [DEL [tagKey]]) st1 in
              invalidate_loop this rest (totalDeleted + Z.of_nat (length keys)) st2
          end
      | (_, st1) => (0, st1)
      end
  end.

Definition invalidateByTags (this : CacheService) (tags : list jsstring)
    (st : redis) : Z * redis :=
  invalidate_loop this tags 0 st.

Inductive scan_outcome :=
| Collected (keys : list jsstring)
| ScanFailed
| OutOfFuel.

(** [do { [cursor, keys] = scan(cursor, 'MATCH', p, 'COUNT', 100) ... }
    while (cursor !== '0')] *)
Fixpoint scan_loop (fuel : nat) (fullPattern : jsstring) (cursor : nat)
    (keysToDelete : list jsstring) (st : redis) : scan_outcome * redis :=
  match fuel with
  | O => (OutOfFuel, st)
  | S fuel' =>
      match execute (SCAN cursor fullPattern 100) st with
      | (Page newCursor keys, st') =>
          if (newCursor =? 0)%nat then (Collected (keysToDelete ++ keys), st')
          else scan_loop fuel' fullPattern newCursor (keysToDelete ++ keys) st'
      | (_, st') => (ScanFailed, st')
      end
  end.

(** [for (i = 0; i < keys.length; i += 100) keys.slice(i, i + 100)]; the loop
    runs at most [keys.length] times. *)
Fixpoint batches_from (n : nat) (keys : list jsstring) (i : nat) : list (list jsstring) :=
  match n with
  | O => []
  | S n' =>
      if (i <? length keys)%nat
      then take 100 (drop i keys) :: batches_from n' keys (i + 100)
      else []
  end.

Definition batches (keys : list jsstring) : list (list jsstring) :=
  batches_from (length keys) keys 0.

Fixpoint delete_loop (bs : list (list jsstring)) (totalDeleted : Z) (st : redis)
  : Z * redis :=
  match bs with
  | [] => (totalDeleted, st)
  | batch :: rest =>
      match execute (DEL batch) st with
      | (Error _, st') => (0, st')
      | (_, st') => delete_loop rest (totalDeleted + Z.of_nat (length batch)) st'
      end
  end.

(** [delPattern]; [None] when the scan was cut short by [fuel]. *)
Definition delPattern (fuel : nat) (this : CacheService) (pattern : jsstring)
    (st : redis) : option (Z * redis) :=
  let fullPattern := generateKey this pattern None in
  match scan_loop fuel fullPattern 0 [] st with
  | (Collected keysToDelete, st') =>
      match keysToDelete with
      | [] => Some (0, st')
      | _ => Some (delete_loop (batches keysToDelete) 0 st')
      end
  | (ScanFailed, st') => Some (0, st')
  | (OutOfFuel, _) => None
  end.

(** What a call that may throw gives back. *)
Inductive outcome (A : Type) :=
| Returned (a : A)
| Thrown (e : jsvalue).
Arguments Returned {A} a.
Arguments Thrown {A} e.

(** A fetcher is a procedure of the caller: it runs in the caller's world [W]
    and may change it. *)
Definition fetcher (W : Type) : Type := W -> outcome jsvalue * W.

(** [getOrSet].  [get] and [set] never throw, so the handler runs only when
    the fetcher throws, and calls it again. *)
Definition getOrSet `{JSON} {W} (this : CacheService) (key : jsstring)
    (fetch : fetcher W) (ttl : option Z) (tags : option (list jsstring))
    (st : redis) (w : W) : outcome jsvalue * redis * W :=
  let '(cached, st1) := get this key None st in
  if not_null cached then (Returned cached, st1, w)
  else
    match fetch w with
    | (Returned data, w1) =>
        let '(_, st2) := set this key data ttl tags st1 in
        (Returned data, st2, w1)
    | (Thrown _, w1) =>
        let '(r, w2) := fetch w1 in (r, st1, w2)
    end.

(** A fetcher that also counts its calls, as the [fetchCount++] of the
    test suite does. *)
Definition counted {W} (fetch : fetcher W) : fetcher (W * nat) :=
  fun '(w, n) => let '(r, w') := fetch w in (r, (w', S n)).

(** Sequential calls of [getOrSet] with the same arguments; each call is made
    the given number of seconds after the previous one has returned. *)
Fixpoint getOrSet_calls `{JSON} {W} (this : CacheService) (key : jsstring)
    (fetch : fetcher W) (ttl : option Z) (tags : option (list jsstring))
    (pauses : list Z) (st : redis) (w : W)
  : list (outcome jsvalue) * redis * W :=
  match pauses with
  | [] => ([], st, w)
  | pause :: rest =>
      let '(r, st1, w1) := getOrSet this key fetch ttl tags (advance pause st) w in
      let '(rs, st2, w2) := getOrSet_calls this key fetch ttl tags rest st1 w1 in
      (r :: rs, st2, w2)
  end.

(** [ttl(key)]: seconds left, [-1] without expiry or on failure, [-2] when
    the key is absent. *)
Definition ttl (this : CacheService) (key : jsstring) (st : redis) : Z * redis :=
  match execute (TTL (generateKey this key None)) st with
  | (Int n, st') => (n, st')
  | (_, st') => (-1, st')
  end.

(** [exists(key)]: [result === 1], and [false] on failure. *)
Definition exists_ (this : CacheService) (key : jsstring) (st : redis) : bool * redis :=
  match execute (EXISTS (generateKey this key None)) st with
  | (Int result, st') => (result =? 1, st')
  | (_, st') => (false, st')
  end.

(** [incr(key)]: the counter's new value, [0] on failure.  The value is exact
    as long as it stays below 2^53, where a JavaScript number holds it. *)
Definition incr (this : CacheService) (key : jsstring) (st : redis) : Z * redis :=
  match redis_incr (generateKey this key None) st with
  | (Some n, st') => (n, st')
  | (None, st') => (0, st')
  end.

(** [healthCheck()]: whether a ping is answered. *)
Definition healthCheck (this : CacheService) (st : redis) : bool := redis_ping st.


(** ** The Express middleware ([cacheMiddleware], src/adapters/express.ts) *)

Inductive CacheStrategy := auto | manual | none.

(** What the middleware reads of a request.  [user_id] is the value of
    [req.user?.id], [undefined] when nobody is authenticated. *)
Record Request := {
  method : jsstring;
  path : jsstring;
  query : list (jsstring * jsvalue);
  user_id : jsvalue;
  cacheKey : option jsstring
}.

Inductive tag_source :=
| StaticTags (tags : list jsstring)
| TagFunction (f : Request -> list jsstring).

Record AutoCacheConfig := {
  ac_enabled : option bool;
  ac_keyGenerator : option (Request -> jsstring);
  ac_tags : option tag_source;
  ac_includeAuth : bool;
  ac_condition : option (Request -> bool)
}.

Record CacheConfig := {
  cfg_strategy : option CacheStrategy;
  cfg_ttl : option Z;
  cfg_namespace : option jsstring;
  cfg_autoCache : option AutoCacheConfig
}.

(** [autoCache = {}] *)
Definition no_autoCache : AutoCacheConfig :=
  {| ac_enabled := None; ac_keyGenerator := None; ac_tags := None;
     ac_includeAuth := false; ac_condition := None |}.

(** The cache service as the middleware sees it: the interface
    [ICacheService], whose methods are promises and may reject. *)
Record ICacheService := {
  ics_get : jsstring -> redis -> outcome jsvalue * redis;
  ics_set : jsstring -> jsvalue -> option Z -> option (list jsstring) ->
            redis -> outcome bool * redis
}.

(** [CacheService implements ICacheService]: neither method ever rejects. *)
Definition implement `{JSON} (this : CacheService) : ICacheService :=
  {| ics_get key st := let '(v, st') := get this key None st in (Returned v, st');
     ics_set key value ttl tags st :=
       let '(ok, st') := set this key value ttl tags st in (Returned ok, st') |}.

(** The response: its headers, its status, the body once sent, and the
    caching wrapper installed around [res.json], if any. *)
Record json_wrapper := {
  wrap_key : jsstring;
  wrap_ttl : Z;
  wrap_tags : option tag_source
}.

Record Response := {
  headers : list (jsstring * jsstring);
  statusCode : Z;
  body : option jsvalue;
  wrapper : option json_wrapper
}.

(** The first value recorded under a name. *)
Fixpoint assoc {A} (name : jsstring) (l : list (jsstring * A)) : option A :=
  match l with
  | [] => None
  | (n, v) :: rest => if decide (n = name) then Some v else assoc name rest
  end.

Definition setHeader (name value : jsstring) (res : Response) : Response :=
  {| headers := (name, value)
                :: filter (fun h => negb (bool_decide (h.1 = name))) (headers res);
     statusCode := statusCode res; body := body res; wrapper := wrapper res |}.

Definition getHeader (name : jsstring) (res : Response) : option jsstring :=
  assoc name (headers res).

Definition send (data : jsvalue) (res : Response) : Response :=
  {| headers := headers res; statusCode := statusCode res;
     body := Some data; wrapper := wrapper res |}.

Definition install (w : json_wrapper) (res : Response) : Response :=
  {| headers := headers res; statusCode := statusCode res;
     body := body res; wrapper := Some w |}.

(** Lexicographic order on code units, the default order of [sort()]. *)
Fixpoint string_ltb (a b : jsstring) : bool :=
  match a, b with
  | _, [] => false
  | [], _ :: _ => true
  | x :: a', y :: b' => (x <? y) || ((x =? y) && string_ltb a' b')
  end.

Fixpoint insert_sorted (k : jsstring) (l : list jsstring) : list jsstring :=
  match l with
  | [] => [k]
  | h :: t => if string_ltb k h then k :: h :: t else h :: insert_sorted k t
  end.

Definition sort (l : list jsstring) : list jsstring := foldr insert_sorted [] l.

(** [req.query[key]] *)
Definition query_value (req : Request) (key : jsstring) : jsvalue :=
  default JUndefined (assoc key (query req)).

(** The default key generator: method, path, the MD5 of the sorted query
    string when there is one, and the user when asked for and known. *)
Definition default_key `{Crypto} (config : AutoCacheConfig) (req : Request) : jsstring :=
  let parts := [method req; path req] in
  let queryString :=
    join (str "&")
      (map (fun key => key ++ str "=" ++ to_string (query_value req key))
           (sort (map fst (query req)))) in
  let parts := match queryString with
               | [] => parts
               | _ => parts ++ [md5_hex queryString]
               end in
  let parts := if ac_includeAuth config && truthy (user_id req)
               then parts ++ [str "user:" ++ to_string (user_id req)]
               else parts in
  join (str ":") parts.

Definition resolve_tags (source : option tag_source) (req : Request) : list jsstring :=
  match source with
  | Some (TagFunction f) => f req
  | Some (StaticTags tags) => tags
  | None => []
  end.

(** What the middleware did with the request. *)
Inductive flow := Next | Responded.

Definition with_cacheKey (key : jsstring) (req : Request) : Request :=
  {| method := method req; path := path req; query := query req;
     user_id := user_id req; cacheKey := Some key |}.

(** The auto-cache branch, for a GET request that is to be cached. *)
Definition auto_cache `{Crypto} (cache : ICacheService) (config : AutoCacheConfig)
    (ttl : Z) (req : Request) (res : Response) (st : redis)
  : flow * Request * Response * redis :=
  let generateKey := default (default_key config) (ac_keyGenerator config) in
  let cacheKey := generateKey req in
  let req := with_cacheKey cacheKey req in
  match ics_get cache cacheKey st with
  | (Returned cachedData, st') =>
      if not_null cachedData then
        let res := setHeader (str "X-Cache") (str "HIT") res in
        let res := setHeader (str "X-Cache-Key") cacheKey res in
        (Responded, req, send cachedData res, st')
      else
        let res := setHeader (str "X-Cache") (str "MISS") res in
        let res := setHeader (str "X-Cache-Key") cacheKey res in
        let res := install {| wrap_key := cacheKey; wrap_ttl := ttl;
                              wrap_tags := ac_tags config |} res in
        (Next, req, res, st')
  | (Thrown _, st') =>
      (Next, req, setHeader (str "X-Cache") (str "ERROR") res, st')
  end.

(** The middleware up to the end of the auto-cache section; what it arranges
    for mutating requests is left out. *)
Definition cacheMiddleware `{JSON} `{Crypto} (config : CacheConfig)
    (req : Request) (res : Response) (st : redis)
  : flow * Request * Response * redis :=
  let strategy := default auto (cfg_strategy config) in
  let ttl := default 3600 (cfg_ttl config) in
  let autoCache := default no_autoCache (cfg_autoCache config) in
  let cache := implement (new_CacheService (cfg_namespace config) (Some ttl)) in
  match strategy with
  | none | manual => (Next, req, res, st)
  | auto =>
      let isGetRequest := bool_decide (method req = str "GET") in
      let enabled := negb (bool_decide (ac_enabled autoCache = Some false)) in
      let shouldCache := match ac_condition autoCache with
                         | Some condition => condition req
                         | None => true
                         end in
      if isGetRequest && enabled && shouldCache
      then auto_cache cache autoCache ttl req res st
      else (Next, req, res, st)
  end.

(** [res.json(data)] as the handler calls it: through the wrapper when one
    was installed, which stores responses with a 2xx status. *)
Definition res_json (cache : ICacheService) (req : Request) (data : jsvalue)
    (res : Response) (st : redis) : Response * redis :=
  match wrapper res with
  | Some w =>
      let st' :=
        if (200 <=? statusCode res) && (statusCode res <? 300)
        then (ics_set cache (wrap_key w) data (Some (wrap_ttl w))
                (Some (resolve_tags (wrap_tags w) req)) st).2
        else st in
      (send data res, st')
  | None => (send data res, st)
  end.

(** The response as Express hands it to the first middleware. *)
Definition blank_response : Response :=
  {| headers := []; statusCode := 200; body := None; wrapper := None |}.

(** [res.status(code)] *)
Definition with_status (code : Z) (res : Response) : Response :=
  {| headers := headers res; statusCode := code; body := body res;
     wrapper := wrapper res |}.

(** A GET route served end to end: the middleware and then, unless it has
    answered from the cache, the handler, which calls
    [res.status(code).json(data)]. *)
Definition serve `{JSON} `{Crypto} (config : CacheConfig)
    (handler : Request -> Z * jsvalue) (req : Request) (st : redis)
  : Response * redis :=
  let '(next, req', res, st1) := cacheMiddleware config req blank_response st in
  match next with
  | Responded => (res, st1)
  | Next =>
      let '(code, data) := handler req' in
      let cache := implement (new_CacheService (cfg_namespace config)
                                (Some (default 3600 (cfg_ttl config)))) in
      res_json cache req' data (with_status code res) st1
  end.

(** ** Invalidation after a mutating request ([cacheMiddleware], last section) *)

(** Tags, patterns and keys are given as an array or as a function of the
    request, the response and the response data. *)
Inductive invalidation_source :=
| Fixed (items : list jsstring)
| Computed (f : Request -> Response -> jsvalue -> list jsstring).

Record InvalidationConfig := {
  inv_enabled : option bool;
  inv_tags : option invalidation_source;
  inv_patterns : option invalidation_source;
  inv_keys : option invalidation_source;
  inv_afterResponse : option bool
}.

(** A call of an asynchronous method under way: resolved with its result,
    waiting for the reply to a command, or waiting for a pipeline to be
    run.  [Unfinished] is a scan that was cut short by its fuel. *)
Inductive promise :=
| Resolved (result : jsvalue)
| Awaiting (c : command) (resume : reply -> promise)
| AwaitingExec (cmds : list command) (resume : promise)
| Unfinished.

(** [del], [invalidateByTags] and [delPattern] once more, command by
    command. *)
Definition del_async (this : CacheService) (key : jsstring)
    (ns_override : option jsstring) : promise :=
  Awaiting (DEL [generateKey this key ns_override])
    (fun r => match r with
              | Error _ => Resolved (JBool false)
              | _ => Resolved (JBool true)
              end).

Fixpoint invalidate_async (this : CacheService) (tags : list jsstring)
    (totalDeleted : Z) : promise :=
  match tags with
  | [] => Resolved (JNum totalDeleted)
  | tag :: rest =>
      let tagKey := tag_key this tag in
      Awaiting (SMEMBERS tagKey)
        (fun r =>
           match r with
           | Array [] => invalidate_async this rest totalDeleted
           | Array keys =>
               AwaitingExec (map (fun k => DEL [k]) keys ++ [DEL [tagKey]])
                 (invalidate_async this rest (totalDeleted + Z.of_nat (length keys)))
           | _ => Resolved (JNum 0)
           end)
  end.

Definition invalidateByTags_async (this : CacheService) (tags : list jsstring) : promise :=
  invalidate_async this tags 0.

Fixpoint delete_async (bs : list (list jsstring)) (totalDeleted : Z) : promise :=
  match bs with
  | [] => Resolved (JNum totalDeleted)
  | batch :: rest =>
      Awaiting (DEL batch)
        (fun r => match r with
                  | Error _ => Resolved (JNum 0)
                  | _ => delete_async rest (totalDeleted + Z.of_nat (length batch))
                  end)
  end.

Fixpoint scan_async (fuel : nat) (fullPattern : jsstring) (cursor : nat)
    (keysToDelete : list jsstring) : promise :=
  match fuel with
  | O => Unfinished
  | S fuel' =>
      Awaiting (SCAN cursor fullPattern 100)
        (fun r =>
           match r with
           | Page newCursor keys =>
               if (newCursor =? 0)%nat
               then match keysToDelete ++ keys with
                    | [] => Resolved (JNum 0)
                    | found => delete_async (batches found) 0
                    end
               else scan_async fuel' fullPattern newCursor (keysToDelete ++ keys)
           | _ => Resolved (JNum 0)
           end)
  end.

Definition delPattern_async (fuel : nat) (this : CacheService) (pattern : jsstring) : promise :=
  scan_async fuel (generateKey this pattern None) 0 [].

(** One turn of a call: its command is run and the call goes on with the
    reply. *)
Definition turn (t : promise) (st : redis) : promise * redis :=
  match t with
  | Awaiting c resume => let '(r, st') := execute c st in (resume r, st')
  | AwaitingExec cmds resume => (resume, pipeline_exec cmds st)
  | Resolved _ | Unfinished => (t, st)
  end.

(** A call run on its own, for at most [n] turns. *)
Fixpoint alone (n : nat) (t : promise) (st : redis) : promise * redis :=
  match n with
  | O => (t, st)
  | S n' => let '(t', st') := turn t st in alone n' t' st'
  end.

(** [Promise.all(promises)]: the calls have all been started and share the
    connection; the server takes their commands one turn at a time, in an
    order that depends on when replies arrive.  A schedule names the call
    that takes each turn. *)
Definition take_turn (pool_st : list promise * redis) (i : nat) : list promise * redis :=
  let '(pool, st) := pool_st in
  match pool !! i with
  | Some t => let '(t', st') := turn t st in (<[i := t']> pool, st')
  | None => (pool, st)
  end.

Definition Promise_all (schedule : list nat) (promises : list promise) (st : redis)
  : list promise * redis :=
  foldl take_turn (promises, st) schedule.

Definition resolve_source (source : option invalidation_source)
    (req : Request) (res : Response) (data : jsvalue) : option (list jsstring) :=
  match source with
  | Some (Fixed items) => Some items
  | Some (Computed f) => Some (f req res data)
  | None => None
  end.

(** [performInvalidation(data)]: the calls it starts, in the order in which
    it starts them.  [fuel] bounds the scans of its [delPattern] calls. *)
Definition performInvalidation (fuel : nat) (cache : CacheService)
    (invalidate : InvalidationConfig) (req : Request) (res : Response)
    (data : jsvalue) : list promise :=
  let by_tags :=
    match resolve_source (inv_tags invalidate) req res data with
    | Some (tag :: tags) => [invalidateByTags_async cache (tag :: tags)]
    | _ => []
    end in
  let by_patterns :=
    map (delPattern_async fuel cache)
      (default [] (resolve_source (inv_patterns invalidate) req res data)) in
  let by_keys :=
    map (fun key => del_async cache key None)
      (default [] (resolve_source (inv_keys invalidate) req res data)) in
  by_tags ++ by_patterns ++ by_keys.

(** What the last section of the middleware arranges before it calls
    [next()]. *)
Inductive arrangement :=
| Nothing
| OnFinish
| AroundJsonAndSend.

Definition arrange (strategy : option CacheStrategy) (invalidate : InvalidationConfig)
    (req : Request) : arrangement :=
  match default auto strategy with
  | none | manual => Nothing
  | auto =>
      let isMutationRequest :=
        bool_decide (method req ∈ [str "POST"; str "PUT"; str "DELETE"; str "PATCH"]) in
      if isMutationRequest && negb (bool_decide (inv_enabled invalidate = Some false))
      then if bool_decide (inv_afterResponse invalidate = Some true)
           then AroundJsonAndSend
           else OnFinish
      else Nothing
  end.

(** The listener of the response's [finish] event under [OnFinish]: the
    calls it starts once the response has gone out.  What the wrappers of
    [AroundJsonAndSend] do is left out. *)
Definition on_finish (fuel : nat) (cache : CacheService) (invalidate : InvalidationConfig)
    (req : Request) (res : Response) : list promise :=
  if (200 <=? statusCode res) && (statusCode res <? 300)
  then performInvalidation fuel cache invalidate req res JUndefined
  else [].

(** ** Creating the client ([createRedisClient], src/core/redis.ts) *)

(** [s.split(sep)] for a separator of one code unit: the first piece and the
    pieces after it. *)
Fixpoint split (sep : Z) (s : jsstring) : jsstring * list jsstring :=
  match s with
  | [] => ([], [])
  | c :: rest =>
      let '(piece, pieces) := split sep rest in
      if c =? sep then ([], piece :: pieces) else (c :: piece, pieces)
  end.

(** White space and line terminators, which [parseInt] skips. *)
Definition is_white_space (c : Z) : bool :=
  ((9 <=? c) && (c <=? 13)) || (c =? 32) || (c =? 0xA0) || (c =? 0x1680)
  || ((0x2000 <=? c) && (c <=? 0x200A)) || (c =? 0x2028) || (c =? 0x2029)
  || (c =? 0x202F) || (c =? 0x205F) || (c =? 0x3000) || (c =? 0xFEFF).

Fixpoint trim_start (s : jsstring) : jsstring :=
  match s with
  | c :: rest => if is_white_space c then trim_start rest else s
  | [] => []
  end.

(** The value of the decimal digits [s] starts with, if it starts with one. *)
Fixpoint leading_digits (s : jsstring) (acc : option Z) : option Z :=
  match s with
  | c :: rest =>
      if (48 <=? c) && (c <=? 57)
      then leading_digits rest (Some (default 0 acc * 10 + (c - 48)))
      else acc
  | [] => acc
  end.

(** [parseInt(input, 10)].  [None] stands for [NaN]; [undefined] is read as
    the string it converts to.  The integer is exact as long as it is below
    2^53, where a JavaScript number holds it; the sign of zero is not kept. *)
Definition parseInt (input : option jsstring) : option Z :=
  let s := trim_start (default (str "undefined") input) in
  let '(negative, digits) :=
    match s with
    | c :: rest =>
        if c =? 45 then (true, rest)
        else if c =? 43 then (false, rest)
        else (false, s)
    | [] => (false, s)
    end in
  (fun n => if negative then - n else n) <$> leading_digits digits None.

Record RedisConfig := {
  rc_url : option jsstring;
  rc_host : option jsstring;
  rc_port : option Z;
  rc_password : option jsstring;
  rc_username : option jsstring;
  rc_clusterNodes : option (list jsstring);
  rc_isProduction : option bool;
  rc_maxRetriesPerRequest : option Z;
  rc_lazyConnect : option bool
}.

(** A node of the cluster; the port is [None] when it is [NaN]. *)
Record node := { host : jsstring; port : option Z }.

(** The options handed to ioredis; an option left out is [None]. *)
Record options := {
  password : option jsstring;
  username : option jsstring;
  enableReadyCheck : bool;
  maxRetriesPerRequest : Z;
  lazyConnect : bool
}.

(** The delay in milliseconds before reconnection attempt number [times]. *)
Definition retryStrategy (times : Z) : Z := Z.min (times * 50) 2000.

(** The client that is built: [new Cluster(nodes, {redisOptions,
    clusterRetryStrategy})], [new Redis(url, {..., retryStrategy})] or
    [new Redis({host, port, ..., retryStrategy})]. *)
Inductive client :=
| NewCluster (nodes : list node) (redisOptions : options) (clusterRetryStrategy : Z -> Z)
| NewRedisFromUrl (url : jsstring) (opts : options) (retry : Z -> Z)
| NewRedis (h : jsstring) (p : Z) (opts : options) (retry : Z -> Z).

(** [const [nodeHost, nodePort] = node.split(':')] *)
Definition parse_node (text : jsstring) : node :=
  let '(nodeHost, more) := split 58 text in
  {| host := nodeHost; port := parseInt (head more) |}.

(** [createRedisClient(config)]: the client it returns.  The messages it
    logs and the listeners it registers on the client and on the process are
    left out. *)
Definition createRedisClient (config : RedisConfig) : client :=
  let isProduction := default false (rc_isProduction config) in
  let maxRetries := default 3 (rc_maxRetriesPerRequest config) in
  let lazy := default false (rc_lazyConnect config) in
  let shouldUseCluster :=
    isProduction && match rc_clusterNodes config with
                    | Some (_ :: _) => true
                    | _ => false
                    end in
  if shouldUseCluster then
    NewCluster (map parse_node (default [] (rc_clusterNodes config)))
      {| password := rc_password config; username := rc_username config;
         enableReadyCheck := true; maxRetriesPerRequest := maxRetries;
         lazyConnect := lazy |}
      retryStrategy
  else
    match rc_url config with
    | Some (c :: u) =>
        NewRedisFromUrl (c :: u)
          {| password := None; username := None;
             enableReadyCheck := true; maxRetriesPerRequest := maxRetries;
             lazyConnect := lazy |}
          retryStrategy
    | _ =>
        NewRedis (default (str "localhost") (rc_host config))
          (default 6379 (rc_port config))
          {| password := rc_password config; username := rc_username config;
             enableReadyCheck := true; maxRetriesPerRequest := maxRetries;
             lazyConnect := lazy |}
          retryStrategy
    end.

(** What the shutdown handler asks of the client. *)
Inductive client_call := quit | disconnect.

(** The handler's flag and the calls it has made so far. *)
Record shutdown_state := {
  isShuttingDown : bool;
  calls : list client_call
}.

(** [shutdown], registered once for SIGTERM and once for SIGINT.  [status]
    is [client.status] when the signal arrives and [quit_rejects] tells
    whether [client.quit()] fails. *)
Definition shutdown (status : jsstring) (quit_rejects : bool) (s : shutdown_state)
  : shutdown_state :=
  if isShuttingDown s then s
  else
    {| isShuttingDown := true;
       calls :=
         calls s
         ++ (if bool_decide (status = str "ready")
                || bool_decide (status = str "connect")
                || bool_decide (status = str "connecting")
             then (if quit_rejects then [quit; disconnect] else [quit])
             else [disconnect]) |}.

(** [checkRedisHealth(client)]: whether a ping is answered, as for
    [healthCheck]. *)
Definition checkRedisHealth (st : redis) : bool := redis_ping st.

(** The reconnection delays of a client. *)
Definition retry_delay (c : client) : Z -> Z :=
  match c with
  | NewCluster _ _ retry | NewRedisFromUrl _ _ retry | NewRedis _ _ _ retry => retry
  end.

(** ** A reference JSON codec and digest

    The theorems are stated for any [JSON] and [Crypto]; the examples run on
    this codec, which writes JSON texts the way [JSON.stringify] does and reads
    them back.  It covers integer numbers only, and its digest is a stand-in
    that spells out the code units in hexadecimal rather than MD5. *)

Definition hex_digit (n : Z) : Z := if n <? 10 then 48 + n else 87 + n.

Definition hex4 (c : Z) : jsstring :=
  [hex_digit (c / 4096 mod 16); hex_digit (c / 256 mod 16);
   hex_digit (c / 16 mod 16); hex_digit (c mod 16)].

Definition escape_unit (c : Z) : jsstring :=
  if c =? 34 then [92; 34]
  else if c =? 92 then [92; 92]
  else if c =? 8 then [92; 98]
  else if c =? 12 then [92; 102]
  else if c =? 10 then [92; 110]
  else if c =? 13 then [92; 114]
  else if c =? 9 then [92; 116]
  else if c <? 32 then [92; 117] ++ hex4 c
  else [c].

(** Unpaired surrogates are written as escapes, so the text is well formed. *)
Fixpoint escape (s : jsstring) : jsstring :=
  match s with
  | [] => []
  | u :: rest =>
      if is_high_surrogate u then
        match rest with
        | l :: rest' =>
            if is_low_surrogate l then u :: l :: escape rest'
            else [92; 117] ++ hex4 u ++ escape rest
        | [] => [92; 117] ++ hex4 u
        end
      else if is_low_surrogate u then [92; 117] ++ hex4 u ++ escape rest
      else escape_unit u ++ escape rest
  end.

Definition quote (s : jsstring) : jsstring := [34] ++ escape s ++ [34].

Fixpoint json_of (v : jsvalue) : jsstring :=
  match v with
  | JUndefined | JNull => str "null"
  | JBool true => str "true"
  | JBool false => str "false"
  | JNum n => decimal n
  | JStr s => quote s
  | JArr items => [91] ++ join [44] (map json_of items) ++ [93]
  | JObj fields =>
      [123]
      ++ join [44]
           (flat_map (fun '(k, x) => match x with
                                     | JUndefined => []
                                     | _ => [quote k ++ [58] ++ json_of x]
                                     end) fields)
      ++ [125]
  end.

Definition sample_stringify (v : jsvalue) : option jsstring :=
  match v with
  | JUndefined => None
  | _ => Some (json_of v)
  end.

Definition hex_value (c : Z) : option Z :=
  if (48 <=? c) && (c <=? 57) then Some (c - 48)
  else if (97 <=? c) && (c <=? 102) then Some (c - 87)
  else if (65 <=? c) && (c <=? 70) then Some (c - 55)
  else None.

Definition is_space (c : Z) : bool :=
  (c =? 32) || (c =? 9) || (c =? 10) || (c =? 13).

Fixpoint skip_spaces (s : jsstring) : jsstring :=
  match s with
  | c :: rest => if is_space c then skip_spaces rest else s
  | [] => []
  end.

(** The characters of a string literal, after the opening quote. *)
Fixpoint parse_chars (s acc : jsstring) : option (jsstring * jsstring) :=
  match s with
  | [] => None
  | c :: rest =>
      if c =? 34 then Some (acc, rest)
      else if c =? 92 then
        match rest with
        | e :: rest1 =>
            if e =? 117 then
              match rest1 with
              | h3 :: h2 :: h1 :: h0 :: rest2 =>
                  match hex_value h3, hex_value h2, hex_value h1, hex_value h0 with
                  | Some a, Some b, Some c', Some d =>
                      parse_chars rest2 (acc ++ [a * 4096 + b * 256 + c' * 16 + d])
                  | _, _, _, _ => None
                  end
              | _ => None
              end
            else
              let plain x := parse_chars rest1 (acc ++ [x]) in
              if e =? 34 then plain 34
              else if e =? 92 then plain 92
              else if e =? 47 then plain 47
              else if e =? 98 then plain 8
              else if e =? 102 then plain 12
              else if e =? 110 then plain 10
              else if e =? 114 then plain 13
              else if e =? 116 then plain 9
              else None
        | [] => None
        end
      else if c <? 32 then None
      else parse_chars rest (acc ++ [c])
  end.

Fixpoint parse_digits (s : jsstring) (acc : Z) : Z * jsstring :=
  match s with
  | c :: rest =>
      if (48 <=? c) && (c <=? 57) then parse_digits rest (acc * 10 + (c - 48))
      else (acc, s)
  | [] => (acc, [])
  end.

Definition parse_number (s : jsstring) : option (Z * jsstring) :=
  let '(negative, s1) := match s with
                         | c :: rest => if c =? 45 then (true, rest) else (false, s)
                         | [] => (false, s)
                         end in
  match s1 with
  | c :: _ =>
      if (48 <=? c) && (c <=? 57) then
        let '(n, rest) := parse_digits s1 0 in
        match rest with
        | d :: _ =>
            if (d =? 46) || (d =? 101) || (d =? 69) then None
            else Some (if negative then - n else n, rest)
        | [] => Some (if negative then - n else n, rest)
        end
      else None
  | [] => None
  end.

Fixpoint parse_value (fuel : nat) (s : jsstring) : option (jsvalue * jsstring) :=
  match fuel with
  | O => None
  | S fuel' =>
      let items :=
        fix items (n : nat) (s : jsstring) (acc : list jsvalue)
          : option (list jsvalue * jsstring) :=
          match n with
          | O => None
          | S n' =>
              match parse_value fuel' s with
              | Some (v, rest) =>
                  match skip_spaces rest with
                  | c :: rest' =>
                      if c =? 44 then items n' rest' (acc ++ [v])
                      else if c =? 93 then Some (acc ++ [v], rest')
                      else None
                  | [] => None
                  end
              | None => None
              end
          end in
      let members :=
        fix members (n : nat) (s : jsstring) (acc : list (jsstring * jsvalue))
          : option (list (jsstring * jsvalue) * jsstring) :=
          match n with
          | O => None
          | S n' =>
              match skip_spaces s with
              | q :: s1 =>
                  if q =? 34 then
                    match parse_chars s1 [] with
                    | Some (k, s2) =>
                        match skip_spaces s2 with
                        | colon :: s3 =>
                            if colon =? 58 then
                              match parse_value fuel' s3 with
                              | Some (v, rest) =>
                                  match skip_spaces rest with
                                  | c :: rest' =>
                                      if c =? 44 then members n' rest' (acc ++ [(k, v)])
                                      else if c =? 125 then Some (acc ++ [(k, v)], rest')
                                      else None
                                  | [] => None
                                  end
                              | None => None
                              end
                            else None
                        | [] => None
                        end
                    | None => None
                    end
                  else None
              | [] => None
              end
          end in
      match skip_spaces s with
      | [] => None
      | c :: rest =>
          if c =? 34 then
            match parse_chars rest [] with
            | Some (x, rest') => Some (JStr x, rest')
            | None => None
            end
          else if c =? 91 then
            match skip_spaces rest with
            | d :: rest' =>
                if d =? 93 then Some (JArr [], rest')
                else match items (length rest) rest [] with
                     | Some (vs, rest'') => Some (JArr vs, rest'')
                     | None => None
                     end
            | [] => None
            end
          else if c =? 123 then
            match skip_spaces rest with
            | d :: rest' =>
                if d =? 125 then Some (JObj [], rest')
                else match members (length rest) rest [] with
                     | Some (fs, rest'') => Some (JObj fs, rest'')
                     | None => None
                     end
            | [] => None
            end
          else if starts_with (str "null") (c :: rest) then Some (JNull, drop 3 rest)
          else if starts_with (str "true") (c :: rest) then Some (JBool true, drop 3 rest)
          else if starts_with (str "false") (c :: rest) then Some (JBool false, drop 4 rest)
          else match parse_number (c :: rest) with
               | Some (n, rest') => Some (JNum n, rest')
               | None => None
               end
      end
  end.

Definition sample_parse (s : jsstring) : option jsvalue :=
  match parse_value (S (length s)) s with
  | Some (v, rest) => match skip_spaces rest with [] => Some v | _ => None end
  | None => None
  end.

Definition sample_JSON : JSON :=
  {| JSON_stringify := sample_stringify; JSON_parse := sample_parse |}.

Definition sample_Crypto : Crypto :=
  {| md5_hex s := flat_map (fun c => [hex_digit (c / 16 mod 16); hex_digit (c mod 16)]) s |}.

(** A server that has just been started, and the same server out of reach. *)
Definition fresh_redis : redis :=
  {| online := true; clock := 0; db := ∅; sent := [];
     rescanned := []; signed_chars := true |}.

Definition unreachable_redis : redis :=
  {| online := false; clock := 0; db := ∅; sent := [];
     rescanned := []; signed_chars := true |}.


(** ** Vocabulary of the properties *)

(** A lifetime the server accepts at the present time: at least one second,
    with a deadline that fits a signed 64-bit integer when it is counted in
    milliseconds, whatever part of the present second has gone by. *)
Definition accepted_ttl (st : redis) (seconds : Z) : Prop :=
  0 <= clock st /\ 1 <= seconds /\ (clock st + seconds + 1) * 1000 <= LLONG_MAX.

(** The server after it has been sent further commands that left the key
    space alone. *)
Definition extend (st : redis) (cmds : list command) : redis :=
  {| online := online st; clock := clock st; db := db st; sent := sent st ++ cmds;
     rescanned := rescanned st; signed_chars := signed_chars st |}.

(** What a scan for [pattern] is to find: the keys that are there and match. *)
Definition matching (st : redis) (pattern : jsstring) : list jsstring :=
  filter (fun k => is_live st k && matches st pattern k = true) (table st).

(** What a scan for [pattern] reports a second time. *)
Definition repeated (st : redis) (pattern : jsstring) : list jsstring :=
  filter (fun k => is_live st k && matches st pattern k = true) (rescanned st).

(** The keys of the store are well formed: each is the string of its text on
    the server, as it is when every key was written by a client that sends
    strings. *)
Definition well_formed_keys (st : redis) : Prop := Forall well_formed (table st).

(** A step of the cursor-based scan: 100 slots of the table at a time. *)
Definition is_scan (pattern : jsstring) (c : command) : Prop :=
  exists cursor, c = SCAN cursor pattern 100.

Definition holds_string (st : redis) (k : jsstring) : bool :=
  match live st k with
  | Some (Entry (RString _) _) => true
  | _ => false
  end.

(** The keys that hold a cache entry: a string that has not expired. *)
Definition cache_entries (st : redis) : list jsstring :=
  filter (fun k => holds_string st k = true) (table st).

(** The keys a service writes for its own entries and tag sets. *)
Definition owns (this : CacheService) (k : jsstring) : Prop :=
  exists key, k = generateKey this key None.

(** Two services are independent when their namespaces have no pattern
    character and neither prefix [ns:] starts with the other. *)
Definition independent (this1 this2 : CacheService) : bool :=
  glob_free (namespace this1) && glob_free (namespace this2)
  && negb (starts_with (namespace this1 ++ str ":") (namespace this2 ++ str ":"))
  && negb (starts_with (namespace this2 ++ str ":") (namespace this1 ++ str ":")).

(** The keys a command may change. *)
Definition command_writes (c : command) : list jsstring :=
  match c with
  | SETEX k _ _ | SADD k _ | EXPIRE k _ => [k]
  | DEL ks => ks
  | _ => []
  end.

(** The keys whose text on the server starts with the text of [ns:]; the
    keys of the service are among them. *)
Definition wire_owns (this : CacheService) (k : jsstring) : Prop :=
  starts_with (Buffer_from (namespace this ++ str ":")) (Buffer_from k) = true.

(** A command that writes such keys only, and adds only keys of the service
    to a set. *)
Definition own_command (this : CacheService) (c : command) : Prop :=
  (forall k, k ∈ command_writes c -> wire_owns this k)
  /\ (forall k m, c = SADD k m -> owns this m).

(** The tag sets of a service list keys of that service only. *)
Definition tags_closed (this : CacheService) (st : redis) : Prop :=
  forall k ms d m,
    owns this k -> live st k = Some (Entry (RSet ms) d) -> m ∈ ms -> owns this m.

(** Reading a tag set finds no member. *)
Definition quiet (st : redis) (k : jsstring) : Prop :=
  (execute (SMEMBERS k) st).1 = Array [].

(** The tags have nothing left to invalidate: read in order, each tag set is
    empty or missing, up to the first one that cannot be read. *)
Fixpoint settled (this : CacheService) (tags : list jsstring) (st : redis) : Prop :=
  match tags with
  | [] => True
  | tag :: rest =>
      match (execute (SMEMBERS (tag_key this tag)) st).1 with
      | Array [] => settled this rest st
      | Array _ => False
      | _ => True
      end
  end.

(** The calls that change the store. *)
Inductive mutation :=
| CallSet (key : jsstring) (value : jsvalue) (ttl : option Z)
    (tags : option (list jsstring))
| CallDel (key : jsstring)
| CallDelPattern (fuel : nat) (pattern : jsstring)
| CallInvalidateByTags (tags : list jsstring).

Definition perform `{JSON} (this : CacheService) (m : mutation) (st : redis)
  : option redis :=
  match m with
  | CallSet key value ttl tags => Some (set this key value ttl tags st).2
  | CallDel key => Some (del this key None st).2
  | CallDelPattern fuel pattern => snd <$> delPattern fuel this pattern st
  | CallInvalidateByTags tags => Some (invalidateByTags this tags st).2
  end.





(** [a] comes before [b] or is [b], in the order of [sort()]. *)
Definition string_le (a b : jsstring) : Prop := string_ltb b a = false.

(** A call that has run to its end. *)
Definition resolved (t : promise) : Prop := exists result, t = Resolved result.

(** A command that reads or deletes, and so writes nothing new. *)
Definition command_deletes (c : command) : Prop :=
  match c with
  | SETEX _ _ _ | SADD _ _ | EXPIRE _ _ => False
  | _ => True
  end.

(** A call all of whose commands read or delete, whatever replies it gets. *)
Inductive deleting : promise -> Prop :=
| deleting_resolved result : deleting (Resolved result)
| deleting_unfinished : deleting Unfinished
| deleting_awaiting c resume :
    command_deletes c -> (forall r, deleting (resume r)) ->
    deleting (Awaiting c resume)
| deleting_exec cmds resume :
    Forall command_deletes cmds -> deleting resume ->
    deleting (AwaitingExec cmds resume).

(** [st'] is [st] after keys have been deleted: every key is gone or holds
    what it held, and the server and its clock are as they were. *)
Definition shrunk (st st' : redis) : Prop :=
  online st' = online st /\ clock st' = clock st
  /\ forall k, live st' k = None \/ live st' k = live st k.

(** * Properties *)

(** ** Buffer conversions *)


Lemma list_ind3 {A} (P : list A -> Prop) :
  P [] -> (forall a, P [a]) -> (forall a b, P [a; b]) ->
  (forall a b c l, P l -> P (a :: b :: c :: l)) ->
  forall l, P l.
Proof.
  intros H0 H1 H2 H3.
  fix IH 1. intros [|a [|b [|c l]]].
  - exact H0.
  - apply H1.
  - apply H2.
  - apply H3, IH.
Qed.

(** Names every quotient and remainder of the goal, keeping only the
    equations of Euclidean division, so that what is left is linear. *)
Ltac divmod_abstract :=
  repeat match goal with
  | |- context [?a / ?n] =>
      let q := fresh "q" in let r := fresh "r" in
      pose proof (Z.div_mod a n ltac:(lia));
      pose proof (Z.mod_pos_bound a n ltac:(lia));
      set (q := a / n) in *; set (r := a mod n) in *; clearbody q r
  | |- context [?a mod ?n] =>
      let q := fresh "q" in let r := fresh "r" in
      pose proof (Z.div_mod a n ltac:(lia));
      pose proof (Z.mod_pos_bound a n ltac:(lia));
      set (q := a / n) in *; set (r := a mod n) in *; clearbody q r
  end.

Ltac zbool :=
  repeat match goal with
  | |- context [?a <? ?b] => destruct (Z.ltb_spec a b); try lia
  | |- context [?a <=? ?b] => destruct (Z.leb_spec a b); try lia
  | |- context [?a =? ?b] => destruct (Z.eqb_spec a b); try lia
  end.

Lemma b64_index_char i : 0 <= i < 64 -> b64_index (b64_char i) = Some i.
Proof.
  intros Hi. unfold b64_char.
  destruct (Z.ltb_spec i 26); [|destruct (Z.ltb_spec i 52);
    [|destruct (Z.ltb_spec i 62); [|destruct (Z.eqb_spec i 62)]]];
  unfold b64_index; zbool; simpl; f_equal; lia.
Qed.

Lemma b64_sextets_char i rest :
  0 <= i < 64 -> b64_sextets (b64_char i :: rest) = i :: b64_sextets rest.
Proof.
  intros Hi. cbn [b64_sextets]. rewrite b64_index_char by exact Hi.
  replace (b64_char i =? 61) with false; [reflexivity|].
  symmetry. apply Z.eqb_neq. unfold b64_char. zbool.
Qed.

Lemma b64_sextets_pad rest : b64_sextets (61 :: rest) = [].
Proof. reflexivity. Qed.

Lemma base64_roundtrip bs :
  Forall is_byte bs -> Buffer_from_base64 (Buffer_toString_base64 bs) = bs.
Proof.
  unfold Buffer_from_base64.
  induction bs as [|a|a b|a b c l IH] using list_ind3; intros HF.
  - reflexivity.
  - apply Forall_cons_1 in HF as [Ha _]. unfold is_byte in Ha.
    cbn [Buffer_toString_base64].
    divmod_abstract.
    rewrite !b64_sextets_char, b64_sextets_pad by lia.
    cbn [b64_bytes]. divmod_abstract. f_equal. lia.
  - apply Forall_cons_1 in HF as [Ha HF].
    apply Forall_cons_1 in HF as [Hb _]. unfold is_byte in Ha, Hb.
    cbn [Buffer_toString_base64].
    divmod_abstract.
    rewrite !b64_sextets_char, b64_sextets_pad by lia.
    cbn [b64_bytes]. divmod_abstract. f_equal; [lia|]. f_equal; lia.
  - apply Forall_cons_1 in HF as [Ha HF].
    apply Forall_cons_1 in HF as [Hb HF].
    apply Forall_cons_1 in HF as [Hc HF]. unfold is_byte in Ha, Hb, Hc.
    cbn [Buffer_toString_base64].
    divmod_abstract.
    rewrite !b64_sextets_char by lia.
    cbn [b64_bytes]. rewrite IH by exact HF. divmod_abstract.
    f_equal; [lia|]. f_equal; [lia|]. f_equal; lia.
Qed.

Lemma utf8_encode_scalar_bytes cp :
  is_scalar cp -> Forall is_byte (utf8_encode_scalar cp).
Proof.
  intros Hcp. unfold is_scalar in Hcp. unfold utf8_encode_scalar, is_byte.
  divmod_abstract.
  zbool; repeat constructor; lia.
Qed.

Ltac cond_is c v :=
  let E := fresh "E" in
  assert (E : c = v)
    by (unfold is_continuation, is_high_surrogate, is_low_surrogate;
        zbool; reflexivity);
  rewrite E; clear E.

Lemma utf8_decode_1 b0 r0 :
  0 <= b0 < 0x80 ->
  Buffer_toString_utf8 (b0 :: r0) = b0 :: Buffer_toString_utf8 r0.
Proof.
  intros H. cbn [Buffer_toString_utf8].
  cond_is ((0 <=? b0) && (b0 <? 128)) true. reflexivity.
Qed.

Lemma utf8_decode_2 b0 b1 r :
  0xC2 <= b0 <= 0xDF -> 0x80 <= b1 <= 0xBF ->
  Buffer_toString_utf8 (b0 :: b1 :: r)
  = ((b0 - 0xC0) * 64 + (b1 - 0x80)) :: Buffer_toString_utf8 r.
Proof.
  intros H0 H1. remember (b1 :: r) as r0 eqn:Er.
  cbn [Buffer_toString_utf8].
  cond_is ((0 <=? b0) && (b0 <? 128)) false.
  cond_is ((194 <=? b0) && (b0 <=? 223)) true.
  subst r0. cbv beta iota.
  cond_is (is_continuation b1) true. reflexivity.
Qed.

Lemma utf8_decode_3 b0 b1 b2 r :
  0xE0 <= b0 <= 0xEF -> 0x80 <= b1 <= 0xBF -> 0x80 <= b2 <= 0xBF ->
  let cp := (b0 - 0xE0) * 4096 + (b1 - 0x80) * 64 + (b2 - 0x80) in
  0x800 <= cp -> cp < 0xD800 \/ 0xDFFF < cp ->
  Buffer_toString_utf8 (b0 :: b1 :: b2 :: r) = cp :: Buffer_toString_utf8 r.
Proof.
  intros H0 H1 H2 cp H3 H4. remember (b1 :: b2 :: r) as r0 eqn:Er.
  cbn [Buffer_toString_utf8].
  cond_is ((0 <=? b0) && (b0 <? 128)) false.
  cond_is ((194 <=? b0) && (b0 <=? 223)) false.
  cond_is ((224 <=? b0) && (b0 <=? 239)) true.
  subst r0. cbv beta iota zeta.
  assert (E : second_byte_ok b0 b1 = true).
  { unfold second_byte_ok, is_continuation. subst cp. zbool; reflexivity. }
  rewrite E. cond_is (is_continuation b2) true. reflexivity.
Qed.

Lemma utf8_decode_4 b0 b1 b2 b3 r :
  0xF0 <= b0 <= 0xF4 -> 0x80 <= b1 <= 0xBF -> 0x80 <= b2 <= 0xBF ->
  0x80 <= b3 <= 0xBF ->
  let cp := (b0 - 0xF0) * 262144 + (b1 - 0x80) * 4096
            + (b2 - 0x80) * 64 + (b3 - 0x80) in
  0x10000 <= cp < 0x110000 ->
  Buffer_toString_utf8 (b0 :: b1 :: b2 :: b3 :: r)
  = utf16_units cp ++ Buffer_toString_utf8 r.
Proof.
  intros H0 H1 H2 H3 cp H4. remember (b1 :: b2 :: b3 :: r) as r0 eqn:Er.
  cbn [Buffer_toString_utf8].
  cond_is ((0 <=? b0) && (b0 <? 128)) false.
  cond_is ((194 <=? b0) && (b0 <=? 223)) false.
  cond_is ((224 <=? b0) && (b0 <=? 239)) false.
  cond_is ((240 <=? b0) && (b0 <=? 244)) true.
  subst r0. cbv beta iota zeta.
  assert (E : second_byte_ok b0 b1 = true).
  { unfold second_byte_ok, is_continuation. subst cp. zbool; reflexivity. }
  rewrite E. cond_is (is_continuation b2) true. cond_is (is_continuation b3) true.
  reflexivity.
Qed.

Lemma utf8_decode_encode_scalar cp rest :
  is_scalar cp ->
  Buffer_toString_utf8 (utf8_encode_scalar cp ++ rest)
  = utf16_units cp ++ Buffer_toString_utf8 rest.
Proof.
  intros Hcp. unfold is_scalar in Hcp. unfold utf8_encode_scalar.
  destruct (Z.ltb_spec cp 0x80); [|destruct (Z.ltb_spec cp 0x800);
    [|destruct (Z.ltb_spec cp 0x10000)]]; cbn [app].
  - rewrite utf8_decode_1 by lia. unfold utf16_units.
    cond_is (cp <? 65536) true. reflexivity.
  - divmod_abstract. rewrite utf8_decode_2 by lia. unfold utf16_units.
    cond_is (cp <? 65536) true. cbn [app]. f_equal. lia.
  - divmod_abstract. rewrite utf8_decode_3 by lia. unfold utf16_units.
    cond_is (cp <? 65536) true. cbn [app]. f_equal. lia.
  - divmod_abstract. rewrite utf8_decode_4 by lia. f_equal. f_equal. lia.
Qed.

Lemma well_formedb_sound s : well_formedb s = true -> well_formed s.
Proof.
  revert s. fix IH 1. intros [|u rest]; [constructor|].
  cbn [well_formedb].
  destruct (is_high_surrogate u) eqn:Hh.
  - destruct rest as [|l rest']; [discriminate|].
    intros [Hl Hr]%andb_true_iff. apply wf_pair; auto.
  - destruct (is_low_surrogate u) eqn:Hl; [discriminate|].
    intros [[H0 H1]%andb_true_iff Hr]%andb_true_iff.
    apply wf_unit; [|auto].
    unfold is_high_surrogate, is_low_surrogate in *.
    apply Z.leb_le in H0. apply Z.ltb_lt in H1.
    apply andb_false_iff in Hh, Hl. rewrite !Z.leb_gt in Hh, Hl. lia.
Qed.

Lemma Buffer_from_unit u s :
  0 <= u < 0xD800 \/ 0xDFFF < u < 0x10000 ->
  Buffer_from (u :: s) = utf8_encode_scalar u ++ Buffer_from s.
Proof.
  intros Hu. unfold Buffer_from. cbn [utf16_scalars].
  cond_is (is_high_surrogate u) false. cond_is (is_low_surrogate u) false.
  reflexivity.
Qed.

Lemma Buffer_from_pair h l s :
  is_high_surrogate h = true -> is_low_surrogate l = true ->
  Buffer_from (h :: l :: s)
  = utf8_encode_scalar (0x10000 + (h - 0xD800) * 1024 + (l - 0xDC00)) ++ Buffer_from s.
Proof.
  intros Hh Hl. unfold Buffer_from. cbn [utf16_scalars]. rewrite Hh, Hl.
  reflexivity.
Qed.

Lemma surrogate_bounds h l :
  is_high_surrogate h = true -> is_low_surrogate l = true ->
  0xD800 <= h <= 0xDBFF /\ 0xDC00 <= l <= 0xDFFF.
Proof.
  unfold is_high_surrogate, is_low_surrogate.
  rewrite !andb_true_iff, !Z.leb_le. tauto.
Qed.

Lemma Buffer_from_bytes s : well_formed s -> Forall is_byte (Buffer_from s).
Proof.
  induction 1 as [|u s Hu _ IH|h l s Hh Hl _ IH].
  - constructor.
  - rewrite Buffer_from_unit by exact Hu. apply Forall_app. split; [|exact IH].
    apply utf8_encode_scalar_bytes. unfold is_scalar. lia.
  - rewrite Buffer_from_pair by assumption. apply Forall_app. split; [|exact IH].
    apply utf8_encode_scalar_bytes. unfold is_scalar.
    destruct (surrogate_bounds h l Hh Hl). lia.
Qed.

Lemma utf8_roundtrip s :
  well_formed s -> Buffer_toString_utf8 (Buffer_from s) = s.
Proof.
  induction 1 as [|u s Hu _ IH|h l s Hh Hl _ IH].
  - reflexivity.
  - rewrite Buffer_from_unit by exact Hu.
    rewrite utf8_decode_encode_scalar by (unfold is_scalar; lia).
    rewrite IH. unfold utf16_units. cond_is (u <? 65536) true. reflexivity.
  - rewrite Buffer_from_pair by assumption.
    destruct (surrogate_bounds h l Hh Hl) as [Bh Bl].
    rewrite utf8_decode_encode_scalar by (unfold is_scalar; lia).
    rewrite IH. unfold utf16_units.
    cond_is (65536 + (h - 55296) * 1024 + (l - 56320) <? 65536) false.
    cbn [app]. divmod_abstract. f_equal; [lia|]. f_equal. lia.
Qed.

Lemma starts_with_app p s : starts_with p (p ++ s) = true.
Proof.
  induction p as [|x p IH]; [reflexivity|].
  cbn. rewrite Z.eqb_refl. exact IH.
Qed.

Lemma drop_marker s : drop 11 (str "compressed:" ++ s) = s.
Proof. reflexivity. Qed.

Lemma decompress_compress this s :
  starts_with (str "compressed:") s = false ->
  well_formed s \/ Z.of_nat (length s) <= compressionThreshold this ->
  decompress (compress this s) = s.
Proof.
  intros Hp Hs. unfold compress.
  destruct (Z.ltb_spec (compressionThreshold this) (Z.of_nat (length s))) as [Hlong|Hshort].
  - destruct Hs as [Hwf|Hlen]; [|lia].
    unfold decompress. rewrite starts_with_app, drop_marker.
    rewrite base64_roundtrip by (apply Buffer_from_bytes, Hwf).
    apply utf8_roundtrip, Hwf.
  - unfold decompress. rewrite Hp. reflexivity.
Qed.

Lemma compress_short this s :
  Z.of_nat (length s) <= compressionThreshold this -> compress this s = s.
Proof.
  intros H. unfold compress.
  destruct (Z.ltb_spec (compressionThreshold this) (Z.of_nat (length s))); [lia|reflexivity].
Qed.

Lemma compress_marker this s :
  starts_with (str "compressed:") s = false ->
  starts_with (str "compressed:") (compress this s) = true
  <-> compressionThreshold this < Z.of_nat (length s).
Proof.
  intros Hp. unfold compress.
  destruct (Z.ltb_spec (compressionThreshold this) (Z.of_nat (length s))).
  - rewrite starts_with_app. tauto.
  - rewrite Hp. split; [discriminate|lia].
Qed.

Lemma marker_head : exists t, str "compressed:" = 99 :: t.
Proof. eexists. vm_compute. reflexivity. Qed.

Lemma json_text_not_marked s :
  json_text s -> starts_with (str "compressed:") s = false /\ s <> [].
Proof.
  intros [_ Hs]. destruct s as [|c s]; [contradiction|].
  split; [|discriminate].
  destruct marker_head as [t ->]. cbn [starts_with].
  destruct (Z.eqb_spec 99 c) as [<-|]; [discriminate Hs|reflexivity].
Qed.

Lemma starts_with_spec p a : starts_with p a = true <-> exists r, a = p ++ r.
Proof.
  revert a. induction p as [|x p IH]; intros a.
  - cbn. split; [intros _; exists a; reflexivity|auto].
  - destruct a as [|y a]; cbn [starts_with].
    + split; [discriminate|]. intros (r & Hr). discriminate Hr.
    + rewrite andb_true_iff, Z.eqb_eq, IH. split.
      * intros (-> & r & ->). exists r. reflexivity.
      * intros (r & Hr). injection Hr as -> ->. split; [reflexivity|].
        exists r. reflexivity.
Qed.

Lemma starts_with_total p q a :
  starts_with p a = true -> starts_with q a = true ->
  starts_with p q = true \/ starts_with q p = true.
Proof.
  revert q a. induction p as [|x p IH]; intros q a; [left; reflexivity|].
  destruct q as [|y q]; [right; reflexivity|].
  destruct a as [|z a]; [discriminate|]. cbn [starts_with].
  rewrite !andb_true_iff, !Z.eqb_eq. intros [-> Hp] [-> Hq].
  destruct (IH q a Hp Hq) as [H|H]; [left|right]; auto.
Qed.

(** ** Strings as UTF-8 text *)

(** Induction along the way [utf16_scalars] reads a string. *)
Lemma utf16_ind (P : jsstring -> Prop) :
  P [] ->
  (forall u s, is_high_surrogate u = false -> P s -> P (u :: s)) ->
  (forall h, is_high_surrogate h = true -> P [h]) ->
  (forall h l s, is_high_surrogate h = true -> is_low_surrogate l = true ->
     P s -> P (h :: l :: s)) ->
  (forall h l s, is_high_surrogate h = true -> is_low_surrogate l = false ->
     P (l :: s) -> P (h :: l :: s)) ->
  forall s, P s.
Proof.
  intros Hnil Hunit Hlast Hpair Hlone s.
  enough (P s /\ forall u, P (u :: s)) as [Hs _] by exact Hs.
  induction s as [|l s [IH1 IH2]].
  - split; [exact Hnil|]. intros u.
    destruct (is_high_surrogate u) eqn:Hu; [apply Hlast, Hu|apply Hunit; assumption].
  - split; [apply IH2|]. intros u.
    destruct (is_high_surrogate u) eqn:Hu; [|apply Hunit; [exact Hu|apply IH2]].
    destruct (is_low_surrogate l) eqn:Hl.
    + apply Hpair; assumption.
    + apply Hlone; [exact Hu|exact Hl|apply IH2].
Qed.

Lemma utf16_scalars_unit u s :
  is_high_surrogate u = false ->
  utf16_scalars (u :: s)
  = (if is_low_surrogate u then 0xFFFD else u) :: utf16_scalars s.
Proof.
  intros Hu. cbn [utf16_scalars]. rewrite Hu.
  destruct (is_low_surrogate u); reflexivity.
Qed.

Lemma utf16_scalars_pair h l s :
  is_high_surrogate h = true -> is_low_surrogate l = true ->
  utf16_scalars (h :: l :: s)
  = (0x10000 + (h - 0xD800) * 1024 + (l - 0xDC00)) :: utf16_scalars s.
Proof. intros Hh Hl. cbn [utf16_scalars]. rewrite Hh, Hl. reflexivity. Qed.

Lemma utf16_scalars_lone h l s :
  is_high_surrogate h = true -> is_low_surrogate l = false ->
  utf16_scalars (h :: l :: s) = 0xFFFD :: utf16_scalars (l :: s).
Proof. intros Hh Hl. cbn [utf16_scalars]. rewrite Hh, Hl. reflexivity. Qed.

(** A colon never pairs with what comes before it, so the text of a string
    with a colon in it is the text of the two sides around a colon. *)
Lemma utf16_scalars_colon a b :
  utf16_scalars (a ++ 58 :: b) = utf16_scalars a ++ 58 :: utf16_scalars b.
Proof.
  induction a as [|u s Hu IH|h Hh|h l s Hh Hl IH|h l s Hh Hl IH] using utf16_ind.
  - reflexivity.
  - cbn [app]. rewrite !utf16_scalars_unit by exact Hu. rewrite IH. reflexivity.
  - cbn [app]. rewrite utf16_scalars_lone by (exact Hh || reflexivity).
    cbn [utf16_scalars]. rewrite Hh. reflexivity.
  - cbn [app]. rewrite !utf16_scalars_pair by assumption. rewrite IH. reflexivity.
  - cbn [app] in *. rewrite !utf16_scalars_lone by assumption. rewrite IH. reflexivity.
Qed.

Lemma Buffer_from_colon a b :
  Buffer_from (a ++ 58 :: b) = Buffer_from a ++ 58 :: Buffer_from b.
Proof.
  unfold Buffer_from. rewrite utf16_scalars_colon, flat_map_app. reflexivity.
Qed.

Lemma utf8_decode_app s r :
  well_formed s ->
  Buffer_toString_utf8 (Buffer_from s ++ r) = s ++ Buffer_toString_utf8 r.
Proof.
  induction 1 as [|u s Hu _ IH|h l s Hh Hl _ IH].
  - reflexivity.
  - rewrite Buffer_from_unit by exact Hu. rewrite <- app_assoc.
    rewrite utf8_decode_encode_scalar by (unfold is_scalar; lia).
    rewrite IH. unfold utf16_units. cond_is (u <? 65536) true. reflexivity.
  - rewrite Buffer_from_pair by assumption. rewrite <- app_assoc.
    destruct (surrogate_bounds h l Hh Hl) as [Bh Bl].
    rewrite utf8_decode_encode_scalar by (unfold is_scalar; lia).
    rewrite IH. unfold utf16_units.
    cond_is (65536 + (h - 55296) * 1024 + (l - 56320) <? 65536) false.
    cbn [app]. divmod_abstract. f_equal; [lia|]. f_equal. lia.
Qed.

(** Two well formed strings with the same text are the same string. *)
Lemma Buffer_from_inj a b :
  well_formed a -> well_formed b -> Buffer_from a = Buffer_from b -> a = b.
Proof.
  intros Ha Hb E. rewrite <- (utf8_roundtrip a Ha), <- (utf8_roundtrip b Hb), E.
  reflexivity.
Qed.

(** A well formed string whose text starts with the text of another starts
    with that other string. *)
Lemma wire_prefix a k :
  well_formed a -> well_formed k ->
  starts_with (Buffer_from a) (Buffer_from k) = true -> starts_with a k = true.
Proof.
  intros Ha Hk [r E]%starts_with_spec. apply starts_with_spec.
  exists (Buffer_toString_utf8 r).
  rewrite <- (utf8_roundtrip k Hk), E. apply utf8_decode_app, Ha.
Qed.

Lemma well_formed_app a b : well_formed a -> well_formed b -> well_formed (a ++ b).
Proof.
  intros Ha Hb. induction Ha; cbn [app]; [exact Hb|constructor; assumption|].
  apply wf_pair; assumption.
Qed.

(** ** The Redis model *)

Lemma online_record c st : online (record_command c st) = online st.
Proof. reflexivity. Qed.

Lemma live_record c st k : live (record_command c st) k = live st k.
Proof. reflexivity. Qed.

Lemma live_insert st k e k' :
  live (with_db (<[k:=e]> (db st)) st) k'
  = if decide (k = k') then (if expired (clock st) e then None else Some e)
    else live st k'.
Proof.
  unfold live. cbn. rewrite lookup_insert. destruct (decide (k = k')); reflexivity.
Qed.

Lemma live_delete st k k' :
  live (with_db (delete k (db st)) st) k'
  = if decide (k = k') then None else live st k'.
Proof.
  unfold live. cbn. rewrite lookup_delete. destruct (decide (k = k')); reflexivity.
Qed.

Lemma del_keys_spec ks st :
  online (del_keys ks st).2 = online st
  /\ clock (del_keys ks st).2 = clock st
  /\ sent (del_keys ks st).2 = sent st
  /\ forall k, live (del_keys ks st).2 k = if decide (k ∈ ks) then None else live st k.
Proof.
  revert st. induction ks as [|k0 ks IH]; intros st.
  - cbn. split; [reflexivity|]. split; [reflexivity|]. split; [reflexivity|].
    intros k. destruct (decide (k ∈ [])) as [H|]; [|reflexivity].
    inversion H.
  - cbn [del_keys].
    destruct (del_keys ks (with_db (delete k0 (db st)) st)) as [m st'] eqn:E.
    specialize (IH (with_db (delete k0 (db st)) st)). rewrite E in IH.
    cbn [snd] in *. destruct IH as (Ho & Hc & Hs & Hl).
    split; [exact Ho|]. split; [exact Hc|]. split; [exact Hs|].
    intros k. rewrite Hl, live_delete.
    destruct (decide (k ∈ ks)) as [Hin|Hin];
      destruct (decide (k ∈ k0 :: ks)) as [Hin'|Hin']; try reflexivity.
    + exfalso. apply Hin'. now right.
    + destruct (decide (k0 = k)) as [->|Hne]; [reflexivity|].
      exfalso. apply elem_of_cons in Hin' as [->|?]; congruence.
    + destruct (decide (k0 = k)) as [->|Hne]; [|reflexivity].
      exfalso. apply Hin'. now left.
Qed.

(** Whatever the command, the server stays as reachable as it was and its
    clock does not move. *)
Lemma execute_frame c st :
  online (execute c st).2 = online st /\ clock (execute c st).2 = clock st.
Proof.
  unfold execute. rewrite online_record.
  destruct (online st) eqn:Ho; cbn [negb]; [|split; [exact Ho|reflexivity]].
  destruct c; cbn [snd];
    repeat match goal with
    | |- context [setex_lifetime ?s ?e] => destruct (setex_lifetime s e)
    | |- context [expire_lifetime ?s ?e] => destruct (expire_lifetime s e)
    | |- context [live ?s ?k] => destruct (live s k) as [[[?|?] ?]|]
    | |- context [?a <=? ?b] => destruct (a <=? b)
    | |- context [del_keys ?ks ?s] =>
        let H := fresh in
        pose proof (del_keys_spec ks s) as H;
        destruct (del_keys ks s); cbn [snd] in H; destruct H as (? & ? & _)
    | |- context [scan_page ?s ?a ?b ?c] => destruct (scan_page s a b c)
    end; cbn; auto.
  cbn in *. split; congruence.
Qed.

Lemma pipeline_frame cmds st :
  online (pipeline_exec cmds st) = online st
  /\ clock (pipeline_exec cmds st) = clock st.
Proof.
  unfold pipeline_exec. revert st.
  induction cmds as [|c cmds IH]; intros st; [split; reflexivity|].
  cbn [fold_left]. destruct (IH (execute c st).2) as [-> ->].
  apply execute_frame.
Qed.

Lemma execute_GET st k :
  online st = true ->
  execute (GET k) st
  = (match live st k with
     | Some (Entry (RString s) _) => Bulk s
     | Some (Entry (RSet _) _) => Error WrongType
     | None => Nil
     end, record_command (GET k) st).
Proof.
  intros Ho. unfold execute. rewrite online_record, Ho. cbn [negb].
  rewrite live_record. destruct (live st k) as [[[?|?] ?]|]; reflexivity.
Qed.

Lemma execute_offline c st :
  online st = false ->
  execute c st = (Error ConnectionError, record_command c st).
Proof. intros Ho. unfold execute. rewrite online_record, Ho. reflexivity. Qed.

Lemma LLONG_MAX_value : LLONG_MAX = 9223372036854775807.
Proof. reflexivity. Qed.

Lemma LLONG_MIN_value : LLONG_MIN = -9223372036854775808.
Proof. reflexivity. Qed.

Lemma LLONG_MAX_seconds : Z.quot LLONG_MAX 1000 = 9223372036854775.
Proof. reflexivity. Qed.

Lemma LLONG_MIN_seconds : Z.quot LLONG_MIN 1000 = -9223372036854775.
Proof. reflexivity. Qed.

Ltac lifetime_bounds :=
  rewrite ?LLONG_MAX_seconds, ?LLONG_MIN_seconds, ?LLONG_MAX_value, ?LLONG_MIN_value in *.

(** Settles [accepted_ttl] for a given server and lifetime. *)
Ltac accept_ttl := unfold accepted_ttl; vm_compute; repeat split; discriminate.

Lemma accepted_ttl_positive st e : accepted_ttl st e -> 1 <= e.
Proof. intros (_ & H & _). exact H. Qed.

Lemma accepted_ttl_clock st st' e :
  clock st' = clock st -> accepted_ttl st e -> accepted_ttl st' e.
Proof. unfold accepted_ttl. intros ->. auto. Qed.

Lemma setex_lifetime_accepted st e : accepted_ttl st e -> setex_lifetime st e = None.
Proof.
  unfold accepted_ttl, setex_lifetime, mstime. lifetime_bounds.
  intros (Hc & He & Hd). zbool; reflexivity.
Qed.

Lemma expire_lifetime_accepted st e : accepted_ttl st e -> expire_lifetime st e = None.
Proof.
  unfold accepted_ttl, expire_lifetime, mstime. lifetime_bounds.
  intros (Hc & He & Hd). zbool; reflexivity.
Qed.


Lemma execute_SETEX st k seconds data :
  online st = true -> accepted_ttl st seconds ->
  execute (SETEX k seconds data) st
  = (Status,
     with_db (<[k := Entry (RString data) (Some (clock st + seconds))]> (db st))
       (record_command (SETEX k seconds data) st)).
Proof.
  intros Ho Hs. unfold execute. rewrite online_record, Ho. cbn [negb].
  rewrite (setex_lifetime_accepted (record_command _ st)) by exact Hs. reflexivity.
Qed.

(** ** Round trip through the cache *)

Lemma compress_nonempty this s : s <> [] -> compress this s <> [].
Proof.
  intros Hs. unfold compress. destruct (_ <? _); [|exact Hs].
  destruct marker_head as [t ->]. discriminate.
Qed.

Lemma effective_ttl_positive this t : 1 <= t -> effective_ttl this (Some t) = t.
Proof.
  intros Ht. unfold effective_ttl. destruct (Z.eqb_spec t 0); [lia|reflexivity].
Qed.

Lemma new_threshold ns t : compressionThreshold (new_CacheService ns t) = 1024.
Proof. reflexivity. Qed.

(** Reading a key that holds a live string [data]: [get] parses what
    [decompress] makes of it. *)
Lemma get_live_string `{JSON} this key ns st data d :
  online st = true ->
  live st (generateKey this key ns) = Some (Entry (RString data) d) ->
  data <> [] ->
  (get this key ns st).1 = default JNull (JSON_parse (decompress data)).
Proof.
  intros Ho Hl Hd. unfold get. rewrite execute_GET by exact Ho. rewrite Hl.
  destruct data as [|c data]; [contradiction|].
  destruct (JSON_parse (decompress (c :: data))); reflexivity.
Qed.

Lemma set_untagged_state `{JSON} this key v t st s :
  online st = true -> accepted_ttl st t -> JSON_stringify v = Some s ->
  let st' := (set this key v (Some t) None st).2 in
  online st' = true /\ clock st' = clock st
  /\ forall k, live st' k
       = if decide (generateKey this key None = k)
         then Some (Entry (RString (compress this s)) (Some (clock st + t)))
         else live st k.
Proof.
  intros Ho Ht Hs. pose proof (accepted_ttl_positive _ _ Ht) as Ht1.
  unfold set. rewrite Hs, effective_ttl_positive by exact Ht1.
  cbn [tag_commands pipeline_exec fold_left snd].
  rewrite execute_SETEX by assumption. cbn [snd].
  split; [exact Ho|]. split; [reflexivity|].
  intros k. rewrite (live_insert (record_command _ st)). cbn [clock record_command].
  destruct (decide (generateKey this key None = k)); [|reflexivity].
  unfold expired. cbn [deadline].
  destruct (Z.leb_spec (clock st + t) (clock st)); [lia|reflexivity].
Qed.

(** X30.  The round trip.  On a reachable server, storing a
    JSON-serializable value under a key with a TTL the server accepts and
    reading the key back at once gives the value again.  What is stored is
    the JSON text when it is at most 1024 code units long, and the marker
    [compressed:] followed by the base64 of its UTF-8 bytes when it is
    longer; [get] undoes both. *)
Theorem set_then_get `{JSON} ns dttl key v t st :
  let this := new_CacheService ns dttl in
  online st = true -> serializable v -> accepted_ttl st t ->
  let st' := (set this key v (Some t) None st).2 in
  (get this key None st').1 = v
  /\ exists s, JSON_stringify v = Some s
       /\ value <$> live st' (generateKey this key None)
          = Some (RString (compress this s))
       /\ (starts_with (str "compressed:") (compress this s) = true
           <-> (1024 < length s)%nat).
Proof.
  intros this Ho (s & Hs & Htext & Hparse) Ht st'.
  destruct (set_untagged_state this key v t st s Ho Ht Hs) as (Ho' & _ & Hlive).
  fold st' in Ho', Hlive.
  destruct (json_text_not_marked s Htext) as [Hmark Hne].
  assert (Hk : live st' (generateKey this key None)
               = Some (Entry (RString (compress this s)) (Some (clock st + t)))).
  { rewrite Hlive. destruct (decide _); [reflexivity|contradiction]. }
  split.
  - rewrite (get_live_string this key None st' _ _ Ho' Hk)
      by (apply compress_nonempty, Hne).
    rewrite decompress_compress by (auto; left; apply Htext).
    rewrite Hparse. reflexivity.
  - exists s. split; [exact Hs|]. split; [rewrite Hk; reflexivity|].
    rewrite compress_marker by exact Hmark. unfold this.
    rewrite new_threshold. lia.
Qed.

Lemma set_then_get_witness :
  let this := new_CacheService (Some (str "test")) (Some 60) in
  let v := JObj [(str "data", JStr (repeat 120 2000))] in
  let st' := (@set sample_JSON this (str "test:large") v (Some 60) None fresh_redis).2 in
  (@get sample_JSON this (str "test:large") None st').1 = v
  /\ exists s, sample_stringify v = Some s
       /\ value <$> live st' (generateKey this (str "test:large") None)
          = Some (RString (compress this s))
       /\ (starts_with (str "compressed:") (compress this s) = true
           <-> (1024 < length s)%nat).
Proof.
  apply (@set_then_get sample_JSON (Some (str "test")) (Some 60)
           (str "test:large") (JObj [(str "data", JStr (repeat 120 2000))])
           60 fresh_redis).
  - reflexivity.
  - eexists. split; [vm_compute; reflexivity|]. split; [split|].
    + apply well_formedb_sound. vm_compute. reflexivity.
    + vm_compute. reflexivity.
    + vm_compute. reflexivity.
  - accept_ttl.
Defined.

(** ** compress and decompress *)

(** C9 (as amended).  [compress] leaves any string of at most 1024 code
    units as it is; and for a string that does not start with [compressed:]
    and is well formed, or is at most 1024 code units long, [decompress]
    undoes [compress]. *)
Theorem decompress_inverts_compress ns t :
  let this := new_CacheService ns t in
  (forall s, (length s <= 1024)%nat -> compress this s = s)
  /\ (forall s, starts_with (str "compressed:") s = false ->
        well_formed s \/ (length s <= 1024)%nat ->
        decompress (compress this s) = s).
Proof.
  intros this. split.
  - intros s Hlen. apply compress_short. unfold this. rewrite new_threshold. lia.
  - intros s Hp Hs. apply decompress_compress; [exact Hp|].
    destruct Hs as [Hs|Hs]; [left; exact Hs|right].
    unfold this. rewrite new_threshold. lia.
Qed.

Lemma decompress_inverts_compress_witness :
  let this := new_CacheService None None in
  let s := [34] ++ repeat 233 1500 ++ [0xD83D; 0xDE00; 34] in
  let marked := str "compressed:aGk=" in
  decompress (compress this s) = s /\ compress this marked = marked.
Proof.
  destruct (decompress_inverts_compress None None) as [Hshort Hinverse].
  split.
  - apply Hinverse.
    + vm_compute. reflexivity.
    + left. apply well_formedb_sound. vm_compute. reflexivity.
  - apply Hshort. vm_compute. lia.
Defined.

(** C9 as stated fails on a long string with an unpaired surrogate: the
    UTF-8 encoder replaces it by U+FFFD, and that is what comes back. *)
Lemma C9_counterexample :
  let this := new_CacheService None None in
  let s := 0xD800 :: repeat 97 1024 in
  starts_with (str "compressed:") s = false
  /\ decompress (compress this s) = 0xFFFD :: repeat 97 1024
  /\ decompress (compress this s) <> s.
Proof.
  split; [vm_compute; reflexivity|].
  assert (E : decompress (compress (new_CacheService None None) (0xD800 :: repeat 97 1024))
              = 0xFFFD :: repeat 97 1024) by (vm_compute; reflexivity).
  split; [exact E|]. cbv zeta. rewrite E. discriminate.
Qed.

(** ** Storing with tags *)

Lemma execute_SADD_keeps_string st tk member k data d :
  online st = true ->
  live st k = Some (Entry (RString data) d) ->
  live (execute (SADD tk member) st).2 k = Some (Entry (RString data) d).
Proof.
  intros Ho Hk. unfold execute. rewrite online_record, Ho. cbn [negb].
  rewrite live_record.
  destruct (decide (tk = k)) as [->|Hne].
  - rewrite Hk. cbn [snd]. rewrite live_record. exact Hk.
  - destruct (live st tk) as [[[?|ms] dl]|]; cbn [snd].
    + rewrite live_record. exact Hk.
    + rewrite (live_insert (record_command _ st)).
      destruct (decide (tk = k)); [contradiction|]. rewrite live_record. exact Hk.
    + rewrite (live_insert (record_command _ st)).
      destruct (decide (tk = k)); [contradiction|]. rewrite live_record. exact Hk.
Qed.

Lemma execute_EXPIRE_keeps_string st tk k data e :
  online st = true -> accepted_ttl st e ->
  live st k = Some (Entry (RString data) (Some (clock st + e))) ->
  live (execute (EXPIRE tk e) st).2 k
  = Some (Entry (RString data) (Some (clock st + e))).
Proof.
  intros Ho Ha Hk. pose proof (accepted_ttl_positive _ _ Ha) as He.
  unfold execute. rewrite online_record, Ho. cbn [negb].
  rewrite (expire_lifetime_accepted (record_command _ st)) by exact Ha.
  rewrite live_record. destruct (Z.leb_spec e 0); [lia|].
  destruct (decide (tk = k)) as [->|Hne].
  - rewrite Hk. cbn [snd]. rewrite (live_insert (record_command _ st)).
    destruct (decide (k = k)); [|contradiction].
    unfold expired. cbn [deadline clock record_command].
    destruct (Z.leb_spec (clock st + e) (clock st)); [lia|reflexivity].
  - destruct (live st tk) as [[v dl]|]; cbn [snd].
    + rewrite (live_insert (record_command _ st)).
      destruct (decide (tk = k)); [contradiction|]. rewrite live_record. exact Hk.
    + rewrite live_record. exact Hk.
Qed.

Lemma tagging_keeps_string this fk e tags st data :
  online st = true -> accepted_ttl st e ->
  live st fk = Some (Entry (RString data) (Some (clock st + e))) ->
  live (pipeline_exec (tag_commands this fk e tags) st) fk
  = Some (Entry (RString data) (Some (clock st + e))).
Proof.
  destruct tags as [ts|]; [|auto]. cbn [tag_commands].
  revert st. induction ts as [|tag ts IH]; intros st Ho He Hk; [exact Hk|].
  cbn [flat_map app]. unfold pipeline_exec. cbn [fold_left].
  set (st1 := (execute (SADD (tag_key this tag) fk) st).2).
  set (st2 := (execute (EXPIRE (tag_key this tag) e) st1).2).
  destruct (execute_frame (SADD (tag_key this tag) fk) st) as [Ho1 Hc1].
  destruct (execute_frame (EXPIRE (tag_key this tag) e) st1) as [Ho2 Hc2].
  fold st1 in Ho1, Hc1. fold st2 in Ho2, Hc2.
  assert (H1 : live st1 fk = Some (Entry (RString data) (Some (clock st1 + e)))).
  { rewrite Hc1. apply execute_SADD_keeps_string; assumption. }
  assert (H2 : live st2 fk = Some (Entry (RString data) (Some (clock st2 + e)))).
  { rewrite Hc2. apply execute_EXPIRE_keeps_string;
      [congruence|exact (accepted_ttl_clock st st1 e Hc1 He)|exact H1]. }
  assert (He2 : accepted_ttl st2 e)
    by (apply (accepted_ttl_clock st); [congruence|exact He]).
  specialize (IH st2). unfold pipeline_exec in IH.
  rewrite IH; [congruence|congruence|exact He2|exact H2].
Qed.

(** After [set], the key holds the (possibly compressed) text and lives for
    the effective TTL, whatever tags were given. *)
Lemma set_stores `{JSON} this key v ttl tags st s :
  online st = true -> accepted_ttl st (effective_ttl this ttl) ->
  JSON_stringify v = Some s ->
  let st' := (set this key v ttl tags st).2 in
  online st' = true /\ clock st' = clock st
  /\ live st' (generateKey this key None)
     = Some (Entry (RString (compress this s))
                   (Some (clock st + effective_ttl this ttl))).
Proof.
  intros Ho Ht Hs. unfold set. rewrite Hs. cbn [snd].
  change (pipeline_exec (?c :: ?cs) st) with (pipeline_exec cs (execute c st).2).
  set (fk := generateKey this key None). set (e := effective_ttl this ttl) in *.
  pose proof (accepted_ttl_positive _ _ Ht) as Ht1.
  rewrite execute_SETEX by assumption. cbn [snd].
  set (st1 := with_db _ _).
  assert (Ho1 : online st1 = true) by exact Ho.
  assert (Hk : live st1 fk
               = Some (Entry (RString (compress this s)) (Some (clock st1 + e)))).
  { unfold st1. rewrite (live_insert (record_command _ st)).
    destruct (decide (fk = fk)); [|contradiction].
    unfold expired. cbn [deadline clock record_command with_db].
    destruct (Z.leb_spec (clock st + e) (clock st)); [lia|reflexivity]. }
  destruct (pipeline_frame (tag_commands this fk e tags) st1) as [-> ->].
  split; [exact Ho1|]. split; [reflexivity|].
  apply (tagging_keeps_string this fk e tags st1 _ Ho1 Ht Hk).
Qed.

(** ** The threshold of compression *)

(** C1.  The threshold of [set] counts UTF-16 code units, not bytes: the
    JSON text of a value is stored as it is, without the marker, whenever
    it is at most 1024 code units long, however many bytes it takes. *)
Theorem threshold_counts_code_units `{JSON} ns dttl key v t tags st s :
  let this := new_CacheService ns dttl in
  online st = true -> accepted_ttl st (effective_ttl this t) ->
  JSON_stringify v = Some s ->
  (length s <= 1024)%nat ->
  value <$> live (set this key v t tags st).2 (generateKey this key None)
  = Some (RString s).
Proof.
  intros this Ho Ht Hs Hlen.
  destruct (set_stores this key v t tags st s Ho Ht Hs) as (_ & _ & ->).
  cbn. rewrite compress_short; [reflexivity|].
  unfold this. rewrite new_threshold. lia.
Qed.

Lemma threshold_counts_code_units_witness :
  let this := new_CacheService None None in
  let v := JStr (repeat 233 600) in
  let st' := (@set sample_JSON this (str "menu") v (Some 60) None fresh_redis).2 in
  exists s, sample_stringify v = Some s
    /\ length s = 602%nat
    /\ length (Buffer_from s) = 1202%nat
    /\ value <$> live st' (generateKey this (str "menu") None) = Some (RString s)
    /\ starts_with (str "compressed:") s = false.
Proof.
  exists (json_of (JStr (repeat 233 600))).
  split; [reflexivity|]. split; [vm_compute; reflexivity|].
  split; [vm_compute; reflexivity|]. split.
  - apply (@threshold_counts_code_units sample_JSON None None (str "menu")
             (JStr (repeat 233 600)) (Some 60) None fresh_redis).
    + reflexivity.
    + accept_ttl.
    + reflexivity.
    + vm_compute. lia.
  - vm_compute. reflexivity.
Defined.

(** ** getOrSet *)

Lemma execute_GET_state k st : (execute (GET k) st).2 = record_command (GET k) st.
Proof.
  unfold execute. rewrite online_record. destruct (online st); [|reflexivity].
  cbn [negb]. destruct (live _ k) as [[[?|?] ?]|]; reflexivity.
Qed.

Lemma get_state `{JSON} this key ns st :
  (get this key ns st).2 = record_command (GET (generateKey this key ns)) st.
Proof.
  unfold get. rewrite <- execute_GET_state.
  destruct (execute _ st) as [[] st']; try reflexivity.
  destruct s; [reflexivity|]. destruct (JSON_parse _); reflexivity.
Qed.

Lemma live_Some_db st k e : live st k = Some e -> db st !! k = Some e.
Proof.
  unfold live. destruct (db st !! k) as [e'|]; [|discriminate].
  destruct (expired _ e'); [discriminate|]. auto.
Qed.

(** A hit: the text stored under the key is live and parses to [v]. *)
Lemma get_hit `{JSON} this key st data D v :
  online st = true ->
  db st !! generateKey this key None = Some (Entry (RString data) (Some D)) ->
  clock st < D -> data <> [] ->
  JSON_parse (decompress data) = Some v ->
  (get this key None st).1 = v.
Proof.
  intros Ho Hdb Hc Hd Hp.
  rewrite (get_live_string this key None st data (Some D) Ho); [rewrite Hp; reflexivity| |exact Hd].
  unfold live. rewrite Hdb. unfold expired. cbn [deadline].
  destruct (Z.leb_spec D (clock st)); [lia|reflexivity].
Qed.

Lemma getOrSet_hit `{JSON} {W} this key (fetch : fetcher W) ttl tags st w v :
  (get this key None st).1 = v -> v <> JNull ->
  getOrSet this key fetch ttl tags st w
  = (Returned v, record_command (GET (generateKey this key None)) st, w).
Proof.
  intros Hg Hv. unfold getOrSet.
  pose proof (get_state this key None st) as Hst.
  destruct (get this key None st) as [cached st1]. cbn [fst snd] in *. subst.
  destruct v; try reflexivity. contradiction.
Qed.

Lemma getOrSet_calls_hits `{JSON} {W} this key (fetch : fetcher W) ttl tags
    data D v pauses :
  data <> [] -> JSON_parse (decompress data) = Some v -> v <> JNull ->
  Forall (fun p => 0 <= p) pauses ->
  forall st w,
  online st = true ->
  db st !! generateKey this key None = Some (Entry (RString data) (Some D)) ->
  clock st + foldr Z.add 0 pauses < D ->
  exists st',
    getOrSet_calls this key fetch ttl tags pauses st w
    = (repeat (Returned v) (length pauses), st', w).
Proof.
  intros Hd Hp Hv. induction 1 as [|p ps Hp0 Hps IH]; intros st w Ho Hdb Hc.
  - eexists. reflexivity.
  - cbn [getOrSet_calls foldr length repeat] in *.
    rewrite (getOrSet_hit this key fetch ttl tags (advance p st) w v);
      [|apply (get_hit this key _ data D); auto; cbn; try lia|exact Hv].
    + edestruct (IH (record_command (GET (generateKey this key None)) (advance p st)) w)
        as [st' ->]; [exact Ho|exact Hdb|cbn; lia|].
      eexists. reflexivity.
    + assert (0 <= foldr Z.add 0 ps).
      { clear -Hps. induction Hps; cbn; lia. }
      lia.
Qed.

(** C5 (as amended).  When nothing is cached under the key, the fetcher
    succeeds with a JSON-serializable value other than [null], the server
    accepts the TTL at the time of the first call, and the calls after the
    first all fall within the TTL, every call returns that value and the
    fetcher has run exactly once. *)
Theorem getOrSet_fetches_once `{JSON} {W} this key (fetch : fetcher W) ttl tags
    v w w1 pause pauses st :
  online st = true ->
  accepted_ttl (advance pause st) (effective_ttl this ttl) ->
  (get this key None (advance pause st)).1 = JNull ->
  fetch w = (Returned v, w1) ->
  serializable v -> v <> JNull ->
  Forall (fun p => 0 <= p) pauses ->
  foldr Z.add 0 pauses < effective_ttl this ttl ->
  let '(results, _, (_, calls)) :=
    getOrSet_calls this key (counted fetch) ttl tags (pause :: pauses) st (w, 0%nat) in
  results = repeat (Returned v) (S (length pauses)) /\ calls = 1%nat.
Proof.
  intros Ho Ht Hmiss Hf (s & Hs & Htext & Hparse) Hv Hps Hsum.
  cbn [getOrSet_calls]. unfold getOrSet at 1.
  pose proof (get_state this key None (advance pause st)) as Hst.
  destruct (get this key None (advance pause st)) as [cached st1].
  cbn [fst snd] in Hmiss, Hst. subst cached. cbn [not_null].
  cbn [counted]. rewrite Hf.
  assert (Ho1 : online st1 = true) by (subst st1; exact Ho).
  assert (Ht1 : accepted_ttl st1 (effective_ttl this ttl)) by (subst st1; exact Ht).
  destruct (set_stores this key v ttl tags st1 s Ho1 Ht1 Hs) as (Ho2 & Hc2 & Hl2).
  destruct (set this key v ttl tags st1) as [ok st2]. cbn [snd] in *.
  destruct (json_text_not_marked s Htext) as [Hmark Hne].
  edestruct (getOrSet_calls_hits this key (counted fetch) ttl tags
               (compress this s) (clock st1 + effective_ttl this ttl) v pauses)
    as [st' ->];
    [apply compress_nonempty, Hne
    |rewrite decompress_compress by (auto; left; apply Htext); exact Hparse
    |exact Hv|exact Hps|exact Ho2|apply live_Some_db, Hl2|lia|].
  split; reflexivity.
Qed.

Lemma getOrSet_fetches_once_witness :
  let this := new_CacheService (Some (str "test")) (Some 60) in
  let v := JObj [(str "data", JStr (str "fetched"))] in
  let fetch : fetcher unit := fun w => (Returned v, w) in
  let '(results, _, (_, calls)) :=
    @getOrSet_calls sample_JSON _ this (str "test:getOrSet") (counted fetch)
      (Some 60) (Some [str "demo"]) [0; 0; 20; 39] fresh_redis (tt, 0%nat) in
  results = repeat (Returned v) 4 /\ calls = 1%nat.
Proof.
  apply (@getOrSet_fetches_once sample_JSON unit
           (new_CacheService (Some (str "test")) (Some 60)) (str "test:getOrSet")
           (fun w => (Returned (JObj [(str "data", JStr (str "fetched"))]), w))
           (Some 60) (Some [str "demo"])
           (JObj [(str "data", JStr (str "fetched"))]) tt tt 0 [0; 20; 39] fresh_redis).
  - reflexivity.
  - accept_ttl.
  - vm_compute. reflexivity.
  - reflexivity.
  - eexists. split; [vm_compute; reflexivity|]. split; [split|].
    + apply well_formedb_sound. vm_compute. reflexivity.
    + vm_compute. reflexivity.
    + vm_compute. reflexivity.
  - discriminate.
  - repeat constructor; lia.
  - vm_compute. reflexivity.
Defined.

(** C5 as stated fails for a fetcher that returns [null]: [null] is stored,
    but reading it back is indistinguishable from a miss, so the second call
    fetches again. *)
Lemma C5_counterexample :
  let this := new_CacheService (Some (str "test")) (Some 60) in
  let fetch : fetcher unit := fun w => (Returned JNull, w) in
  (sample_stringify JNull = Some (str "null")
   /\ sample_parse (str "null") = Some JNull)
  /\ let '(results, _, (_, calls)) :=
       @getOrSet_calls sample_JSON _ this (str "user:42") (counted fetch)
         (Some 60) None [0; 1] fresh_redis (tt, 0%nat) in
     results = [Returned JNull; Returned JNull] /\ calls = 2%nat.
Proof. vm_compute. repeat split; reflexivity. Qed.

Lemma get_fails_soft `{JSON} this key ns st e :
  (execute (GET (generateKey this key ns)) st).1 = Error e ->
  (get this key ns st).1 = JNull.
Proof.
  unfold get. destruct (execute _ st) as [r st']. cbn [fst].
  intros ->. reflexivity.
Qed.

Lemma execute_offline_db c st : online st = false -> db (execute c st).2 = db st.
Proof. intros Ho. rewrite execute_offline by exact Ho. reflexivity. Qed.

Lemma pipeline_offline_db cmds st :
  online st = false -> db (pipeline_exec cmds st) = db st.
Proof.
  unfold pipeline_exec. revert st.
  induction cmds as [|c cmds IH]; intros st Ho; [reflexivity|].
  cbn [fold_left]. rewrite IH.
  - apply execute_offline_db, Ho.
  - destruct (execute_frame c st) as [-> _]. exact Ho.
Qed.

Lemma set_offline_db `{JSON} this key v ttl tags st :
  online st = false -> db (set this key v ttl tags st).2 = db st.
Proof.
  intros Ho. unfold set. destruct (JSON_stringify v); [|reflexivity].
  cbn [snd]. apply pipeline_offline_db, Ho.
Qed.

(** C4 (as amended).  A failed lookup gives [null], as a miss does.  Then,
    if the fetcher succeeds, [getOrSet] returns its result after one call of
    the fetcher and still hands the result to [set]: nothing is stored when
    the server is unreachable, and the result is cached when the server
    answers, the value is serializable and the TTL is one the server
    accepts.  If the fetcher fails, and fails
    again when the handler calls it, that failure reaches the caller. *)
Theorem getOrSet_cache_failure `{JSON} {W} this key (fetch : fetcher W) ttl tags st w :
  let fk := generateKey this key None in
  let st1 := record_command (GET fk) st in
  (forall e, (execute (GET fk) st).1 = Error e -> (get this key None st).1 = JNull)
  /\ ((get this key None st).1 = JNull ->
      (forall data w1, fetch w = (Returned data, w1) ->
         let st2 := (set this key data ttl tags st1).2 in
         getOrSet this key (counted fetch) ttl tags st (w, 0%nat)
         = (Returned data, st2, (w1, 1%nat))
         /\ (online st = false -> db st2 = db st)
         /\ (online st = true -> serializable data ->
             accepted_ttl st (effective_ttl this ttl) ->
             (get this key None st2).1 = data))
      /\ (forall e1 w1 e2 w2,
            fetch w = (Thrown e1, w1) -> fetch w1 = (Thrown e2, w2) ->
            (getOrSet this key fetch ttl tags st w).1 = (Thrown e2, st1))).
Proof.
  intros fk st1. split; [intros e; apply get_fails_soft|].
  intros Hnull.
  pose proof (get_state this key None st) as Hst. fold fk in Hst. fold st1 in Hst.
  split.
  - intros data w1 Hf st2. split; [|split].
    + unfold getOrSet. destruct (get this key None st) as [cached st1'].
      cbn [fst snd] in *. subst. cbn [not_null counted]. rewrite Hf.
      unfold st2. destruct (set _ _ _ _ _ _). reflexivity.
    + intros Ho. unfold st2. rewrite set_offline_db by exact Ho. reflexivity.
    + intros Ho (s & Hs & Htext & Hparse) Ht.
      destruct (set_stores this key data ttl tags st1 s Ho Ht Hs) as (Ho2 & _ & Hl2).
      fold st2 in Ho2, Hl2.
      destruct (json_text_not_marked s Htext) as [Hmark Hne].
      rewrite (get_live_string this key None st2 _ _ Ho2 Hl2)
        by (apply compress_nonempty, Hne).
      rewrite decompress_compress by (auto; left; apply Htext).
      rewrite Hparse. reflexivity.
  - intros e1 w1 e2 w2 Hf1 Hf2. unfold getOrSet.
    destruct (get this key None st) as [cached st1'].
    cbn [fst snd] in *. subst. cbn [not_null]. rewrite Hf1, Hf2. reflexivity.
Qed.

Lemma getOrSet_cache_failure_witness :
  let this := new_CacheService None None in
  let v := JObj [(str "id", JNum 7)] in
  let fetch : fetcher unit := fun w => (Returned v, w) in
  (@getOrSet sample_JSON _ this (str "user:7") (counted fetch) None None
     unreachable_redis (tt, 0%nat)).1.1 = Returned v.
Proof.
  pose proof (@getOrSet_cache_failure sample_JSON unit (new_CacheService None None)
                (str "user:7")
                (fun w => (Returned (JObj [(str "id", JNum 7)]), w))
                None None unreachable_redis tt) as [_ H].
  destruct (H eq_refl) as [H1 _].
  destruct (H1 (JObj [(str "id", JNum 7)]) tt eq_refl) as [E _].
  cbv zeta. rewrite E. reflexivity.
Defined.

(** C4 as stated fails when only the lookup errors: the key [tag:users]
    holds a tag set, so [GET] is refused, yet the fetched value is stored and
    the next [get] returns it. *)
Lemma C4_counterexample :
  let this := new_CacheService None None in
  let v := JArr [JStr (str "ann"); JStr (str "bob")] in
  let fetch : fetcher unit := fun w => (Returned v, w) in
  let st := (@set sample_JSON this (str "user:1") (JNum 1) (Some 60)
               (Some [str "users"]) fresh_redis).2 in
  let '(r, st', _) :=
    @getOrSet sample_JSON _ this (str "tag:users") fetch (Some 60) None st tt in
  (execute (GET (generateKey this (str "tag:users") None)) st).1 = Error WrongType
  /\ r = Returned v
  /\ (@get sample_JSON this (str "tag:users") None st').1 = v.
Proof. vm_compute. repeat split; reflexivity. Qed.

(** ** The middleware *)

Lemma getHeader_setHeader name value res :
  getHeader name (setHeader name value res) = Some value.
Proof.
  unfold getHeader, setHeader. cbn [headers assoc].
  destruct (decide (name = name)); [reflexivity|contradiction].
Qed.

Lemma getHeader_setHeader_other name name' value res :
  name' <> name ->
  getHeader name (setHeader name' value res) = getHeader name res.
Proof.
  intros Hne. unfold getHeader, setHeader. cbn [headers assoc].
  destruct (decide (name' = name)) as [|_]; [contradiction|].
  induction (headers res) as [|[n v] hs IH]; [reflexivity|].
  cbn [filter list_filter assoc]. unfold filter in IH.
  destruct (decide (n = name')) as [->|Hn].
  - cbn [fst]. rewrite bool_decide_eq_true_2 by reflexivity. cbn.
    destruct (decide (name' = name)); [contradiction|]. exact IH.
  - cbn [fst]. rewrite bool_decide_eq_false_2 by exact Hn. cbn [negb].
    destruct (decide (Is_true true)) as [_|F]; [|exfalso; apply F; exact I].
    cbn [assoc]. destruct (decide (n = name)); [reflexivity|exact IH].
Qed.


Lemma header_names_differ : str "X-Cache-Key" <> str "X-Cache".
Proof. vm_compute. discriminate. Qed.



(** The handler of the [try] block does set [X-Cache: ERROR], but only for a
    cache whose [get] rejects, which the [get] of [CacheService] never does. *)
Lemma auto_cache_error_branch `{Crypto} cache config ttl req res st e st' :
  ics_get cache (default (default_key config) (ac_keyGenerator config) req) st
  = (Thrown e, st') ->
  let '(next, _, res', _) := auto_cache cache config ttl req res st in
  next = Next /\ getHeader (str "X-Cache") res' = Some (str "ERROR")
  /\ wrapper res' = wrapper res.
Proof.
  intros Hget. unfold auto_cache. rewrite Hget.
  split; [reflexivity|]. split; [apply getHeader_setHeader|reflexivity].
Qed.

(** C10.  With [includeAuth] enabled, a request without a user id gets the
    key of an unauthenticated request with the same method, path and query,
    whatever the configuration of the latter, hence the same store key. *)
Theorem default_key_without_user `{Crypto} config config' req req' :
  ac_includeAuth config = true ->
  truthy (user_id req) = false ->
  truthy (user_id req') = false ->
  method req' = method req -> path req' = path req -> query req' = query req ->
  default_key config req = default_key config' req'
  /\ forall this, generateKey this (default_key config req) None
                  = generateKey this (default_key config' req') None.
Proof.
  intros Hauth Hu Hu' Hm Hp Hq.
  assert (E : default_key config req = default_key config' req').
  { unfold default_key, query_value. rewrite Hu, Hu', Hm, Hp, Hq.
    rewrite !andb_false_r. reflexivity. }
  split; [exact E|]. intros this. rewrite E. reflexivity.
Qed.

Lemma default_key_without_user_witness :
  let config := {| ac_enabled := None; ac_keyGenerator := None; ac_tags := None;
                   ac_includeAuth := true; ac_condition := None |} in
  let req := {| method := str "GET"; path := str "/api/dashboard";
                query := [(str "page", JStr (str "2")); (str "filter", JStr (str "new"))];
                user_id := JNum 0; cacheKey := None |} in
  let req' := {| method := str "GET"; path := str "/api/dashboard";
                 query := [(str "page", JStr (str "2")); (str "filter", JStr (str "new"))];
                 user_id := JUndefined; cacheKey := None |} in
  @default_key sample_Crypto config req = @default_key sample_Crypto no_autoCache req'.
Proof.
  apply (@default_key_without_user sample_Crypto
           {| ac_enabled := None; ac_keyGenerator := None; ac_tags := None;
              ac_includeAuth := true; ac_condition := None |}
           no_autoCache
           {| method := str "GET"; path := str "/api/dashboard";
              query := [(str "page", JStr (str "2")); (str "filter", JStr (str "new"))];
              user_id := JNum 0; cacheKey := None |}
           {| method := str "GET"; path := str "/api/dashboard";
              query := [(str "page", JStr (str "2")); (str "filter", JStr (str "new"))];
              user_id := JUndefined; cacheKey := None |});
    reflexivity.
Defined.

(** With a user id the key does differ, and the query string is hashed in
    sorted order. *)
Example default_key_sample :
  let config := {| ac_enabled := None; ac_keyGenerator := None; ac_tags := None;
                   ac_includeAuth := true; ac_condition := None |} in
  let req := {| method := str "GET"; path := str "/d";
                query := [(str "b", JStr (str "2")); (str "a", JNum 1)];
                user_id := JNum 123; cacheKey := None |} in
  @default_key sample_Crypto config req
  = str "GET:/d:" ++ @md5_hex sample_Crypto (str "a=1&b=2") ++ str ":user:123".
Proof. vm_compute. reflexivity. Qed.

(** ** Tag sets *)

(** C3 (what the code does).  A tag set expires with the last write that
    named the tag: after an entry stored for 100 seconds and one stored for
    10 seconds under the same tag, the tag set has 10 seconds left; once it
    is gone, invalidating the tag removes nothing and the first entry is
    still served. *)
Theorem tag_expiry_follows_last_write :
  let this := new_CacheService None None in
  let st1 := (@set sample_JSON this (str "a") (JNum 1) (Some 100)
                (Some [str "t"]) fresh_redis).2 in
  let st2 := (@set sample_JSON this (str "b") (JNum 2) (Some 10)
                (Some [str "t"]) st1).2 in
  let st3 := advance 10 st2 in
  let '(removed, st4) := invalidateByTags this [str "t"] st3 in
  (ttl this (str "tag:t") st1).1 = 100
  /\ (ttl this (str "tag:t") st2).1 = 10
  /\ (ttl this (str "a") st2).1 = 100
  /\ (ttl this (str "tag:t") st3).1 = -2
  /\ (ttl this (str "a") st3).1 = 90
  /\ removed = 0
  /\ (@get sample_JSON this (str "a") None st4).1 = JNum 1.
Proof. vm_compute. repeat split; reflexivity. Qed.

(** C2 (what the code does).  [invalidateByTags] returns the number of
    members read from the tag sets, not the number of entries removed: with
    [key3] listed under both tags it answers 4 for 3 entries.  A second
    invalidation and a tag without members answer 0. *)
Theorem invalidateByTags_counts_members :
  let this := new_CacheService (Some (str "test")) (Some 60) in
  let st1 := (@set sample_JSON this (str "key1") (JStr (str "value1")) (Some 60)
                (Some [str "tag1"]) fresh_redis).2 in
  let st2 := (@set sample_JSON this (str "key2") (JStr (str "value2")) (Some 60)
                (Some [str "tag2"]) st1).2 in
  let st3 := (@set sample_JSON this (str "key3") (JStr (str "value3")) (Some 60)
                (Some [str "tag1"; str "tag2"]) st2).2 in
  let '(removed, st4) := invalidateByTags this [str "tag1"; str "tag2"] st3 in
  length (cache_entries st3) = 3%nat
  /\ length (cache_entries st4) = 0%nat
  /\ length (table st4) = 0%nat
  /\ removed = 4
  /\ (invalidateByTags this [str "tag1"; str "tag2"] st4).1 = 0
  /\ (invalidateByTags this [str "none"] st3).1 = 0.
Proof. vm_compute. repeat split; reflexivity. Qed.

(** ** Scanning and deleting by pattern *)

Lemma extend_nil st : extend st [] = st.
Proof. destruct st. unfold extend. cbn. rewrite app_nil_r. reflexivity. Qed.

Lemma extend_record c st cmds :
  extend (record_command c st) cmds = extend st (c :: cmds).
Proof. unfold extend. cbn. rewrite <- app_assoc. reflexivity. Qed.

Lemma execute_SCAN st cursor pattern count :
  online st = true ->
  execute (SCAN cursor pattern count) st
  = (Page (scan_page st cursor pattern count).1 (scan_page st cursor pattern count).2,
     record_command (SCAN cursor pattern count) st).
Proof.
  intros Ho. unfold execute. rewrite online_record, Ho. cbn [negb].
  change (scan_page (record_command _ st)) with (scan_page st).
  destruct (scan_page st cursor pattern count). reflexivity.
Qed.

Lemma execute_SCAN_state st cursor pattern count :
  (execute (SCAN cursor pattern count) st).2
  = record_command (SCAN cursor pattern count) st.
Proof.
  unfold execute. rewrite online_record. destruct (online st); [|reflexivity].
  cbn [negb]. destruct (scan_page _ _ _ _). reflexivity.
Qed.

Lemma scan_loop_collects pattern fuel :
  forall st cursor acc,
  online st = true ->
  (length (scan_walk st) - cursor < fuel)%nat ->
  exists scans,
    scan_loop fuel pattern cursor acc st
    = (Collected (acc ++ filter (fun k => is_live st k && matches st pattern k = true)
                           (drop cursor (scan_walk st))),
       extend st scans)
    /\ Forall (is_scan pattern) scans.
Proof.
  induction fuel as [|fuel IH]; intros st cursor acc Ho Hfuel; [lia|].
  cbn [scan_loop]. rewrite execute_SCAN by exact Ho.
  unfold scan_page. cbn [fst snd].
  destruct (Nat.leb_spec (length (scan_walk st)) (cursor + 100)) as [Hend|Hmore].
  - cbn [Nat.eqb]. exists [SCAN cursor pattern 100].
    rewrite take_ge by (rewrite length_drop; lia).
    split; [rewrite <- extend_record, extend_nil; reflexivity|].
    repeat constructor. exists cursor. reflexivity.
  - destruct (Nat.eqb_spec (cursor + 100) 0) as [|_]; [lia|].
    destruct (IH (record_command (SCAN cursor pattern 100) st) (cursor + 100)%nat
                (acc ++ filter (fun k => is_live st k && matches st pattern k = true)
                          (take 100 (drop cursor (scan_walk st)))))
      as (scans & E & Hscans).
    + exact Ho.
    + change (scan_walk (record_command _ st)) with (scan_walk st). lia.
    + exists (SCAN cursor pattern 100 :: scans).
      rewrite E. change (scan_walk (record_command _ st)) with (scan_walk st).
      change (is_live (record_command ?c st)) with (is_live st).
      change (matches (record_command ?c st)) with (matches st).
      rewrite extend_record, <- app_assoc, <- filter_app.
      rewrite <- drop_drop, take_drop.
      split; [reflexivity|]. constructor; [exists cursor; reflexivity|exact Hscans].
Qed.

Lemma batches_from_spec keys n :
  forall i, (length keys - i <= n)%nat ->
  concat (batches_from n keys i) = drop i keys
  /\ Forall (fun b => (0 < length b <= 100)%nat) (batches_from n keys i).
Proof.
  induction n as [|n IH]; intros i Hn; cbn [batches_from].
  - rewrite drop_ge by lia. split; [reflexivity|constructor].
  - destruct (Nat.ltb_spec i (length keys)) as [Hi|Hi].
    + destruct (IH (i + 100)%nat ltac:(lia)) as [Hc Hf].
      cbn [concat]. rewrite Hc, <- drop_drop, take_drop.
      split; [reflexivity|]. constructor; [|exact Hf].
      rewrite length_take, length_drop. lia.
    + rewrite drop_ge by lia. split; [reflexivity|constructor].
Qed.

Lemma batches_spec keys :
  concat (batches keys) = keys
  /\ Forall (fun b => (0 < length b <= 100)%nat) (batches keys).
Proof. apply (batches_from_spec keys (length keys) 0%nat). lia. Qed.

Lemma execute_DEL st ks :
  online st = true ->
  exists n,
    execute (DEL ks) st = (Int n, (del_keys ks (record_command (DEL ks) st)).2).
Proof.
  intros Ho. unfold execute. rewrite online_record, Ho. cbn [negb].
  destruct (del_keys ks _) as [n st']. exists n. reflexivity.
Qed.

Lemma delete_loop_spec bs :
  forall total st,
  online st = true ->
  let '(n, st') := delete_loop bs total st in
  n = total + Z.of_nat (length (concat bs))
  /\ online st' = true /\ clock st' = clock st
  /\ sent st' = sent st ++ map DEL bs
  /\ forall k, live st' k = if decide (k ∈ concat bs) then None else live st k.
Proof.
  induction bs as [|b bs IH]; intros total st Ho.
  - cbn. split; [lia|]. split; [exact Ho|]. split; [reflexivity|].
    split; [rewrite app_nil_r; reflexivity|].
    intros k. destruct (decide (k ∈ [])) as [H|]; [inversion H|reflexivity].
  - cbn [delete_loop]. destruct (execute_DEL st b Ho) as [n ->].
    destruct (del_keys_spec b (record_command (DEL b) st)) as (Ho1 & Hc1 & Hs1 & Hl1).
    set (st1 := (del_keys b (record_command (DEL b) st)).2) in *.
    specialize (IH (total + Z.of_nat (length b)) st1 ltac:(rewrite Ho1; exact Ho)).
    destruct (delete_loop bs _ st1) as [n' st'].
    destruct IH as (Hn & Ho' & Hc' & Hs' & Hl').
    cbn [concat map]. rewrite length_app.
    split; [lia|]. split; [exact Ho'|]. split; [rewrite Hc', Hc1; reflexivity|].
    split; [rewrite Hs', Hs1; cbn; rewrite <- app_assoc; reflexivity|].
    intros k. rewrite Hl', Hl1, live_record.
    destruct (decide (k ∈ concat bs)) as [H1|H1];
      destruct (decide (k ∈ b)) as [H2|H2];
      destruct (decide (k ∈ b ++ concat bs)) as [H3|H3]; try reflexivity;
      exfalso; rewrite elem_of_app in H3; tauto.
Qed.

Lemma glob_parse_literal p rest :
  glob_free p = true ->
  glob_parse None (p ++ rest) = map Lit p ++ glob_parse None rest.
Proof.
  induction p as [|c p IH]; [reflexivity|].
  cbn [glob_free forallb]. intros [Hc Hp]%andb_true_iff.
  apply negb_true_iff in Hc. unfold glob_special in Hc.
  apply orb_false_iff in Hc as [Hc H92].
  apply orb_false_iff in Hc as [Hc H91].
  apply orb_false_iff in Hc as [H42 H63].
  cbn [app glob_parse map]. rewrite H42, H63, H91, H92.
  f_equal. apply IH, Hp.
Qed.

Lemma tokens_match_literal sg p ts s :
  tokens_match sg (map Lit p ++ ts) s = true
  <-> exists s', s = p ++ s' /\ tokens_match sg ts s' = true.
Proof.
  revert s. induction p as [|c p IH]; intros s.
  - cbn. split; [intros Hm; exists s; auto|intros (s' & -> & Hm); exact Hm].
  - cbn [map app tokens_match]. destruct s as [|x s].
    + split; [discriminate|]. intros (s' & Hs & _). discriminate Hs.
    + rewrite andb_true_iff, Z.eqb_eq, IH. split.
      * intros (-> & s' & -> & Hm). exists s'. auto.
      * intros (s' & Hs & Hm). injection Hs as -> ->. split; [reflexivity|].
        exists s'. auto.
Qed.

Lemma glob_free_app a b : glob_free (a ++ b) = glob_free a && glob_free b.
Proof. apply forallb_app. Qed.

(** A pattern that starts with a plain prefix matches the subjects that
    start with that prefix and go on with a match of the rest. *)
Lemma glob_match_prefix sg p pattern k :
  glob_free p = true ->
  glob_match sg (p ++ pattern) k = true
  <-> exists key, k = p ++ key /\ glob_match sg pattern key = true.
Proof.
  intros Hp. unfold glob_match. rewrite glob_parse_literal by exact Hp.
  apply tokens_match_literal.
Qed.

Lemma generateKey_own this key : generateKey this key None = namespace this ++ str ":" ++ key.
Proof. reflexivity. Qed.

(** *** Patterns and keys as text *)

Lemma generateKey_wire this key :
  Buffer_from (generateKey this key None)
  = Buffer_from (namespace this) ++ 58 :: Buffer_from key.
Proof. rewrite generateKey_own. apply Buffer_from_colon. Qed.

Lemma prefix_wire this :
  Buffer_from (namespace this ++ str ":") = Buffer_from (namespace this) ++ [58].
Proof. apply (Buffer_from_colon (namespace this) []). Qed.

Lemma glob_special_byte cp :
  glob_special cp = false -> glob_free (utf8_encode_scalar cp) = true.
Proof.
  intros Hcp. unfold utf8_encode_scalar.
  destruct (Z.ltb_spec cp 0x80); [cbn; rewrite Hcp; reflexivity|].
  assert (Hhigh : forall b, 0x80 <= b -> glob_special b = false).
  { intros b Hb. unfold glob_special. zbool; reflexivity. }
  destruct (cp <? 0x800); [|destruct (cp <? 0x10000)];
    cbn [glob_free forallb]; divmod_abstract;
    rewrite !Hhigh by lia; reflexivity.
Qed.

(** The text of a string without pattern characters has none either: the
    bytes of a character that is not ASCII are all above 127. *)
Lemma glob_free_wire s : glob_free s = true -> glob_free (Buffer_from s) = true.
Proof.
  unfold Buffer_from.
  induction s as [|u s Hu IH|h Hh|h l s Hh Hl IH|h l s Hh Hl IH] using utf16_ind.
  - reflexivity.
  - cbn [glob_free forallb]. intros [Hc Hs]%andb_true_iff.
    apply negb_true_iff in Hc.
    rewrite utf16_scalars_unit by exact Hu. cbn [flat_map].
    rewrite glob_free_app. fold (glob_free s) in Hs. rewrite (IH Hs), andb_true_r.
    apply glob_special_byte. destruct (is_low_surrogate u); [reflexivity|exact Hc].
  - intros _. cbn [utf16_scalars]. rewrite Hh. reflexivity.
  - cbn [glob_free forallb]. intros [_ [_ Hs]%andb_true_iff]%andb_true_iff.
    rewrite utf16_scalars_pair by assumption. cbn [flat_map].
    rewrite glob_free_app. fold (glob_free s) in Hs. rewrite (IH Hs), andb_true_r.
    apply glob_special_byte.
    destruct (surrogate_bounds h l Hh Hl). unfold glob_special. zbool; reflexivity.
  - cbn [glob_free forallb]. intros [_ Hs]%andb_true_iff.
    rewrite utf16_scalars_lone by assumption. cbn [flat_map].
    rewrite glob_free_app. rewrite (IH Hs), andb_true_r. reflexivity.
Qed.

(** The keys a pattern of the service matches: their text starts with the
    text of [ns:] and goes on with a match of the pattern. *)
Lemma matches_namespace st this pattern k :
  glob_free (namespace this) = true ->
  matches st (generateKey this pattern None) k = true
  <-> exists rest, Buffer_from k = Buffer_from (namespace this) ++ 58 :: rest
                   /\ glob_match (signed_chars st) (Buffer_from pattern) rest = true.
Proof.
  intros Hns. unfold matches. rewrite generateKey_wire.
  rewrite (cons_middle 58), app_assoc.
  rewrite glob_match_prefix
    by (rewrite glob_free_app, (glob_free_wire _ Hns); reflexivity).
  split; intros (rest & E & Hm); exists rest; split; try exact Hm.
  - rewrite E, <- app_assoc. reflexivity.
  - rewrite E, <- app_assoc. reflexivity.
Qed.

Lemma matches_own st this pattern key :
  glob_free (namespace this) = true ->
  matches st pattern key = true ->
  matches st (generateKey this pattern None) (generateKey this key None) = true.
Proof.
  intros Hns Hm. apply matches_namespace; [exact Hns|].
  exists (Buffer_from key). split; [apply generateKey_wire|exact Hm].
Qed.

(** Among well formed keys these are the keys of the service whose own part
    matches the pattern. *)
Lemma matches_namespace_key st this pattern k :
  glob_free (namespace this) = true ->
  well_formed (namespace this) -> well_formed k ->
  matches st (generateKey this pattern None) k = true
  <-> exists key, k = generateKey this key None /\ matches st pattern key = true.
Proof.
  intros Hns Hwf Hk. split.
  - intros (rest & E & Hm)%matches_namespace; [|exact Hns].
    assert (Ek : k = generateKey this (Buffer_toString_utf8 rest) None).
    { rewrite <- (utf8_roundtrip k Hk), E, utf8_decode_app by exact Hwf.
      rewrite utf8_decode_1 by lia. reflexivity. }
    exists (Buffer_toString_utf8 rest). split; [exact Ek|].
    unfold matches. replace (Buffer_from (Buffer_toString_utf8 rest)) with rest; [exact Hm|].
    rewrite Ek, generateKey_wire in E. apply app_inv_head in E.
    injection E as E. symmetry. exact E.
  - intros (key & -> & Hm). apply matches_own; assumption.
Qed.

Lemma is_live_table st k : is_live st k = true -> k ∈ table st.
Proof.
  unfold is_live. destruct (live st k) as [e|] eqn:Hl; [|discriminate].
  intros _. apply live_Some_db in Hl. unfold table.
  apply list_elem_of_fmap. exists (k, e). split; [reflexivity|].
  apply elem_of_map_to_list, Hl.
Qed.

Lemma elem_of_matching st pattern k :
  k ∈ matching st pattern <-> is_live st k = true /\ matches st pattern k = true.
Proof.
  unfold matching. rewrite list_elem_of_filter, andb_true_iff. split.
  - tauto.
  - intros [Hl Hm]. split; [auto|]. apply is_live_table, Hl.
Qed.

Lemma NoDup_matching st pattern : NoDup (matching st pattern).
Proof. apply NoDup_filter, NoDup_fst_map_to_list. Qed.

(** What a scan reports again is among what it has found. *)
Lemma repeated_matching st pattern :
  repeated st pattern = filter (fun k => k ∈ matching st pattern) (rescanned st).
Proof.
  unfold repeated. apply list_filter_iff. intros k.
  rewrite elem_of_matching, andb_true_iff. reflexivity.
Qed.

Lemma well_formed_live st k : well_formed_keys st -> is_live st k = true -> well_formed k.
Proof.
  intros Hwf Hl. apply is_live_table in Hl.
  unfold well_formed_keys in Hwf. rewrite Forall_forall in Hwf. auto.
Qed.

Lemma well_formed_keys_sound st :
  forallb well_formedb (table st) = true -> well_formed_keys st.
Proof.
  intros H. apply Forall_forall. intros k Hk. apply well_formedb_sound.
  rewrite forallb_forall in H. apply H, list_elem_of_In, Hk.
Qed.

Lemma delPattern_spec this pattern st fuel :
  online st = true ->
  (length (scan_walk st) < fuel)%nat ->
  let fullPattern := generateKey this pattern None in
  let reported := matching st fullPattern ++ repeated st fullPattern in
  exists st' scans,
    delPattern fuel this pattern st = Some (Z.of_nat (length reported), st')
    /\ (forall k, live st' k
                  = if decide (k ∈ matching st fullPattern) then None else live st k)
    /\ sent st' = sent st ++ scans ++ map DEL (batches reported)
    /\ Forall (is_scan fullPattern) scans.
Proof.
  intros Ho Hfuel. cbv zeta. unfold delPattern.
  destruct (scan_loop_collects (generateKey this pattern None) fuel st 0 [] Ho
              ltac:(lia)) as (scans & -> & Hscans).
  rewrite app_nil_l. change (drop 0 (scan_walk st)) with (scan_walk st).
  unfold scan_walk. rewrite filter_app.
  fold (matching st (generateKey this pattern None)).
  fold (repeated st (generateKey this pattern None)).
  assert (Hin : forall k, k ∈ matching st (generateKey this pattern None)
                            ++ repeated st (generateKey this pattern None)
                          <-> k ∈ matching st (generateKey this pattern None)).
  { intros k. rewrite elem_of_app, repeated_matching, list_elem_of_filter. tauto. }
  revert Hin.
  generalize (matching st (generateKey this pattern None)
              ++ repeated st (generateKey this pattern None)) as reported.
  generalize (matching st (generateKey this pattern None)) as deleted.
  intros deleted reported Hin.
  destruct (batches_spec reported) as [Hcat Hsize].
  pose proof (delete_loop_spec (batches reported) 0 (extend st scans) Ho) as Hdel.
  rewrite Hcat in Hdel.
  destruct reported as [|k0 ks].
  - exists (extend st scans), scans.
    split; [reflexivity|]. split; [|split; [rewrite app_nil_r; reflexivity|exact Hscans]].
    intros k. destruct (decide (k ∈ deleted)) as [H|]; [|reflexivity].
    apply Hin in H. inversion H.
  - destruct (delete_loop (batches (k0 :: ks)) 0 (extend st scans)) as [n st'].
    destruct Hdel as (Hn & _ & _ & Hsent & Hlive).
    exists st', scans. split; [f_equal; f_equal; lia|].
    split; [|split; [|exact Hscans]].
    + intros k. rewrite Hlive.
      destruct (decide (k ∈ k0 :: ks)) as [H|H];
        destruct (decide (k ∈ deleted)) as [H'|H']; try reflexivity;
        exfalso; rewrite Hin in H; contradiction.
    + rewrite Hsent. cbn [sent extend]. rewrite <- app_assoc. reflexivity.
Qed.




(** The count is of reports, not of keys: a server whose scan comes across
    [list:1] a second time makes [delPattern('list:*')] answer 3 for the two
    keys it deletes. *)
Example delPattern_counts_reports :
  let this := new_CacheService (Some (str "test")) (Some 60) in
  let resizing := {| online := true; clock := 0; db := ∅; sent := [];
                     rescanned := [str "test:list:1"]; signed_chars := true |} in
  let st1 := (@set sample_JSON this (str "list:1") (JStr (str "data1")) None None
                resizing).2 in
  let st2 := (@set sample_JSON this (str "list:2") (JStr (str "data2")) None None st1).2 in
  let st := (@set sample_JSON this (str "search:x") (JStr (str "data3")) None None st2).2 in
  exists st',
    delPattern 4 this (str "list:*") st = Some (3, st')
    /\ length (cache_entries st) = 3%nat
    /\ length (cache_entries st') = 1%nat.
Proof. eexists. split; [vm_compute; reflexivity|]. vm_compute. split; reflexivity. Qed.

(** The pattern is matched against bytes: [?] stands for one byte, so it
    does not match a key of one character that takes two. *)
Example scan_matches_bytes :
  let this := new_CacheService (Some (str "test")) (Some 60) in
  let st := (@set sample_JSON this [233] (JNum 1) None None fresh_redis).2 in
  (exists st', delPattern 4 this (str "?") st = Some (0, st'))
  /\ (exists st', delPattern 4 this (str "??") st = Some (1, st')).
Proof. split; eexists; vm_compute; reflexivity. Qed.

(** ** Namespaces *)

Lemma owns_spec this k : owns this k <-> starts_with (namespace this ++ str ":") k = true.
Proof.
  rewrite starts_with_spec. unfold owns. split; intros (r & ->); exists r;
    rewrite generateKey_own, ?app_assoc; reflexivity.
Qed.

Lemma independent_disjoint this1 this2 k :
  independent this1 this2 = true -> owns this1 k -> owns this2 k -> False.
Proof.
  unfold independent. rewrite !andb_true_iff, !negb_true_iff.
  intros [[_ H12] H21]. rewrite !owns_spec. intros H1 H2.
  destruct (starts_with_total _ _ _ H1 H2); congruence.
Qed.

Lemma starts_with_snoc (a : list Z) x r : starts_with (a ++ [x]) (a ++ x :: r) = true.
Proof. rewrite (cons_middle x a r), app_assoc. apply starts_with_app. Qed.

Lemma owns_wire this k : owns this k -> wire_owns this k.
Proof.
  intros (key & ->). unfold wire_owns. rewrite generateKey_wire, prefix_wire.
  apply starts_with_snoc.
Qed.

Lemma well_formed_prefix this :
  well_formed (namespace this) -> well_formed (namespace this ++ str ":").
Proof.
  intros Hns. apply well_formed_app; [exact Hns|].
  apply well_formedb_sound. reflexivity.
Qed.

Lemma wire_owns_owns this k :
  well_formed (namespace this) -> well_formed k -> wire_owns this k -> owns this k.
Proof.
  intros Hns Hk H. apply owns_spec, wire_prefix;
    [apply well_formed_prefix, Hns|exact Hk|exact H].
Qed.

(** The texts of the keys of two independent services with well formed
    namespaces have nothing in common. *)
Lemma wire_disjoint this1 this2 k :
  independent this1 this2 = true ->
  well_formed (namespace this1) -> well_formed (namespace this2) ->
  wire_owns this1 k -> wire_owns this2 k -> False.
Proof.
  unfold independent. rewrite !andb_true_iff, !negb_true_iff.
  intros [[_ H12] H21] Hw1 Hw2 H1 H2.
  destruct (starts_with_total _ _ _ H1 H2) as [H|H];
    apply wire_prefix in H; try (apply well_formed_prefix; assumption); congruence.
Qed.

Lemma matches_wire_owns st this pattern k :
  glob_free (namespace this) = true ->
  matches st (generateKey this pattern None) k = true -> wire_owns this k.
Proof.
  intros Hns (rest & E & _)%matches_namespace; [|exact Hns].
  unfold wire_owns. rewrite prefix_wire, E. apply starts_with_snoc.
Qed.

(** Different well formed namespaces give one key different texts. *)
Lemma namespaces_differ_texts_differ this1 this2 key :
  well_formed (namespace this1) -> well_formed (namespace this2) ->
  namespace this1 <> namespace this2 ->
  Buffer_from (generateKey this1 key None) <> Buffer_from (generateKey this2 key None).
Proof.
  intros Hw1 Hw2 Hne E. rewrite !generateKey_wire in E.
  rewrite (cons_middle 58 (Buffer_from (namespace this1))) in E.
  rewrite (cons_middle 58 (Buffer_from (namespace this2))) in E.
  rewrite !app_assoc in E. apply app_inv_tail in E. apply app_inv_tail in E.
  apply Hne, Buffer_from_inj; assumption.
Qed.

Lemma namespaces_differ_keys_differ this1 this2 key :
  namespace this1 <> namespace this2 ->
  generateKey this1 key None <> generateKey this2 key None.
Proof.
  intros Hne. rewrite !generateKey_own, !app_assoc. intros E.
  apply app_inv_tail in E. apply app_inv_tail in E. contradiction.
Qed.

(** ** Commands change the keys they name *)

Lemma execute_other c st k :
  k ∉ command_writes c -> live (execute c st).2 k = live st k.
Proof.
  intros Hk. unfold execute. rewrite online_record.
  destruct (online st); cbn [negb]; [|reflexivity].
  destruct c; cbn [command_writes] in Hk; rewrite ?live_record;
    try (rewrite not_elem_of_cons in Hk; destruct Hk as [Hk _]).
  - destruct (live st key) as [[[?|?] ?]|]; reflexivity.
  - destruct (setex_lifetime _ seconds); [reflexivity|]. cbn [snd].
    rewrite (live_insert (record_command _ st)).
    destruct (decide (key = k)); [congruence|reflexivity].
  - destruct (live st key) as [[[?|?] ?]|]; cbn [snd]; try reflexivity;
      rewrite (live_insert (record_command _ st));
      (destruct (decide (key = k)); [congruence|reflexivity]).
  - destruct (expire_lifetime _ seconds); [reflexivity|].
    destruct (live st key) as [[? ?]|]; [|reflexivity].
    destruct (seconds <=? 0); cbn [snd].
    + rewrite (live_delete (record_command _ st)).
      destruct (decide (key = k)); [congruence|reflexivity].
    + rewrite (live_insert (record_command _ st)).
      destruct (decide (key = k)); [congruence|reflexivity].
  - destruct (live st key) as [[[?|?] ?]|]; reflexivity.
  - destruct (del_keys_spec keys (record_command (DEL keys) st)) as (_ & _ & _ & Hl).
    destruct (del_keys keys _) as [n st']. cbn [snd] in *. rewrite Hl.
    destruct (decide (k ∈ keys)); [contradiction|reflexivity].
  - destruct (scan_page _ _ _ _). reflexivity.
  - reflexivity.
  - reflexivity.
Qed.

Lemma pipeline_exec_app a b st :
  pipeline_exec (a ++ b) st = pipeline_exec b (pipeline_exec a st).
Proof. apply fold_left_app. Qed.

Lemma pipeline_other cmds st k :
  Forall (fun c => k ∉ command_writes c) cmds ->
  live (pipeline_exec cmds st) k = live st k.
Proof.
  intros H. revert st. induction H as [|c cmds Hc _ IH]; intros st; [reflexivity|].
  change (pipeline_exec (c :: cmds) st) with (pipeline_exec cmds (execute c st).2).
  rewrite IH. apply execute_other, Hc.
Qed.

Lemma own_commands_frame this1 this2 cmds st k :
  independent this1 this2 = true ->
  well_formed (namespace this1) -> well_formed (namespace this2) ->
  Forall (own_command this2) cmds -> owns this1 k ->
  live (pipeline_exec cmds st) k = live st k.
Proof.
  intros Hind Hw1 Hw2 Hown Hk. apply pipeline_other.
  eapply Forall_impl; [exact Hown|]. intros c [Hw _] Hin.
  exact (wire_disjoint this1 this2 k Hind Hw1 Hw2 (owns_wire _ _ Hk) (Hw k Hin)).
Qed.

(** Where the members of a set come from: they were there, or the command
    has just added them. *)
Lemma execute_set_members c st k ms' d' m :
  live (execute c st).2 k = Some (Entry (RSet ms') d') -> m ∈ ms' ->
  (exists ms d, live st k = Some (Entry (RSet ms) d) /\ m ∈ ms) \/ c = SADD k m.
Proof.
  destruct (decide (k ∈ command_writes c)) as [Hin|Hout].
  2:{ rewrite execute_other by exact Hout. intros Hl Hm. left. eauto. }
  unfold execute. rewrite online_record.
  destruct (online st); cbn [negb]; [|cbn [snd]; rewrite live_record; eauto].
  destruct c; cbn [command_writes] in Hin; try solve [inversion Hin];
    rewrite ?live_record.
  - apply list_elem_of_singleton in Hin as ->.
    destruct (setex_lifetime _ seconds); cbn [snd]; [rewrite ?live_record; eauto|].
    rewrite (live_insert (record_command _ st)).
    destruct (decide (key = key)); [|contradiction].
    destruct (expired _ _); discriminate.
  - apply list_elem_of_singleton in Hin as ->.
    destruct (live st key) as [[[s|ms] d]|] eqn:Hl; cbn [snd].
    + rewrite live_record, Hl. discriminate.
    + rewrite (live_insert (record_command _ st)).
      destruct (decide (key = key)); [|contradiction].
      destruct (expired _ _); [discriminate|]. intros [= <- <-] Hm.
      apply elem_of_union in Hm as [Hm|Hm].
      * apply elem_of_singleton in Hm as ->. right. reflexivity.
      * left. eauto.
    + rewrite (live_insert (record_command _ st)).
      destruct (decide (key = key)); [|contradiction].
      destruct (expired _ _); [discriminate|]. intros [= <- <-] Hm.
      apply elem_of_singleton in Hm as ->. right. reflexivity.
  - apply list_elem_of_singleton in Hin as ->.
    destruct (expire_lifetime _ seconds); cbn [snd]; [rewrite ?live_record; eauto|].
    destruct (live st key) as [[v d]|] eqn:Hl; cbn [snd].
    + destruct (seconds <=? 0); cbn [snd].
      * rewrite (live_delete (record_command _ st)).
        destruct (decide (key = key)); [discriminate|contradiction].
      * rewrite (live_insert (record_command _ st)).
        destruct (decide (key = key)); [|contradiction].
        destruct (expired _ _); [discriminate|]. intros [= -> <-] Hm.
        left. eauto.
    + rewrite live_record, Hl. discriminate.
  - destruct (del_keys_spec keys (record_command (DEL keys) st)) as (_ & _ & _ & Hl).
    destruct (del_keys keys _) as [n st']. cbn [snd] in *. rewrite Hl.
    destruct (decide (k ∈ keys)); [discriminate|contradiction].
Qed.

Lemma execute_tags_closed this c st :
  tags_closed this st ->
  (forall k m, c = SADD k m -> owns this k -> owns this m) ->
  tags_closed this (execute c st).2.
Proof.
  intros Hclosed Hadd k ms d m Hk Hl Hm.
  destruct (execute_set_members c st k ms d m Hl Hm) as [(ms0 & d0 & Hl0 & Hm0) | -> ].
  - exact (Hclosed k ms0 d0 m Hk Hl0 Hm0).
  - exact (Hadd k m eq_refl Hk).
Qed.

Lemma pipeline_tags_closed this cmds st :
  tags_closed this st ->
  Forall (fun c => forall k m, c = SADD k m -> owns this k -> owns this m) cmds ->
  tags_closed this (pipeline_exec cmds st).
Proof.
  intros Hclosed H. revert st Hclosed.
  induction H as [|c cmds Hc _ IH]; intros st Hclosed; [exact Hclosed|].
  change (pipeline_exec (c :: cmds) st) with (pipeline_exec cmds (execute c st).2).
  apply IH, execute_tags_closed; assumption.
Qed.

Lemma own_commands_closed this cmds st :
  tags_closed this st -> Forall (own_command this) cmds ->
  tags_closed this (pipeline_exec cmds st).
Proof.
  intros Hclosed Hown. apply pipeline_tags_closed; [exact Hclosed|].
  eapply Forall_impl; [exact Hown|]. intros c [_ Hadd] k m E _. exact (Hadd k m E).
Qed.

Lemma foreign_commands_closed this1 this2 cmds st :
  independent this1 this2 = true ->
  well_formed (namespace this1) -> well_formed (namespace this2) ->
  tags_closed this1 st -> Forall (own_command this2) cmds ->
  tags_closed this1 (pipeline_exec cmds st).
Proof.
  intros Hind Hw1 Hw2 Hclosed Hown. apply pipeline_tags_closed; [exact Hclosed|].
  eapply Forall_impl; [exact Hown|]. intros c [Hw _] k m -> Hk.
  exfalso. apply (wire_disjoint this1 this2 k Hind Hw1 Hw2 (owns_wire _ _ Hk)).
  apply Hw. cbn. left.
Qed.

(** ** Every mutation is a run of the service's own commands *)

Lemma own_reads this c : command_writes c = [] -> (forall k m, c <> SADD k m) ->
  own_command this c.
Proof.
  intros Hw Hs. split.
  - intros k Hk. rewrite Hw in Hk. inversion Hk.
  - intros k m E. destruct (Hs k m E).
Qed.

Lemma own_DEL this ks :
  (forall k, k ∈ ks -> wire_owns this k) -> own_command this (DEL ks).
Proof. intros H. split; [exact H|]. intros k m E. discriminate E. Qed.

Lemma set_commands `{JSON} this key v ttl tags st :
  exists cmds, (set this key v ttl tags st).2 = pipeline_exec cmds st
               /\ Forall (own_command this) cmds.
Proof.
  unfold set. destruct (JSON_stringify v) as [s|]; [|exists []; split; [reflexivity|constructor]].
  eexists. split; [reflexivity|]. constructor.
  - split.
    + intros k Hk. apply list_elem_of_singleton in Hk as ->.
      apply owns_wire. eexists. reflexivity.
    + intros k m E. discriminate E.
  - destruct tags as [ts|]; [|constructor]. cbn [tag_commands].
    induction ts as [|tag ts IH]; [constructor|]. cbn [flat_map app].
    constructor; [|constructor; [|exact IH]].
    + split.
      * intros k Hk. apply list_elem_of_singleton in Hk as ->.
        apply owns_wire. eexists. reflexivity.
      * intros k m [= _ <-]. eexists. reflexivity.
    + split.
      * intros k Hk. apply list_elem_of_singleton in Hk as ->.
        apply owns_wire. eexists. reflexivity.
      * intros k m E. discriminate E.
Qed.

Lemma del_commands this key st :
  exists cmds, (del this key None st).2 = pipeline_exec cmds st
               /\ Forall (own_command this) cmds.
Proof.
  exists [DEL [generateKey this key None]]. split.
  - unfold del, pipeline_exec. cbn [fold_left].
    destruct (execute _ st) as [[] st']; reflexivity.
  - constructor; [|constructor]. apply own_DEL. intros k Hk.
    apply list_elem_of_singleton in Hk as ->. apply owns_wire. eexists. reflexivity.
Qed.

Lemma scan_loop_runs pattern fuel :
  forall cursor acc st r st',
  scan_loop fuel pattern cursor acc st = (r, st') ->
  (exists cmds, st' = pipeline_exec cmds st /\ Forall (is_scan pattern) cmds)
  /\ forall keys k, r = Collected keys -> k ∈ keys ->
       k ∈ acc \/ matches st pattern k = true.
Proof.
  induction fuel as [|fuel IH]; intros cursor acc st r st' E; cbn [scan_loop] in E.
  - injection E as <- <-. split; [exists []; split; [reflexivity|constructor]|].
    intros keys k Hr. discriminate Hr.
  - assert (Hpage : forall next keys,
              (execute (SCAN cursor pattern 100) st).1 = Page next keys ->
              forall k, k ∈ keys -> matches st pattern k = true).
    { unfold execute. rewrite online_record.
      destruct (online st); cbn [negb fst]; [|discriminate].
      unfold scan_page. cbn [fst]. intros next keys [= _ <-] k Hk.
      apply list_elem_of_filter in Hk as [Hk _].
      apply andb_true_iff in Hk as [_ Hk]. exact Hk. }
    pose proof (execute_SCAN_state st cursor pattern 100) as Hrec.
    destruct (execute (SCAN cursor pattern 100) st) as [reply st1] eqn:Ex.
    assert (Hst1 : st1 = pipeline_exec [SCAN cursor pattern 100] st).
    { unfold pipeline_exec. cbn [fold_left]. rewrite Ex. reflexivity. }
    cbn [fst snd] in Hpage, Hrec.
    destruct reply as [| | | | |next keys|];
      try (injection E as <- <-; split;
           [exists [SCAN cursor pattern 100]; split;
            [exact Hst1|repeat constructor; exists cursor; reflexivity]
           |intros ? ? Hr; discriminate Hr]).
    destruct (next =? 0)%nat.
    + injection E as <- <-. split.
      * exists [SCAN cursor pattern 100]. split; [exact Hst1|].
        repeat constructor. exists cursor. reflexivity.
      * intros ks k [= <-] Hk. apply elem_of_app in Hk as [Hk|Hk]; [left; exact Hk|].
        right. exact (Hpage next keys eq_refl k Hk).
    + destruct (IH _ _ _ _ _ E) as [(cmds & -> & Hcmds) Hkeys]. split.
      * exists (SCAN cursor pattern 100 :: cmds). split.
        -- rewrite Hst1. symmetry. apply (pipeline_exec_app [_] cmds).
        -- constructor; [exists cursor; reflexivity|exact Hcmds].
      * intros ks k Hr Hk.
        destruct (Hkeys ks k Hr Hk) as [Hacc|Hm]; [|right; rewrite Hrec in Hm; exact Hm].
        apply elem_of_app in Hacc as [Hacc|Hacc]; [left; exact Hacc|].
        right. exact (Hpage next keys eq_refl k Hacc).
Qed.

Lemma delete_loop_runs bs :
  forall total st,
  exists cmds, (delete_loop bs total st).2 = pipeline_exec cmds st
               /\ Forall (fun c => exists b, b ∈ bs /\ c = DEL b) cmds.
Proof.
  induction bs as [|b bs IH]; intros total st.
  - exists []. split; [reflexivity|constructor].
  - cbn [delete_loop].
    destruct (execute (DEL b) st) as [reply st1] eqn:Ex.
    assert (Hst1 : st1 = pipeline_exec [DEL b] st).
    { unfold pipeline_exec. cbn [fold_left]. rewrite Ex. reflexivity. }
    assert (Hb : Forall (fun c => exists b0, b0 ∈ b :: bs /\ c = DEL b0) [DEL b]).
    { repeat constructor. exists b. split; [left|reflexivity]. }
    destruct (IH (total + Z.of_nat (length b)) st1) as (cmds & E & Hcmds).
    assert (Hgo : exists cmds0,
              (delete_loop bs (total + Z.of_nat (length b)) st1).2
              = pipeline_exec cmds0 st
              /\ Forall (fun c => exists b0, b0 ∈ b :: bs /\ c = DEL b0) cmds0).
    { exists (DEL b :: cmds). split.
      - rewrite E, Hst1. symmetry. apply (pipeline_exec_app [_] cmds).
      - constructor; [exists b; split; [left|reflexivity]|].
        eapply Forall_impl; [exact Hcmds|]. intros c (b0 & Hb0 & ->).
        exists b0. split; [right; exact Hb0|reflexivity]. }
    destruct reply; try exact Hgo.
    exists [DEL b]. split; [exact Hst1|exact Hb].
Qed.

Lemma elem_of_concat {A} (x : A) (b : list A) (bs : list (list A)) :
  x ∈ b -> b ∈ bs -> x ∈ concat bs.
Proof.
  intros Hx Hb. induction Hb as [b bs|b b' bs _ IH]; cbn [concat];
    apply elem_of_app; [left; exact Hx|right; exact (IH Hx)].
Qed.

Lemma delPattern_commands this fuel pattern st n st' :
  glob_free (namespace this) = true ->
  delPattern fuel this pattern st = Some (n, st') ->
  exists cmds, st' = pipeline_exec cmds st /\ Forall (own_command this) cmds.
Proof.
  intros Hns. unfold delPattern.
  destruct (scan_loop fuel _ 0 [] st) as [r st1] eqn:Es.
  destruct (scan_loop_runs _ _ _ _ _ _ _ Es) as [(scans & -> & Hscans) Hkeys].
  assert (Hown_scans : Forall (own_command this) scans).
  { eapply Forall_impl; [exact Hscans|]. intros c (cursor & ->).
    apply own_reads; [reflexivity|discriminate]. }
  destruct r as [keys| |]; [| |discriminate].
  2:{ intros [= _ <-]. eauto. }
  assert (Hkeys' : forall k, k ∈ keys -> wire_owns this k).
  { intros k Hk. destruct (Hkeys keys k eq_refl Hk) as [Hnil|Hm]; [inversion Hnil|].
    exact (matches_wire_owns st this pattern k Hns Hm). }
  destruct keys as [|k0 ks]; [intros [= _ <-]; eauto|].
  intros E. apply (inj Some) in E.
  destruct (delete_loop_runs (batches (k0 :: ks)) 0
                            (pipeline_exec scans st)) as (dels & Ed & Hdels).
  rewrite E in Ed. cbn [snd] in Ed. subst st'.
  exists (scans ++ dels). split; [symmetry; apply pipeline_exec_app|].
  apply Forall_app. split; [exact Hown_scans|].
  eapply Forall_impl; [exact Hdels|]. intros c (b & Hb & ->).
  apply own_DEL. intros k Hk. apply Hkeys'.
  destruct (batches_spec (k0 :: ks)) as [<- _].
  exact (elem_of_concat k b _ Hk Hb).
Qed.

Lemma execute_SMEMBERS_reply st k keys st1 :
  execute (SMEMBERS k) st = (Array keys, st1) ->
  forall m, m ∈ keys -> exists ms d, live st k = Some (Entry (RSet ms) d) /\ m ∈ ms.
Proof.
  unfold execute. rewrite online_record.
  destruct (online st); cbn [negb]; [|discriminate]. rewrite live_record.
  destruct (live st k) as [[[s|ms] d]|]; [discriminate| |].
  - intros [= <- _] m Hm. apply elem_of_elements in Hm. eauto.
  - intros [= <- _] m Hm. inversion Hm.
Qed.

Lemma invalidate_commands this tags :
  forall total st,
  tags_closed this st ->
  exists cmds, (invalidate_loop this tags total st).2 = pipeline_exec cmds st
               /\ Forall (own_command this) cmds.
Proof.
  induction tags as [|tag tags IH]; intros total st Hclosed.
  - exists []. split; [reflexivity|constructor].
  - cbn [invalidate_loop].
    destruct (execute (SMEMBERS (tag_key this tag)) st) as [reply st1] eqn:Ex.
    assert (Hst1 : st1 = pipeline_exec [SMEMBERS (tag_key this tag)] st).
    { unfold pipeline_exec. cbn [fold_left]. rewrite Ex. reflexivity. }
    assert (Hread : Forall (own_command this) [SMEMBERS (tag_key this tag)]).
    { constructor; [|constructor]. apply own_reads; [reflexivity|discriminate]. }
    assert (Hc1 : tags_closed this st1).
    { rewrite Hst1. apply own_commands_closed; assumption. }
    destruct reply as [| | | |keys| |]; try (exists [SMEMBERS (tag_key this tag)]; split;
                                              [exact Hst1|exact Hread]).
    pose proof (execute_SMEMBERS_reply st _ keys st1 Ex) as Hmembers.
    destruct keys as [|k0 ks].
    + destruct (IH total st1 Hc1) as (cmds & -> & Hcmds).
      exists (SMEMBERS (tag_key this tag) :: cmds). split.
      * rewrite Hst1. symmetry. apply (pipeline_exec_app [_] cmds).
      * constructor; [apply own_reads; [reflexivity|discriminate]|exact Hcmds].
    + set (dels := map (fun k => DEL [k]) (k0 :: ks) ++ [DEL [tag_key this tag]]).
      assert (Hdels : Forall (own_command this) dels).
      { apply Forall_app. split.
        - apply Forall_fmap, Forall_forall. intros k Hk. apply own_DEL.
          intros k' Hk'. apply list_elem_of_singleton in Hk' as ->.
          destruct (Hmembers k Hk) as (ms & d & Hl & Hm).
          apply owns_wire.
          apply (Hclosed (tag_key this tag) ms d k); [eexists; reflexivity|exact Hl|exact Hm].
        - constructor; [|constructor]. apply own_DEL. intros k' Hk'.
          apply list_elem_of_singleton in Hk' as ->. apply owns_wire. eexists. reflexivity. }
      destruct (IH (total + Z.of_nat (length (k0 :: ks))) (pipeline_exec dels st1))
        as (cmds & -> & Hcmds).
      { apply own_commands_closed; assumption. }
      exists (SMEMBERS (tag_key this tag) :: dels ++ cmds). split.
      * rewrite Hst1, <- pipeline_exec_app. symmetry.
        apply (pipeline_exec_app [_] (dels ++ cmds)).
      * constructor; [apply own_reads; [reflexivity|discriminate]|].
        apply Forall_app. split; assumption.
Qed.

Lemma perform_commands `{JSON} this m st st' :
  glob_free (namespace this) = true -> tags_closed this st ->
  perform this m st = Some st' ->
  exists cmds, st' = pipeline_exec cmds st /\ Forall (own_command this) cmds.
Proof.
  intros Hns Hclosed. destruct m as [key v ttl tags|key|fuel pattern|tags]; cbn [perform].
  - intros [= <-]. destruct (set_commands this key v ttl tags st) as (cmds & -> & Hc). eauto.
  - intros [= <-]. destruct (del_commands this key st) as (cmds & -> & Hc). eauto.
  - destruct (delPattern fuel this pattern st) as [[n st2]|] eqn:E; [|discriminate].
    intros [= <-]. exact (delPattern_commands this fuel pattern st n st2 Hns E).
  - intros [= <-]. unfold invalidateByTags.
    destruct (invalidate_commands this tags 0 st Hclosed) as (cmds & -> & Hc). eauto.
Qed.

Lemma get_agrees `{JSON} this key ns st st' :
  online st' = online st ->
  live st' (generateKey this key ns) = live st (generateKey this key ns) ->
  (get this key ns st').1 = (get this key ns st).1.
Proof.
  intros Ho Hl. unfold get, execute. rewrite !online_record, Ho.
  destruct (online st); cbn [negb]; [|reflexivity].
  rewrite !live_record, Hl.
  destruct (live st _) as [[[s|ms] d]|]; try reflexivity.
  destruct s; [reflexivity|]. destruct (JSON_parse _); reflexivity.
Qed.

Lemma execute_EXPIRE_keeps_value st tk k data d e :
  1 <= e ->
  live st k = Some (Entry (RString data) d) ->
  exists d', live (execute (EXPIRE tk e) st).2 k = Some (Entry (RString data) d').
Proof.
  intros He Hk. destruct (decide (tk = k)) as [->|Hne].
  2:{ rewrite execute_other; [eauto|]. cbn. rewrite list_elem_of_singleton. congruence. }
  unfold execute. rewrite online_record.
  destruct (online st); cbn [negb snd]; [|rewrite live_record; eauto].
  destruct (expire_lifetime _ e); cbn [snd]; [rewrite live_record; eauto|].
  rewrite live_record, Hk. destruct (Z.leb_spec e 0); [lia|]. cbn [snd].
  rewrite (live_insert (record_command _ st)).
  destruct (decide (k = k)); [|contradiction].
  unfold expired. cbn [deadline clock record_command].
  destruct (Z.leb_spec (clock st + e) (clock st)); [lia|eauto].
Qed.

Lemma execute_SADD_keeps_value st tk member k data d :
  live st k = Some (Entry (RString data) d) ->
  live (execute (SADD tk member) st).2 k = Some (Entry (RString data) d).
Proof.
  intros Hk. destruct (decide (tk = k)) as [->|Hne].
  2:{ rewrite execute_other; [exact Hk|]. cbn. rewrite list_elem_of_singleton. congruence. }
  unfold execute. rewrite online_record.
  destruct (online st); cbn [negb snd]; [|rewrite live_record; exact Hk].
  rewrite live_record, Hk. cbn [snd]. rewrite live_record. exact Hk.
Qed.

Lemma tagging_keeps_value this fk e tags st k data d :
  1 <= e ->
  live st k = Some (Entry (RString data) d) ->
  exists d', live (pipeline_exec (tag_commands this fk e tags) st) k
             = Some (Entry (RString data) d').
Proof.
  intros He. destruct tags as [ts|]; [|eauto]. cbn [tag_commands].
  revert st d. induction ts as [|tag ts IH]; intros st d Hk; [eauto|].
  cbn [flat_map app]. unfold pipeline_exec. cbn [fold_left].
  pose proof (execute_SADD_keeps_value st (tag_key this tag) fk k data d Hk) as H1.
  destruct (execute_EXPIRE_keeps_value _ (tag_key this tag) k data d e He H1) as [d' H2].
  exact (IH _ d' H2).
Qed.

Lemma tags_closed_fresh this : tags_closed this fresh_redis.
Proof. intros k ms d m _ Hl. discriminate Hl. Qed.

Lemma set_keeps_other_value `{JSON} this key v ttl tags st k data d :
  1 <= effective_ttl this ttl ->
  k <> generateKey this key None ->
  live st k = Some (Entry (RString data) d) ->
  exists d', live (set this key v ttl tags st).2 k = Some (Entry (RString data) d').
Proof.
  intros Ht Hne Hk. unfold set. destruct (JSON_stringify v) as [s|]; [|eauto].
  cbn [snd].
  change (pipeline_exec (?c :: ?cs) st) with (pipeline_exec cs (execute c st).2).
  apply (tagging_keeps_value this _ _ tags _ k data d Ht).
  rewrite execute_other; [exact Hk|]. cbn. rewrite list_elem_of_singleton. exact Hne.
Qed.

(** C7 (as amended).  Two services with different, well formed namespaces
    never share the store key of one and the same key, neither as a string
    nor as the text the server holds, so after both have stored under a key
    each reads its own value back.  Two independent services (well formed
    namespaces without pattern characters, neither [ns:] a prefix of the
    other) do not interact at all: no key of one has the text of a key of
    the other, and whatever one of them sets, deletes, deletes by pattern or
    invalidates by tags, every key of the other keeps what it held and every
    [get] of the other answers as before, as long as tag sets list keys of
    their own service, which these calls preserve. *)
Theorem namespaces_isolated `{JSON} this1 this2 :
  well_formed (namespace this1) -> well_formed (namespace this2) ->
  (namespace this1 <> namespace this2 ->
   forall key v1 v2 ttl1 ttl2 tags1 tags2 st,
     generateKey this1 key None <> generateKey this2 key None
     /\ Buffer_from (generateKey this1 key None)
        <> Buffer_from (generateKey this2 key None)
     /\ (online st = true -> serializable v1 -> serializable v2 ->
         accepted_ttl st (effective_ttl this1 ttl1) ->
         accepted_ttl st (effective_ttl this2 ttl2) ->
         let st' := (set this2 key v2 ttl2 tags2
                       (set this1 key v1 ttl1 tags1 st).2).2 in
         (get this1 key None st').1 = v1 /\ (get this2 key None st').1 = v2))
  /\ (independent this1 this2 = true ->
      (forall key1 key2,
         Buffer_from (generateKey this1 key1 None)
         <> Buffer_from (generateKey this2 key2 None))
      /\ forall m st st',
           tags_closed this2 st -> perform this2 m st = Some st' ->
           (forall k, owns this1 k -> live st' k = live st k)
           /\ (forall key, (get this1 key None st').1 = (get this1 key None st).1)
           /\ tags_closed this2 st'
           /\ (tags_closed this1 st -> tags_closed this1 st')).
Proof.
  intros Hw1 Hw2. split.
  - intros Hns key v1 v2 ttl1 ttl2 tags1 tags2 st.
    pose proof (namespaces_differ_keys_differ this1 this2 key Hns) as Hkeys.
    split; [exact Hkeys|].
    split; [exact (namespaces_differ_texts_differ this1 this2 key Hw1 Hw2 Hns)|].
    intros Ho (s1 & Hs1 & Htext1 & Hparse1) (s2 & Hs2 & Htext2 & Hparse2) Ht1 Ht2.
    destruct (set_stores this1 key v1 ttl1 tags1 st s1 Ho Ht1 Hs1) as (Ho1 & Hc1 & Hl1).
    set (st1 := (set this1 key v1 ttl1 tags1 st).2) in *.
    pose proof (accepted_ttl_clock st st1 _ Hc1 Ht2) as Ht2'.
    destruct (set_stores this2 key v2 ttl2 tags2 st1 s2 Ho1 Ht2' Hs2) as (Ho2 & _ & Hl2).
    destruct (set_keeps_other_value this2 key v2 ttl2 tags2 st1 _ _ _
                (accepted_ttl_positive _ _ Ht2) Hkeys Hl1)
      as (d' & Hl1').
    cbv zeta. set (st2 := (set this2 key v2 ttl2 tags2 st1).2) in *.
    destruct (json_text_not_marked s1 Htext1) as [Hmark1 Hne1].
    destruct (json_text_not_marked s2 Htext2) as [Hmark2 Hne2].
    split.
    + rewrite (get_live_string this1 key None st2 _ _ Ho2 Hl1')
        by (apply compress_nonempty, Hne1).
      rewrite decompress_compress by (auto; left; apply Htext1).
      rewrite Hparse1. reflexivity.
    + rewrite (get_live_string this2 key None st2 _ _ Ho2 Hl2)
        by (apply compress_nonempty, Hne2).
      rewrite decompress_compress by (auto; left; apply Htext2).
      rewrite Hparse2. reflexivity.
  - intros Hind. split.
    { intros key1 key2 E.
      apply (wire_disjoint this1 this2 (generateKey this1 key1 None) Hind Hw1 Hw2).
      - apply owns_wire. eexists. reflexivity.
      - unfold wire_owns. rewrite E. apply owns_wire. eexists. reflexivity. }
    intros m st st' Hclosed Hperform.
    assert (Hglob : glob_free (namespace this2) = true).
    { unfold independent in Hind. rewrite !andb_true_iff in Hind. tauto. }
    destruct (perform_commands this2 m st st' Hglob Hclosed Hperform)
      as (cmds & -> & Hcmds).
    assert (Hframe : forall k, owns this1 k -> live (pipeline_exec cmds st) k = live st k).
    { intros k Hk.
      exact (own_commands_frame this1 this2 cmds st k Hind Hw1 Hw2 Hcmds Hk). }
    split; [exact Hframe|]. split; [|split].
    + intros key. apply get_agrees.
      * apply pipeline_frame.
      * apply Hframe. eexists. reflexivity.
    + apply own_commands_closed; assumption.
    + intros Hclosed1.
      exact (foreign_commands_closed this1 this2 cmds st Hind Hw1 Hw2 Hclosed1 Hcmds).
Qed.

Lemma namespaces_isolated_witness :
  let prod := new_CacheService (Some (str "prod:api")) None in
  let dev := new_CacheService (Some (str "dev:api")) None in
  let st1 := (@set sample_JSON prod (str "user:1") (JStr (str "ann")) None
                (Some [str "users"]) fresh_redis).2 in
  let st := (@set sample_JSON dev (str "user:1") (JStr (str "bob")) None
               (Some [str "users"]) st1).2 in
  let st' := (invalidateByTags dev [str "users"] st).2 in
  (@get sample_JSON prod (str "user:1") None st').1
  = (@get sample_JSON prod (str "user:1") None st).1
  /\ (@get sample_JSON prod (str "user:1") None st').1 = JStr (str "ann")
  /\ (@get sample_JSON dev (str "user:1") None st').1 = JNull.
Proof.
  split; [|vm_compute; split; reflexivity].
  pose (prod := new_CacheService (Some (str "prod:api")) None).
  pose (dev := new_CacheService (Some (str "dev:api")) None).
  assert (Hprod : well_formed (namespace prod)) by (apply well_formedb_sound; reflexivity).
  assert (Hdev : well_formed (namespace dev)) by (apply well_formedb_sound; reflexivity).
  destruct (@namespaces_isolated sample_JSON prod dev Hprod Hdev) as [_ Hiso].
  destruct (Hiso eq_refl) as [_ Hcalls].
  specialize (Hcalls (CallInvalidateByTags [str "users"])).
  cbv zeta.
  set (st1 := (@set sample_JSON prod (str "user:1") (JStr (str "ann")) None
                 (Some [str "users"]) fresh_redis).2).
  set (st := (@set sample_JSON dev (str "user:1") (JStr (str "bob")) None
                (Some [str "users"]) st1).2).
  assert (Hclosed : tags_closed dev st).
  { destruct (@set_commands sample_JSON dev (str "user:1") (JStr (str "bob")) None
                (Some [str "users"]) st1) as (cmds2 & E2 & Hc2).
    destruct (@set_commands sample_JSON prod (str "user:1") (JStr (str "ann")) None
                (Some [str "users"]) fresh_redis) as (cmds1 & E1 & Hc1).
    unfold st. rewrite E2. apply own_commands_closed; [|exact Hc2].
    unfold st1. rewrite E1.
    apply (foreign_commands_closed dev prod);
      [reflexivity|exact Hdev|exact Hprod|apply tags_closed_fresh|exact Hc1]. }
  destruct (Hcalls st _ Hclosed eq_refl) as (_ & Hget & _).
  exact (Hget (str "user:1")).
Defined.

(** C7 as stated fails for namespaces one of which continues the other:
    the key [api:user] of namespace [prod] and the key [user] of namespace
    [prod:api] are the same store key, so each service reads, overwrites and
    deletes what the other stored. *)
Lemma C7_counterexample :
  let prod := new_CacheService (Some (str "prod")) None in
  let api := new_CacheService (Some (str "prod:api")) None in
  let st := (@set sample_JSON prod (str "api:user") (JStr (str "ann")) None None
               fresh_redis).2 in
  namespace prod <> namespace api
  /\ (@get sample_JSON api (str "user") None st).1 = JStr (str "ann")
  /\ (@get sample_JSON prod (str "api:user") None (del api (str "user") None st).2).1
     = JNull.
Proof. split; [vm_compute; discriminate|]. vm_compute. split; reflexivity. Qed.

(** It fails as well for namespaces that differ in an unpaired surrogate
    only: the server holds the two as one text, U+FFFD. *)
Example ill_formed_namespaces_share_keys :
  let this1 := new_CacheService (Some [0xD800]) None in
  let this2 := new_CacheService (Some [0xD801]) None in
  namespace this1 <> namespace this2
  /\ independent this1 this2 = true
  /\ forall key, Buffer_from (generateKey this1 key None)
                 = Buffer_from (generateKey this2 key None).
Proof.
  split; [discriminate|]. split; [reflexivity|].
  intros key. rewrite !generateKey_wire. reflexivity.
Qed.


(** ** A route served end to end *)

Lemma default_key_no_user `{Crypto} config config' req req' :
  truthy (user_id req) = false -> truthy (user_id req') = false ->
  method req' = method req -> path req' = path req -> query req' = query req ->
  default_key config req = default_key config' req'.
Proof.
  intros Hu Hu' Hm Hp Hq. unfold default_key, query_value.
  rewrite Hu, Hu', Hm, Hp, Hq, !andb_false_r. reflexivity.
Qed.

Lemma cacheMiddleware_auto `{JSON} `{Crypto} config req res st :
  let autoCache := default no_autoCache (cfg_autoCache config) in
  let ttl := default 3600 (cfg_ttl config) in
  let this := new_CacheService (cfg_namespace config) (Some ttl) in
  default auto (cfg_strategy config) = auto ->
  method req = str "GET" ->
  ac_enabled autoCache <> Some false ->
  default (fun _ => true) (ac_condition autoCache) req = true ->
  cacheMiddleware config req res st
  = auto_cache (implement this) autoCache ttl req res st.
Proof.
  intros autoCache ttl this Hs Hm Hen Hcond.
  unfold cacheMiddleware. fold autoCache ttl. rewrite Hs.
  rewrite bool_decide_eq_true_2 by exact Hm.
  rewrite bool_decide_eq_false_2 by exact Hen.
  replace (match ac_condition autoCache with
           | Some condition => condition req | None => true end) with true
    by (symmetry; destruct (ac_condition autoCache); exact Hcond).
  reflexivity.
Qed.

Lemma auto_cache_miss `{JSON} `{Crypto} this config ttl req res st :
  let key := default (default_key config) (ac_keyGenerator config) req in
  (get this key None st).1 = JNull ->
  auto_cache (implement this) config ttl req res st
  = (Next, with_cacheKey key req,
     install {| wrap_key := key; wrap_ttl := ttl; wrap_tags := ac_tags config |}
       (setHeader (str "X-Cache-Key") key
          (setHeader (str "X-Cache") (str "MISS") res)),
     record_command (GET (generateKey this key None)) st).
Proof.
  intros key Hnull. unfold auto_cache. fold key. cbn [implement ics_get].
  pose proof (get_state this key None st) as Hst.
  destruct (get this key None st) as [v st']. cbn [fst snd] in *. subst. reflexivity.
Qed.

Lemma auto_cache_hit `{JSON} `{Crypto} this config ttl req res st v :
  let key := default (default_key config) (ac_keyGenerator config) req in
  (get this key None st).1 = v -> v <> JNull ->
  auto_cache (implement this) config ttl req res st
  = (Responded, with_cacheKey key req,
     send v (setHeader (str "X-Cache-Key") key
               (setHeader (str "X-Cache") (str "HIT") res)),
     record_command (GET (generateKey this key None)) st).
Proof.
  intros key Hv Hnn. unfold auto_cache. fold key. cbn [implement ics_get].
  pose proof (get_state this key None st) as Hst.
  destruct (get this key None st) as [v' st']. cbn [fst snd] in *. subst.
  destruct v; try reflexivity. contradiction.
Qed.

(** X1.  With a TTL the server accepts, the first GET of a route misses and
    its 2xx response is stored; a
    second request without a user id and with the same method, path and query
    is then answered from the cache with the same body, under the same key,
    and the handler is not called. *)
Theorem miss_then_shared_hit `{JSON} `{Crypto} config handler handler' req req'
    st code data :
  let autoCache := default no_autoCache (cfg_autoCache config) in
  let ttl := default 3600 (cfg_ttl config) in
  let this := new_CacheService (cfg_namespace config) (Some ttl) in
  let key := default_key autoCache req in
  default auto (cfg_strategy config) = auto ->
  ac_enabled autoCache <> Some false ->
  ac_keyGenerator autoCache = None ->
  ac_condition autoCache = None ->
  method req = str "GET" ->
  method req' = method req -> path req' = path req -> query req' = query req ->
  truthy (user_id req) = false -> truthy (user_id req') = false ->
  online st = true -> accepted_ttl st ttl ->
  (get this key None st).1 = JNull ->
  handler (with_cacheKey key req) = (code, data) ->
  200 <= code < 300 -> serializable data -> data <> JNull ->
  let '(res1, st1) := serve config handler req st in
  let '(res2, _) := serve config handler' req' st1 in
  getHeader (str "X-Cache") res1 = Some (str "MISS")
  /\ body res1 = Some data
  /\ getHeader (str "X-Cache") res2 = Some (str "HIT")
  /\ body res2 = Some data
  /\ getHeader (str "X-Cache-Key") res2 = getHeader (str "X-Cache-Key") res1.
Proof.
  intros autoCache ttl this key Hs Hen Hgen Hcond Hm Hm' Hp' Hq' Hu Hu' Ho Ht
    Hmiss Hh Hcode (s & Hs' & Htext & Hparse) Hnn.
  assert (Hkey : default (default_key autoCache) (ac_keyGenerator autoCache) req = key)
    by (rewrite Hgen; reflexivity).
  assert (Hkey' : default (default_key autoCache) (ac_keyGenerator autoCache) req' = key).
  { rewrite Hgen. cbn [default]. symmetry.
    apply default_key_no_user; assumption. }
  assert (Hc : forall r, default (fun _ => true) (ac_condition autoCache) r = true)
    by (intros r; rewrite Hcond; reflexivity).
  unfold serve at 1.
  rewrite cacheMiddleware_auto; [|exact Hs|exact Hm|exact Hen|exact (Hc req)].
  fold autoCache ttl this.
  rewrite auto_cache_miss by (rewrite Hkey; exact Hmiss). rewrite Hkey, Hh.
  unfold res_json. cbn [wrapper with_status install statusCode].
  destruct (Z.leb_spec 200 code); [|lia]. destruct (Z.ltb_spec code 300); [|lia].
  cbn [andb wrap_key wrap_ttl wrap_tags implement ics_set].
  set (st0 := record_command (GET (generateKey this key None)) st).
  set (tags := Some (resolve_tags (ac_tags autoCache) (with_cacheKey key req))).
  assert (Hte : accepted_ttl st0 (effective_ttl this (Some ttl)))
    by (rewrite effective_ttl_positive by exact (accepted_ttl_positive _ _ Ht); exact Ht).
  destruct (set_stores this key data (Some ttl) tags st0 s Ho Hte Hs') as (Ho1 & _ & Hl1).
  destruct (set this key data (Some ttl) tags st0) as [ok st1]. cbn [snd] in *.
  unfold serve.
  rewrite cacheMiddleware_auto;
    [|exact Hs|rewrite Hm'; exact Hm|exact Hen|exact (Hc req')].
  fold autoCache ttl this.
  destruct (json_text_not_marked s Htext) as [Hmark Hne].
  rewrite (auto_cache_hit this autoCache ttl req' blank_response st1 data);
    [|rewrite Hkey'|exact Hnn].
  2:{ rewrite (get_live_string this key None st1 _ _ Ho1 Hl1)
        by (apply compress_nonempty, Hne).
      rewrite decompress_compress by (auto; left; apply Htext).
      rewrite Hparse. reflexivity. }
  rewrite Hkey'.
  split; [|split; [reflexivity|split; [|split; [reflexivity|]]]].
  - unfold send, with_status, install, getHeader. cbn [headers].
    change (getHeader (str "X-Cache")
              (setHeader (str "X-Cache-Key") key
                 (setHeader (str "X-Cache") (str "MISS") blank_response))
            = Some (str "MISS")).
    rewrite getHeader_setHeader_other by exact header_names_differ.
    apply getHeader_setHeader.
  - change (getHeader (str "X-Cache")
              (setHeader (str "X-Cache-Key") key
                 (setHeader (str "X-Cache") (str "HIT") blank_response))
            = Some (str "HIT")).
    rewrite getHeader_setHeader_other by exact header_names_differ.
    apply getHeader_setHeader.
  - reflexivity.
Qed.

Lemma miss_then_shared_hit_witness :
  let config := {| cfg_strategy := None; cfg_ttl := Some 300; cfg_namespace := None;
                   cfg_autoCache :=
                     Some {| ac_enabled := None; ac_keyGenerator := None;
                             ac_tags := Some (StaticTags [str "users"]);
                             ac_includeAuth := true; ac_condition := None |} |} in
  let users := JArr [JObj [(str "id", JNum 1); (str "name", JStr (str "Alice"))];
                     JObj [(str "id", JNum 2); (str "name", JStr (str "Bob"))]] in
  let req := {| method := str "GET"; path := str "/api/users";
                query := [(str "page", JStr (str "1"))];
                user_id := JUndefined; cacheKey := None |} in
  let req' := {| method := str "GET"; path := str "/api/users";
                 query := [(str "page", JStr (str "1"))];
                 user_id := JNum 0; cacheKey := None |} in
  let '(res1, st1) :=
    @serve sample_JSON sample_Crypto config (fun _ => (200, users)) req fresh_redis in
  let '(res2, _) :=
    @serve sample_JSON sample_Crypto config (fun _ => (500, JNull)) req' st1 in
  getHeader (str "X-Cache") res1 = Some (str "MISS")
  /\ body res1 = Some users
  /\ getHeader (str "X-Cache") res2 = Some (str "HIT")
  /\ body res2 = Some users
  /\ getHeader (str "X-Cache-Key") res2 = getHeader (str "X-Cache-Key") res1.
Proof.
  apply (@miss_then_shared_hit sample_JSON sample_Crypto
           {| cfg_strategy := None; cfg_ttl := Some 300; cfg_namespace := None;
              cfg_autoCache :=
                Some {| ac_enabled := None; ac_keyGenerator := None;
                        ac_tags := Some (StaticTags [str "users"]);
                        ac_includeAuth := true; ac_condition := None |} |}
           (fun _ => (200, JArr [JObj [(str "id", JNum 1); (str "name", JStr (str "Alice"))];
                                 JObj [(str "id", JNum 2); (str "name", JStr (str "Bob"))]]))
           (fun _ => (500, JNull))
           {| method := str "GET"; path := str "/api/users";
              query := [(str "page", JStr (str "1"))];
              user_id := JUndefined; cacheKey := None |}
           {| method := str "GET"; path := str "/api/users";
              query := [(str "page", JStr (str "1"))];
              user_id := JNum 0; cacheKey := None |}
           fresh_redis 200);
    try reflexivity; try discriminate; try lia; try accept_ttl.
  eexists. split; [vm_compute; reflexivity|]. split; [split|].
  - apply well_formedb_sound. vm_compute. reflexivity.
  - vm_compute. reflexivity.
  - vm_compute. reflexivity.
Defined.

(** ** What a write does to a tag set *)





(** ** Invalidating twice *)

Lemma SMEMBERS_reply_agrees st st' k :
  online st' = online st -> live st' k = live st k ->
  (execute (SMEMBERS k) st').1 = (execute (SMEMBERS k) st).1.
Proof.
  intros Ho Hl. unfold execute. rewrite !online_record, Ho.
  destruct (online st); cbn [negb]; [|reflexivity].
  rewrite !live_record, Hl. destruct (live st k) as [[[?|?] ?]|]; reflexivity.
Qed.

Lemma execute_SMEMBERS_state st k :
  (execute (SMEMBERS k) st).2 = record_command (SMEMBERS k) st.
Proof.
  unfold execute. rewrite online_record. destruct (online st); [|reflexivity].
  cbn [negb]. destruct (live _ k) as [[[?|?] ?]|]; reflexivity.
Qed.

Lemma settled_agrees this tags st st' :
  online st' = online st -> (forall k, live st' k = live st k) ->
  settled this tags st -> settled this tags st'.
Proof.
  intros Ho Hl. induction tags as [|tag tags IH]; [auto|]. cbn [settled].
  rewrite (SMEMBERS_reply_agrees st st' _ Ho (Hl _)).
  destruct (execute _ st).1 as [| | | |[|? ?]| |]; auto.
Qed.

Lemma quiet_spec st k :
  quiet st k <->
  online st = true
  /\ match live st k with
     | Some (Entry (RSet ms) _) => elements ms = []
     | Some (Entry (RString _) _) => False
     | None => True
     end.
Proof.
  unfold quiet, execute. rewrite online_record.
  destruct (online st); cbn [negb fst]; [|split; [discriminate|intros [? _]; discriminate]].
  rewrite live_record. destruct (live st k) as [[[s|ms] d]|]; cbn [fst].
  - split; [discriminate|tauto].
  - split; [intros [= E]; auto|intros [_ ->]; reflexivity].
  - tauto.
Qed.

Lemma quiet_after_DELs st k cmds :
  Forall (fun c => exists ks, c = DEL ks) cmds ->
  quiet st k -> quiet (pipeline_exec cmds st) k.
Proof.
  intros H. revert st. induction H as [|c cmds (ks & ->) _ IH]; intros st Hq; [exact Hq|].
  change (pipeline_exec (DEL ks :: cmds) st) with (pipeline_exec cmds (execute (DEL ks) st).2).
  apply IH. apply quiet_spec in Hq as [Ho Hl]. apply quiet_spec.
  destruct (execute_frame (DEL ks) st) as [-> _]. split; [exact Ho|].
  destruct (execute_DEL st ks Ho) as [n ->]. cbn [snd].
  destruct (del_keys_spec ks (record_command (DEL ks) st)) as (_ & _ & _ & ->).
  destruct (decide (k ∈ ks)); [exact I|]. rewrite live_record. exact Hl.
Qed.

Lemma quiet_after_read st k k' : quiet st k -> quiet (execute (SMEMBERS k') st).2 k.
Proof.
  intros Hq. rewrite execute_SMEMBERS_state. unfold quiet in *.
  rewrite <- Hq. apply SMEMBERS_reply_agrees; reflexivity.
Qed.

Lemma invalidation_commands_are_DELs (tagKey : jsstring) (keys : list jsstring) :
  Forall (fun c => exists ks, c = DEL ks)
    (map (fun k => DEL [k]) keys ++ [DEL [tagKey]]).
Proof.
  apply Forall_app. split.
  - apply Forall_fmap, Forall_forall. intros k _. eexists. reflexivity.
  - constructor; [eexists; reflexivity|constructor].
Qed.

Lemma invalidate_loop_quiet this tags :
  forall total st k, quiet st k -> quiet (invalidate_loop this tags total st).2 k.
Proof.
  induction tags as [|tag tags IH]; intros total st k Hq; [exact Hq|].
  cbn [invalidate_loop].
  pose proof (quiet_after_read st k (tag_key this tag) Hq) as Hq1.
  destruct (execute (SMEMBERS (tag_key this tag)) st) as [reply st1].
  cbn [snd] in Hq1. destruct reply as [| | | |[|k0 ks]| |]; try exact Hq1.
  - apply IH, Hq1.
  - apply IH, quiet_after_DELs; [apply invalidation_commands_are_DELs|exact Hq1].
Qed.

Lemma quiet_after_DEL_self st k cmds :
  online st = true -> quiet (pipeline_exec (cmds ++ [DEL [k]]) st) k.
Proof.
  intros Ho. rewrite pipeline_exec_app.
  assert (Ho1 : online (pipeline_exec cmds st) = true)
    by (destruct (pipeline_frame cmds st) as [-> _]; exact Ho).
  generalize dependent (pipeline_exec cmds st). intros st1 Ho1.
  unfold pipeline_exec. cbn [fold_left]. apply quiet_spec.
  destruct (execute_frame (DEL [k]) st1) as [-> _]. split; [exact Ho1|].
  destruct (execute_DEL st1 [k] Ho1) as [n ->]. cbn [snd].
  destruct (del_keys_spec [k] (record_command (DEL [k]) st1)) as (_ & _ & _ & ->).
  destruct (decide (k ∈ [k])) as [_|Hn]; [exact I|]. exfalso. apply Hn. left.
Qed.

Lemma settled_after this tags :
  forall total st, settled this tags (invalidate_loop this tags total st).2.
Proof.
  induction tags as [|tag tags IH]; intros total st; [exact I|].
  cbn [invalidate_loop].
  pose proof (execute_SMEMBERS_state st (tag_key this tag)) as Hst1.
  destruct (execute (SMEMBERS (tag_key this tag)) st) as [reply st1] eqn:Ex.
  cbn [snd] in Hst1.
  assert (Hreply : (execute (SMEMBERS (tag_key this tag)) st1).1 = reply).
  { rewrite Hst1, (SMEMBERS_reply_agrees st (record_command _ st)), Ex; reflexivity. }
  destruct reply as [| | | |[|k0 ks]| |];
    try (cbn [snd settled]; rewrite Hreply; exact I).
  - cbn [settled].
    pose proof (invalidate_loop_quiet this tags total st1 _ Hreply) as Hq.
    unfold quiet in Hq. rewrite Hq. apply IH.
  - cbn [settled].
    assert (Ho1 : online st1 = true).
    { destruct (online st1) eqn:Ho1; [reflexivity|].
      rewrite (execute_offline _ st1 Ho1) in Hreply. discriminate Hreply. }
    pose proof (quiet_after_DEL_self st1 (tag_key this tag)
                  (map (fun k => DEL [k]) (k0 :: ks)) Ho1) as Hq2.
    pose proof (invalidate_loop_quiet this tags
                  (total + Z.of_nat (length (k0 :: ks))) _ _ Hq2) as Hq.
    unfold quiet in Hq. rewrite Hq. apply IH.
Qed.

Lemma settled_returns_zero this tags :
  forall st, settled this tags st ->
  (invalidate_loop this tags 0 st).1 = 0
  /\ db (invalidate_loop this tags 0 st).2 = db st.
Proof.
  induction tags as [|tag tags IH]; intros st Hs; [split; reflexivity|].
  cbn [settled] in Hs. cbn [invalidate_loop].
  pose proof (execute_SMEMBERS_state st (tag_key this tag)) as Hst1.
  destruct (execute (SMEMBERS (tag_key this tag)) st) as [reply st1].
  cbn [fst snd] in *. subst st1.
  destruct reply as [| | | |[|k0 ks]| |]; try (split; reflexivity); [|contradiction].
  apply (IH (record_command _ st)).
  apply (settled_agrees this tags st); [reflexivity|reflexivity|exact Hs].
Qed.

(** X3.  Invalidating the same tags a second time removes nothing and
    returns 0, whatever the store held and whether or not it can be
    reached. *)
Theorem invalidateByTags_twice this tags st :
  let st' := (invalidateByTags this tags st).2 in
  (invalidateByTags this tags st').1 = 0
  /\ db (invalidateByTags this tags st').2 = db st'.
Proof.
  intros st'. apply settled_returns_zero. apply settled_after.
Qed.

(** ** What invalidating one tag removes and counts *)




(** ** How long an entry lives *)



Lemma live_advance st seconds k v D :
  db st !! k = Some (Entry v (Some D)) ->
  live (advance seconds st) k
  = if D <=? clock st + seconds then None else Some (Entry v (Some D)).
Proof. intros Hdb. unfold live. cbn [db clock advance]. rewrite Hdb. reflexivity. Qed.

Lemma get_absent `{JSON} this key ns st :
  live st (generateKey this key ns) = None -> (get this key ns st).1 = JNull.
Proof.
  intros Hl. unfold get, execute. rewrite online_record.
  destruct (online st); cbn [negb]; [|reflexivity].
  rewrite live_record, Hl. reflexivity.
Qed.



(** ** Deleting a key *)

Lemma del_reachable this key ns st :
  online st = true ->
  (del this key ns st).1 = true
  /\ online (del this key ns st).2 = true
  /\ forall k, live (del this key ns st).2 k
               = if decide (k = generateKey this key ns) then None else live st k.
Proof.
  intros Ho. unfold del. set (fk := generateKey this key ns).
  destruct (execute_DEL st [fk] Ho) as [n ->]. cbn [fst snd].
  destruct (del_keys_spec [fk] (record_command (DEL [fk]) st)) as (Ho' & _ & _ & Hl).
  split; [reflexivity|]. split; [rewrite Ho'; exact Ho|].
  intros k. rewrite Hl, live_record.
  destruct (decide (k ∈ [fk])) as [Hin|Hin]; destruct (decide (k = fk)) as [E|E];
    try reflexivity; exfalso.
  - apply list_elem_of_singleton in Hin. contradiction.
  - apply Hin. subst k. left.
Qed.


(** ** When the server cannot be reached *)

(** X7.  When a ping is not answered, no method of the service fails: [get]
    answers [null], [exists] [false], [ttl] [-1], [incr] [0], [del] [false],
    [invalidateByTags] and [delPattern] [0], and [set] still answers [true]
    for every value that can be serialized.  None of them changes the key
    space. *)
Theorem unreachable_server_answers `{JSON} this key v t tags pattern fuel st :
  checkRedisHealth st = false ->
  healthCheck this st = false
  /\ (get this key None st).1 = JNull
  /\ (exists_ this key st).1 = false
  /\ (ttl this key st).1 = -1
  /\ (incr this key st).1 = 0
  /\ (del this key None st).1 = false
  /\ (invalidateByTags this tags st).1 = 0
  /\ fst <$> delPattern (S fuel) this pattern st = Some 0
  /\ ((set this key v t (Some tags) st).1 = true <-> JSON_stringify v <> None)
  /\ Forall (fun st' => db st' = db st)
       [(get this key None st).2; (exists_ this key st).2; (ttl this key st).2;
        (incr this key st).2; (del this key None st).2;
        (invalidateByTags this tags st).2; (set this key v t (Some tags) st).2]
  /\ (db ∘ snd) <$> delPattern (S fuel) this pattern st = Some (db st).
Proof.
  unfold checkRedisHealth, healthCheck, redis_ping. intros Ho.
  assert (Hinv : (invalidateByTags this tags st).1 = 0
                 /\ db (invalidateByTags this tags st).2 = db st).
  { unfold invalidateByTags. destruct tags as [|tag tags]; [split; reflexivity|].
    cbn [invalidate_loop]. rewrite execute_offline by exact Ho. split; reflexivity. }
  assert (Hpat : delPattern (S fuel) this pattern st
                 = Some (0, record_command (SCAN 0 (generateKey this pattern None) 100) st)).
  { unfold delPattern. cbn [scan_loop]. rewrite execute_offline by exact Ho.
    reflexivity. }
  assert (Hincr : incr this key st = (0, st)).
  { unfold incr, redis_incr. rewrite Ho. reflexivity. }
  split; [exact Ho|].
  split; [unfold get; rewrite execute_offline by exact Ho; reflexivity|].
  split; [unfold exists_; rewrite execute_offline by exact Ho; reflexivity|].
  split; [unfold ttl; rewrite execute_offline by exact Ho; reflexivity|].
  split; [rewrite Hincr; reflexivity|].
  split; [unfold del; rewrite execute_offline by exact Ho; reflexivity|].
  split; [apply Hinv|].
  split; [rewrite Hpat; reflexivity|].
  split; [unfold set; destruct (JSON_stringify v); cbn [fst]; split; congruence|].
  split; [|rewrite Hpat; reflexivity].
  repeat apply Forall_cons_2; try apply Forall_nil_2.
  - rewrite get_state. reflexivity.
  - unfold exists_. rewrite execute_offline by exact Ho. reflexivity.
  - unfold ttl. rewrite execute_offline by exact Ho. reflexivity.
  - rewrite Hincr. reflexivity.
  - unfold del. rewrite execute_offline by exact Ho. reflexivity.
  - apply Hinv.
  - apply set_offline_db, Ho.
Qed.

Lemma unreachable_server_answers_witness :
  let this := new_CacheService None None in
  let st := (@set sample_JSON this (str "k") (JNum 1) None (Some [str "t"]) fresh_redis).2 in
  let down := {| online := false; clock := clock st; db := db st; sent := sent st;
                 rescanned := rescanned st; signed_chars := signed_chars st |} in
  (@get sample_JSON this (str "k") None st).1 = JNum 1
  /\ (@get sample_JSON this (str "k") None down).1 = JNull
  /\ (@set sample_JSON this (str "k") (JNum 2) None (Some [str "t"]) down).1 = true
  /\ (ttl this (str "k") down).1 = -1.
Proof.
  pose (this := new_CacheService None None).
  pose (st := (@set sample_JSON this (str "k") (JNum 1) None (Some [str "t"]) fresh_redis).2).
  pose (down := {| online := false; clock := clock st; db := db st; sent := sent st;
                 rescanned := rescanned st; signed_chars := signed_chars st |}).
  destruct (@unreachable_server_answers sample_JSON this (str "k") (JNum 2) None
              [str "t"] (str "*") 0%nat down eq_refl)
    as (_ & Hget & _ & Httl & _ & _ & _ & _ & Hset & _).
  split; [vm_compute; reflexivity|].
  split; [exact Hget|]. split; [|exact Httl].
  apply Hset. vm_compute. discriminate.
Defined.

(** ** More on getOrSet *)

(** X8.  On a miss, a fetcher that fails and then succeeds when the handler
    calls it again has run twice; [getOrSet] returns the second result but
    does not store it, so the key still misses afterwards. *)
Theorem getOrSet_retry_is_not_stored `{JSON} {W} this key (fetch : fetcher W)
    t tags st w e w1 data w2 :
  (get this key None st).1 = JNull ->
  fetch w = (Thrown e, w1) ->
  fetch w1 = (Returned data, w2) ->
  let '(result, st', (_, calls)) :=
    getOrSet this key (counted fetch) t tags st (w, 0%nat) in
  result = Returned data
  /\ calls = 2%nat
  /\ db st' = db st
  /\ (get this key None st').1 = JNull.
Proof.
  intros Hmiss Hf1 Hf2. unfold getOrSet.
  assert (Hafter : (get this key None
                      (record_command (GET (generateKey this key None)) st)).1 = JNull)
    by (rewrite <- Hmiss; apply get_agrees; reflexivity).
  pose proof (get_state this key None st) as Hst.
  destruct (get this key None st) as [cached st1]. cbn [fst snd] in *. subst.
  cbn [not_null counted]. rewrite Hf1. cbn [counted]. rewrite Hf2.
  split; [reflexivity|]. split; [reflexivity|]. split; [reflexivity|exact Hafter].
Qed.

Lemma getOrSet_retry_is_not_stored_witness :
  let this := new_CacheService None None in
  let fetch : fetcher bool :=
    fun failed => if failed then (Returned (JNum 7), true)
                  else (Thrown (JStr (str "timeout")), true) in
  let '(result, st', (_, calls)) :=
    @getOrSet sample_JSON _ this (str "k") (counted fetch) None None fresh_redis
      (false, 0%nat) in
  result = Returned (JNum 7)
  /\ calls = 2%nat
  /\ db st' = db fresh_redis
  /\ (@get sample_JSON this (str "k") None st').1 = JNull.
Proof.
  apply (@getOrSet_retry_is_not_stored sample_JSON bool (new_CacheService None None)
           (str "k")
           (fun failed => if failed then (Returned (JNum 7), true)
                          else (Thrown (JStr (str "timeout")), true))
           None None fresh_redis false (JStr (str "timeout")) true (JNum 7) true);
    reflexivity.
Defined.

Lemma getOrSet_calls_app `{JSON} {W} this key (fetch : fetcher W) t tags ps qs :
  forall st w,
  getOrSet_calls this key fetch t tags (ps ++ qs) st w
  = let '(rs, st1, w1) := getOrSet_calls this key fetch t tags ps st w in
    let '(rs', st2, w2) := getOrSet_calls this key fetch t tags qs st1 w1 in
    (rs ++ rs', st2, w2).
Proof.
  induction ps as [|p ps IH]; intros st w; cbn [app getOrSet_calls].
  - destruct (getOrSet_calls this key fetch t tags qs st w) as [[rs' st2] w2].
    reflexivity.
  - destruct (getOrSet this key fetch t tags (advance p st) w) as [[r st1] w1].
    rewrite IH.
    destruct (getOrSet_calls this key fetch t tags ps st1 w1) as [[rs st2] w2].
    destruct (getOrSet_calls this key fetch t tags qs st2 w2) as [[rs' st3] w3].
    reflexivity.
Qed.

(** The state after a run of hits: the same key space and clock moved on by
    the pauses. *)
Lemma getOrSet_calls_hits_state `{JSON} {W} this key (fetch : fetcher W) t tags
    data D v pauses :
  data <> [] -> JSON_parse (decompress data) = Some v -> v <> JNull ->
  Forall (fun p => 0 <= p) pauses ->
  forall st w,
  online st = true ->
  db st !! generateKey this key None = Some (Entry (RString data) (Some D)) ->
  clock st + foldr Z.add 0 pauses < D ->
  exists st',
    getOrSet_calls this key fetch t tags pauses st w
    = (repeat (Returned v) (length pauses), st', w)
    /\ online st' = true /\ db st' = db st
    /\ clock st' = clock st + foldr Z.add 0 pauses.
Proof.
  intros Hd Hp Hv. induction 1 as [|p ps Hp0 Hps IH]; intros st w Ho Hdb Hc.
  - exists st. cbn. repeat split; auto. lia.
  - cbn [getOrSet_calls foldr length repeat] in *.
    assert (0 <= foldr Z.add 0 ps) by (clear -Hps; induction Hps; cbn; lia).
    rewrite (getOrSet_hit this key fetch t tags (advance p st) w v);
      [|apply (get_hit this key _ data D); auto; cbn; lia|exact Hv].
    edestruct (IH (record_command (GET (generateKey this key None)) (advance p st)) w)
      as (st' & -> & Ho' & Hdb' & Hc'); [exact Ho|exact Hdb|cbn; lia|].
    exists st'. split; [reflexivity|]. split; [exact Ho'|].
    split; [exact Hdb'|]. rewrite Hc'. cbn. lia.
Qed.

(** X9.  Hits do not prolong an entry.  After a miss has stored the fetched
    value with a TTL the server accepts, calls within the TTL return it
    without fetching; the first call
    made once the TTL has passed since the value was stored fetches again,
    however many hits came in between. *)
Theorem getOrSet_refetches_after_ttl `{JSON} {W} this key (fetch : fetcher W)
    t tags v w w1 v' w2 pause pauses late st :
  online st = true ->
  accepted_ttl (advance pause st) (effective_ttl this t) ->
  (get this key None (advance pause st)).1 = JNull ->
  fetch w = (Returned v, w1) ->
  fetch w1 = (Returned v', w2) ->
  serializable v -> v <> JNull ->
  Forall (fun p => 0 <= p) pauses ->
  foldr Z.add 0 pauses < effective_ttl this t ->
  effective_ttl this t <= foldr Z.add 0 pauses + late ->
  let '(results, _, (_, calls)) :=
    getOrSet_calls this key (counted fetch) t tags (pause :: pauses ++ [late]) st
      (w, 0%nat) in
  results = repeat (Returned v) (S (length pauses)) ++ [Returned v']
  /\ calls = 2%nat.
Proof.
  intros Ho Ht Hmiss Hf Hf' (s & Hs & Htext & Hparse) Hv Hps Hsum Hlate.
  cbn [getOrSet_calls]. unfold getOrSet at 1.
  pose proof (get_state this key None (advance pause st)) as Hst.
  destruct (get this key None (advance pause st)) as [cached st1].
  cbn [fst snd] in Hmiss, Hst. subst cached. cbn [not_null].
  cbn [counted]. rewrite Hf.
  assert (Ho1 : online st1 = true) by (subst st1; exact Ho).
  assert (Ht1 : accepted_ttl st1 (effective_ttl this t)) by (subst st1; exact Ht).
  destruct (set_stores this key v t tags st1 s Ho1 Ht1 Hs) as (Ho2 & Hc2 & Hl2).
  destruct (set this key v t tags st1) as [ok st2]. cbn [snd] in *.
  destruct (json_text_not_marked s Htext) as [Hmark Hne].
  rewrite getOrSet_calls_app.
  apply live_Some_db in Hl2.
  edestruct (getOrSet_calls_hits_state this key (counted fetch) t tags
               (compress this s) (clock st1 + effective_ttl this t) v pauses)
    as (st3 & -> & Ho3 & Hdb3 & Hc3);
    [apply compress_nonempty, Hne
    |rewrite decompress_compress by (auto; left; apply Htext); exact Hparse
    |exact Hv|exact Hps|exact Ho2|exact Hl2|lia|].
  cbn [getOrSet_calls]. unfold getOrSet.
  pose proof (get_state this key None (advance late st3)) as Hst4.
  assert (Hgone : (get this key None (advance late st3)).1 = JNull).
  { apply get_absent. rewrite (live_advance st3 late _ _ _ ltac:(rewrite Hdb3; exact Hl2)).
    destruct (Z.leb_spec (clock st1 + effective_ttl this t) (clock st3 + late));
      [reflexivity|lia]. }
  destruct (get this key None (advance late st3)) as [cached st4].
  cbn [fst snd] in Hgone, Hst4. subst cached. cbn [not_null counted].
  rewrite Hf'.
  destruct (set this key v' t tags st4) as [ok' st5].
  split; reflexivity.
Qed.

Lemma getOrSet_refetches_after_ttl_witness :
  let this := new_CacheService (Some (str "test")) (Some 60) in
  let fetch : fetcher Z := fun n => (Returned (JNum n), n + 1) in
  let '(results, _, (_, calls)) :=
    @getOrSet_calls sample_JSON _ this (str "latest") (counted fetch)
      (Some 30) None [0; 10; 10; 9; 1] fresh_redis (1, 0%nat) in
  results = [Returned (JNum 1); Returned (JNum 1); Returned (JNum 1);
             Returned (JNum 1); Returned (JNum 2)]
  /\ calls = 2%nat.
Proof.
  apply (@getOrSet_refetches_after_ttl sample_JSON Z
           (new_CacheService (Some (str "test")) (Some 60)) (str "latest")
           (fun n => (Returned (JNum n), n + 1)) (Some 30) None
           (JNum 1) 1 2 (JNum 2) 3 0 [10; 10; 9] 1 fresh_redis).
  - reflexivity.
  - accept_ttl.
  - vm_compute. reflexivity.
  - reflexivity.
  - reflexivity.
  - eexists. split; [vm_compute; reflexivity|]. split; [split|].
    + apply well_formedb_sound. vm_compute. reflexivity.
    + vm_compute. reflexivity.
    + vm_compute. reflexivity.
  - discriminate.
  - repeat constructor; lia.
  - vm_compute. reflexivity.
  - vm_compute. discriminate.
Defined.

(** ** The size of what is stored *)

Lemma length_base64 bs :
  (length (Buffer_toString_base64 bs) = 4 * ((length bs + 2) / 3))%nat.
Proof.
  induction bs as [|a|a b|a b c l IH] using list_ind3; try reflexivity.
  cbn [Buffer_toString_base64 length]. rewrite IH.
  replace (S (S (S (length l))) + 2)%nat with (1 * 3 + (length l + 2))%nat by lia.
  rewrite Nat.div_add_l by lia. lia.
Qed.

Lemma length_utf8_encode_scalar cp :
  (1 <= length (utf8_encode_scalar cp))%nat
  /\ (0x10000 <= cp -> length (utf8_encode_scalar cp) = 4%nat).
Proof.
  unfold utf8_encode_scalar.
  destruct (Z.ltb_spec cp 0x80); [cbn; split; [lia|lia]|].
  destruct (Z.ltb_spec cp 0x800); [cbn; split; [lia|lia]|].
  destruct (Z.ltb_spec cp 0x10000); cbn; split; lia.
Qed.

Lemma length_utf16_scalars_bytes n :
  forall s, (length s <= n)%nat -> (length s <= length (Buffer_from s))%nat.
Proof.
  unfold Buffer_from.
  induction n as [|n IH]; intros [|u rest] Hn; cbn [length] in *; try lia.
  cbn [utf16_scalars].
  destruct (is_high_surrogate u) eqn:Hh.
  - destruct rest as [|l rest'].
    + cbn. lia.
    + destruct (is_low_surrogate l) eqn:Hl.
      * cbn [flat_map length]. rewrite length_app.
        destruct (surrogate_bounds u l Hh Hl) as [Hu Hl'].
        destruct (length_utf8_encode_scalar
                    (0x10000 + (u - 0xD800) * 1024 + (l - 0xDC00))) as [_ H4].
        rewrite H4 by lia.
        specialize (IH rest' ltac:(cbn [length] in Hn; lia)). lia.
      * cbn [flat_map]. rewrite length_app.
        specialize (IH (l :: rest') ltac:(lia)). cbn [length] in *.
        change (length (utf8_encode_scalar 65533)) with 3%nat. lia.
  - destruct (is_low_surrogate u).
    + cbn [flat_map]. rewrite length_app.
      specialize (IH rest ltac:(lia)).
      change (length (utf8_encode_scalar 65533)) with 3%nat. lia.
    + cbn [flat_map]. rewrite length_app.
      destruct (length_utf8_encode_scalar u) as [H1 _].
      specialize (IH rest ltac:(lia)). lia.
Qed.

(** X10.  [compress] never makes a string shorter.  Up to the threshold the
    string is stored as it is; above it what is stored is the 11-character
    marker and four characters for every three UTF-8 bytes of the string, of
    which there are at least as many as the string has code units: more than
    a third longer than the string itself. *)
Theorem compress_never_shrinks this data :
  let stored := length (compress this data) in
  if compressionThreshold this <? Z.of_nat (length data)
  then stored = (11 + 4 * ((length (Buffer_from data) + 2) / 3))%nat
       /\ (length data <= length (Buffer_from data))%nat
       /\ (4 * length data + 33 <= 3 * stored)%nat
  else compress this data = data.
Proof.
  intros stored. subst stored. unfold compress.
  destruct (compressionThreshold this <? Z.of_nat (length data)); [|reflexivity].
  rewrite length_app, length_base64.
  pose proof (length_utf16_scalars_bytes (length data) data (le_n _)) as Hb.
  change (length (str "compressed:")) with 11%nat.
  split; [reflexivity|]. split; [exact Hb|].
  pose proof (Nat.div_mod_eq (length (Buffer_from data) + 2) 3) as Hd.
  pose proof (Nat.mod_upper_bound (length (Buffer_from data) + 2) 3 ltac:(lia)) as Hm.
  lia.
Qed.

(** ** Reaching into another namespace *)

Lemma generateKey_override this other key :
  namespace other <> [] ->
  generateKey this key (Some (namespace other)) = generateKey other key None.
Proof.
  intros Hne. unfold generateKey. destruct (namespace other); [contradiction|reflexivity].
Qed.

(** X11.  [get] and [del] take a namespace in place of the service's own,
    [set] does not: what a service of namespace [ns] has stored under a key
    with a TTL the server accepts,
    any other service reads with [get(key, ns)] and removes with
    [del(key, ns)], after which the owner's [get] returns [null].  An empty
    string as namespace stands for the service's own. *)
Theorem namespace_override `{JSON} this other key v t tags st :
  namespace other <> [] ->
  online st = true -> serializable v -> accepted_ttl st (effective_ttl other t) ->
  let ns := Some (namespace other) in
  let st1 := (set other key v t tags st).2 in
  (get this key ns st1).1 = v
  /\ (del this key ns st1).1 = true
  /\ (get other key None (del this key ns st1).2).1 = JNull
  /\ get this key (Some []) st1 = get this key None st1.
Proof.
  intros Hne Ho (s & Hs & Htext & Hparse) Ht ns st1.
  destruct (set_stores other key v t tags st s Ho Ht Hs) as (Ho1 & _ & Hl1).
  fold st1 in Ho1, Hl1.
  destruct (json_text_not_marked s Htext) as [Hmark Hne'].
  assert (Hk : generateKey this key ns = generateKey other key None)
    by (apply generateKey_override, Hne).
  split.
  { unfold get. rewrite Hk. fold (get other key None st1).
    rewrite (get_live_string other key None st1 _ _ Ho1 Hl1)
      by (apply compress_nonempty, Hne').
    rewrite decompress_compress by (auto; left; apply Htext).
    rewrite Hparse. reflexivity. }
  destruct (del_reachable this key ns st1 Ho1) as (Hd & _ & Hl).
  split; [exact Hd|]. split; [|reflexivity].
  apply get_absent. rewrite Hl, Hk.
  destruct (decide (generateKey other key None = generateKey other key None));
    [reflexivity|contradiction].
Qed.

Lemma namespace_override_witness :
  let web := new_CacheService (Some (str "web")) None in
  let admin := new_CacheService (Some (str "admin")) None in
  let st1 := (@set sample_JSON web (str "page") (JStr (str "home")) None None fresh_redis).2 in
  (@get sample_JSON admin (str "page") (Some (str "web")) st1).1 = JStr (str "home")
  /\ (del admin (str "page") (Some (str "web")) st1).1 = true
  /\ (@get sample_JSON web (str "page") None
        (del admin (str "page") (Some (str "web")) st1).2).1 = JNull
  /\ @get sample_JSON admin (str "page") (Some []) st1
     = @get sample_JSON admin (str "page") None st1.
Proof.
  apply (@namespace_override sample_JSON (new_CacheService (Some (str "admin")) None)
           (new_CacheService (Some (str "web")) None) (str "page")
           (JStr (str "home")) None None fresh_redis).
  - discriminate.
  - reflexivity.
  - eexists. split; [vm_compute; reflexivity|]. split; [split|].
    + apply well_formedb_sound. vm_compute. reflexivity.
    + vm_compute. reflexivity.
    + vm_compute. reflexivity.
  - accept_ttl.
Defined.

(** ** Two patterns: everything, and one key *)

Lemma glob_match_star sg s : glob_match sg (str "*") s = true.
Proof.
  change (glob_match sg (str "*") s) with (tokens_match sg [Star] s).
  induction s as [|c s IH]; [reflexivity|].
  cbn [tokens_match] in *. rewrite IH. reflexivity.
Qed.

Lemma glob_match_plain sg p k : glob_free p = true -> glob_match sg p k = true <-> k = p.
Proof.
  intros Hp. rewrite <- (app_nil_r p) at 1. rewrite glob_match_prefix by exact Hp.
  split.
  - intros (key & -> & Hm). destruct key; [apply app_nil_r|discriminate Hm].
  - intros ->. exists []. split; [symmetry; apply app_nil_r|reflexivity].
Qed.

Lemma NoDup_only {A} (a : A) (l : list A) :
  NoDup l -> (forall x, x ∈ l <-> x = a) -> l = [a].
Proof.
  intros Hnd Hl. destruct l as [|x l].
  - exfalso. destruct (Hl a) as [_ Ha]. specialize (Ha eq_refl). inversion Ha.
  - assert (x = a) by (apply Hl; left). subst x.
    destruct l as [|y l]; [reflexivity|]. exfalso.
    assert (y = a) by (apply Hl; right; left). subst y.
    apply NoDup_cons in Hnd as [Hnot _]. apply Hnot. left.
Qed.

Lemma filter_nothing {A} (P : A -> Prop) `{forall x, Decision (P x)} (l : list A) :
  (forall x, ~ P x) -> filter P l = [].
Proof.
  intros HP. induction l as [|x l IH]; [reflexivity|].
  rewrite filter_cons. destruct (decide (P x)) as [Hx|]; [destruct (HP x Hx)|exact IH].
Qed.

(** Under [*], what a scan finds among well formed keys is what starts with
    [ns:]. *)
Lemma matches_star st this k :
  glob_free (namespace this) = true ->
  well_formed (namespace this) -> well_formed k ->
  matches st (generateKey this (str "*") None) k
  = starts_with (namespace this ++ str ":") k.
Proof.
  intros Hns Hwf Hk. apply eq_true_iff_eq.
  rewrite matches_namespace_key by assumption.
  rewrite <- owns_spec. unfold owns. split.
  - intros (key & -> & _). exists key. reflexivity.
  - intros (key & ->). exists key. split; [reflexivity|apply glob_match_star].
Qed.

(** X12.  The pattern [*] empties the namespace: on a reachable server whose
    keys are well formed, for a well formed namespace without pattern
    characters, [delPattern('*')] removes every key that starts with
    [namespace:], the tag sets among them, and leaves every other key as it
    was.  It returns how many of these keys were there, and one more for
    each time a scan has come across one of them again. *)
Theorem delPattern_star_clears_namespace this st fuel :
  online st = true ->
  glob_free (namespace this) = true ->
  well_formed (namespace this) ->
  well_formed_keys st ->
  (length (scan_walk st) < fuel)%nat ->
  let prefix := namespace this ++ str ":" in
  exists st',
    delPattern fuel this (str "*") st
    = Some (Z.of_nat
              (length (filter (fun k => is_live st k && starts_with prefix k = true)
                         (table st))
               + length (filter (fun k => is_live st k && starts_with prefix k = true)
                           (rescanned st))), st')
    /\ (forall k, live st' k = if starts_with prefix k then None else live st k)
    /\ (forall tag, live st' (tag_key this tag) = None).
Proof.
  intros Ho Hns Hwf Hkeys Hfuel prefix.
  destruct (delPattern_spec this (str "*") st fuel Ho Hfuel)
    as (st' & scans & E & Hlive & _).
  assert (Hm : forall k, is_live st k && matches st (generateKey this (str "*") None) k = true
                         <-> is_live st k && starts_with prefix k = true).
  { intros k. rewrite !andb_true_iff. split; intros [Hl H]; (split; [exact Hl|]);
      pose proof (matches_star st this k Hns Hwf (well_formed_live st k Hkeys Hl)) as Em;
      fold prefix in Em; congruence. }
  assert (Hl : forall k, live st' k = if starts_with prefix k then None else live st k).
  { intros k. rewrite Hlive.
    destruct (decide (k ∈ matching st (generateKey this (str "*") None))) as [Hin|Hin];
      rewrite elem_of_matching, <- andb_true_iff, Hm, andb_true_iff in Hin.
    - destruct Hin as [_ ->]. reflexivity.
    - destruct (starts_with prefix k); [|reflexivity].
      unfold is_live in Hin. destruct (live st k); [|reflexivity].
      exfalso. apply Hin. split; reflexivity. }
  exists st'. split; [|split; [exact Hl|]].
  - rewrite E, length_app. unfold matching, repeated.
    rewrite (list_filter_iff _ _ (table st) Hm).
    rewrite (list_filter_iff _ _ (rescanned st) Hm). reflexivity.
  - intros tag. rewrite Hl.
    replace (starts_with prefix (tag_key this tag)) with true; [reflexivity|].
    symmetry. apply owns_spec. eexists. reflexivity.
Qed.

Lemma delPattern_star_clears_namespace_witness :
  let this := new_CacheService (Some (str "test")) (Some 60) in
  let other := new_CacheService (Some (str "prod")) (Some 60) in
  let st1 := (@set sample_JSON this (str "user:1") (JNum 1) None (Some [str "users"])
                fresh_redis).2 in
  let st := (@set sample_JSON other (str "user:1") (JNum 2) None None st1).2 in
  exists st',
    delPattern 4 this (str "*") st = Some (2, st')
    /\ (forall k, live st' k
                  = if starts_with (str "test:") k then None else live st k)
    /\ (forall tag, live st' (tag_key this tag) = None).
Proof.
  apply (delPattern_star_clears_namespace (new_CacheService (Some (str "test")) (Some 60))).
  - reflexivity.
  - reflexivity.
  - apply well_formedb_sound. reflexivity.
  - apply well_formed_keys_sound. vm_compute. reflexivity.
  - vm_compute. lia.
Defined.

(** X13.  A well formed pattern without pattern characters names one key:
    on a server whose keys are well formed, [delPattern(key)] then removes
    that key and nothing else, as [del(key)] does.  It returns 0 when the
    key was not there; when it was, 1 and one more for each time a scan has
    come across the key again. *)
Theorem delPattern_plain_key this key st fuel :
  online st = true ->
  glob_free (namespace this) = true ->
  glob_free key = true ->
  well_formed (namespace this) ->
  well_formed key ->
  well_formed_keys st ->
  (length (scan_walk st) < fuel)%nat ->
  let fk := generateKey this key None in
  exists st',
    delPattern fuel this key st
    = Some (if is_live st fk
            then 1 + Z.of_nat (length (filter (fun k => k = fk) (rescanned st)))
            else 0, st')
    /\ forall k, live st' k = if decide (k = fk) then None else live st k.
Proof.
  intros Ho Hns Hkey Hwf Hwfk Hkeys Hfuel fk.
  destruct (delPattern_spec this key st fuel Ho Hfuel)
    as (st' & scans & E & Hlive & _). fold fk in E, Hlive.
  assert (Hfree : glob_free (Buffer_from fk) = true).
  { apply glob_free_wire. unfold fk.
    rewrite generateKey_own, !glob_free_app, Hns, Hkey. reflexivity. }
  assert (Hfk : well_formed fk).
  { unfold fk. rewrite generateKey_own, app_assoc.
    apply well_formed_app; [apply well_formed_prefix, Hwf|exact Hwfk]. }
  assert (Hin : forall k, k ∈ matching st fk <-> is_live st k = true /\ k = fk).
  { intros k. rewrite elem_of_matching. unfold matches.
    rewrite glob_match_plain by exact Hfree. split.
    - intros [Hl Eb]. split; [exact Hl|].
      apply Buffer_from_inj; [exact (well_formed_live st k Hkeys Hl)|exact Hfk|exact Eb].
    - intros [Hl ->]. auto. }
  exists st'. split.
  - rewrite E. do 2 f_equal. rewrite length_app, repeated_matching.
    destruct (is_live st fk) eqn:Hl.
    + rewrite (NoDup_only fk (matching st fk)); [|apply NoDup_matching|].
      2:{ intros k. rewrite Hin. split; [tauto|]. intros ->. auto. }
      replace (filter (fun k => k ∈ [fk]) (rescanned st))
        with (filter (fun k => k = fk) (rescanned st))
        by (apply list_filter_iff; intros k; rewrite list_elem_of_singleton; reflexivity).
      cbn [length]. lia.
    + destruct (matching st fk) as [|k l] eqn:Em.
      * rewrite filter_nothing; [reflexivity|]. intros k Hk. inversion Hk.
      * exfalso. destruct (Hin k) as [Hk _].
        destruct Hk as [Hk ->]; [left|]. congruence.
  - intros k. rewrite Hlive.
    destruct (decide (k ∈ matching st fk)) as [Hk|Hk]; rewrite Hin in Hk.
    + destruct Hk as [_ ->]. destruct (decide (fk = fk)); [reflexivity|contradiction].
    + destruct (decide (k = fk)) as [->|]; [|reflexivity].
      unfold is_live in Hk. destruct (live st fk); [|reflexivity].
      exfalso. apply Hk. auto.
Qed.

Lemma delPattern_plain_key_witness :
  let this := new_CacheService (Some (str "test")) (Some 60) in
  let st := (@set sample_JSON this (str "user:1") (JNum 1) None None fresh_redis).2 in
  exists st',
    delPattern 2 this (str "user:1") st = Some (1, st')
    /\ forall k, live st' k
                 = if decide (k = str "test:user:1") then None else live st k.
Proof.
  apply (delPattern_plain_key (new_CacheService (Some (str "test")) (Some 60))
           (str "user:1")).
  - reflexivity.
  - reflexivity.
  - reflexivity.
  - apply well_formedb_sound. reflexivity.
  - apply well_formedb_sound. reflexivity.
  - apply well_formed_keys_sound. vm_compute. reflexivity.
  - vm_compute. lia.
Defined.

(** ** Tagging and invalidating *)









(** ** Counters *)

Lemma unstr_str s : unstr (str s) = Some s.
Proof.
  unfold str. induction s as [|a s IH]; [reflexivity|].
  cbn [list_ascii_of_string map unstr].
  pose proof (N_ascii_bounded a) as Ha.
  destruct (Z.leb_spec 0 (Z.of_N (N_of_ascii a))); [|lia].
  destruct (Z.ltb_spec (Z.of_N (N_of_ascii a)) 256); [|lia].
  cbn [andb]. rewrite IH, N2Z.id, ascii_N_embedding. reflexivity.
Qed.

Lemma string2ll_decimal n :
  - 2 ^ 63 <= n < 2 ^ 63 -> string2ll (decimal n) = Some n.
Proof.
  intros Hn. unfold string2ll, decimal. rewrite unstr_str. cbn [mbind option_bind].
  rewrite NilZero.isi.
  - rewrite DecimalZ.of_to. fold (decimal n).
    rewrite bool_decide_eq_true_2 by reflexivity.
    destruct (Z.leb_spec (- 2 ^ 63) n); [|lia].
    destruct (Z.ltb_spec n (2 ^ 63)); [|lia]. reflexivity.
  - destruct n as [|p|p]; cbn [Z.to_int]; try discriminate.
    intros [= E]. exact (Unsigned.to_uint_nonnil p E).
  - destruct n as [|p|p]; cbn [Z.to_int]; try discriminate.
    intros [= E]. exact (Unsigned.to_uint_nonnil p E).
Qed.

(** A decimal starts with a digit or the minus sign. *)
Lemma decimal_head n :
  exists c rest, decimal n = c :: rest /\ (c = 45 \/ 48 <= c <= 57).
Proof.
  assert (Hu : forall u, exists c rest,
               str (NilZero.string_of_uint u) = c :: rest /\ 48 <= c <= 57).
  { intros u. destruct u; cbn [NilZero.string_of_uint NilEmpty.string_of_uint];
      eexists; eexists; (split; [reflexivity|cbn; lia]). }
  unfold decimal. destruct (Z.to_int n) as [u|u]; cbn [NilZero.string_of_int].
  - destruct (Hu u) as (c & rest & E & Hc). exists c, rest. auto.
  - exists 45, (str (NilZero.string_of_uint u)). split; [reflexivity|left; reflexivity].
Qed.

Lemma string2ll_head s n :
  string2ll s = Some n ->
  exists c rest, s = c :: rest /\ (c = 45 \/ 48 <= c <= 57).
Proof.
  unfold string2ll. destruct (unstr s ≫= NilZero.int_of_string) as [d|]; [|discriminate].
  cbv zeta. destruct (bool_decide_reflect (decimal (Z.of_int d) = s)) as [E|];
    [|discriminate].
  intros _. rewrite <- E. apply decimal_head.
Qed.


Lemma redis_incr_frame k st :
  online (redis_incr k st).2 = online st /\ clock (redis_incr k st).2 = clock st
  /\ forall k', k' <> k -> live (redis_incr k st).2 k' = live st k'.
Proof.
  unfold redis_incr. destruct (online st) eqn:Ho; cbn [negb]; [|auto].
  destruct (live st k) as [[[s|ms] d]|]; cbn [snd]; auto.
  - destruct (string2ll s) as [n|]; cbn [snd]; auto.
    destruct (n <? 2 ^ 63 - 1); cbn [snd]; auto.
    split; [exact Ho|]. split; [reflexivity|]. intros k' Hne.
    rewrite live_insert. destruct (decide (k = k')); [congruence|reflexivity].
  - split; [exact Ho|]. split; [reflexivity|]. intros k' Hne.
    rewrite live_insert. destruct (decide (k = k')); [congruence|reflexivity].
Qed.




(** X17.  [incr] on a key that holds a value cached with a TTL the server
    accepts.  When the value's JSON
    text is an integer (below the compression threshold in length), the
    stored text is replaced by the next integer and keeps the expiry [set]
    gave it.  When the text does not start with a digit or a minus sign (any
    value but a number) [incr] answers [0], as it does when the server fails,
    and the entry stays as it is. *)
Theorem incr_on_cached_value `{JSON} this key v t tags st s :
  online st = true ->
  accepted_ttl st (effective_ttl this t) ->
  JSON_stringify v = Some s ->
  let st1 := (set this key v t tags st).2 in
  (forall n, s = decimal n -> - 2 ^ 53 < n < 2 ^ 53 ->
             Z.of_nat (length s) <= compressionThreshold this ->
     (incr this key st1).1 = n + 1
     /\ live (incr this key st1).2 (generateKey this key None)
        = Some (Entry (RString (decimal (n + 1)))
                      (Some (clock st + effective_ttl this t))))
  /\ ((forall c rest, s = c :: rest -> c <> 45 /\ ~ 48 <= c <= 57) ->
      incr this key st1 = (0, st1)).
Proof.
  intros Ho Ht Hs st1.
  destruct (set_stores this key v t tags st s Ho Ht Hs) as (Ho1 & _ & Hl1).
  fold st1 in Ho1, Hl1. split.
  - intros n -> Hn Hshort. rewrite compress_short in Hl1 by exact Hshort.
    unfold incr, redis_incr. rewrite Ho1, Hl1. cbn [negb].
    rewrite string2ll_decimal by lia.
    destruct (Z.ltb_spec n (2 ^ 63 - 1)); [|lia]. cbn [fst snd].
    split; [reflexivity|].
    rewrite live_insert.
    destruct (decide (generateKey this key None = generateKey this key None));
      [|contradiction].
    pose proof (live_Some_db _ _ _ Hl1) as Hdb. unfold live in Hl1. rewrite Hdb in Hl1.
    unfold expired in *. cbn [deadline] in *.
    destruct (clock st + effective_ttl this t <=? clock st1); [discriminate|reflexivity].
  - intros Hhead. unfold incr, redis_incr. rewrite Ho1, Hl1. cbn [negb].
    destruct (string2ll (compress this s)) as [n|] eqn:E; [|reflexivity].
    exfalso. apply string2ll_head in E as (c & rest & E & Hc).
    unfold compress in E. destruct (_ <? _).
    + destruct marker_head as [m Hm]. rewrite Hm in E. injection E as <- _. lia.
    + destruct (Hhead c rest E). lia.
Qed.

Lemma incr_on_cached_value_witness :
  let this := new_CacheService (Some (str "test")) (Some 60) in
  let st1 := (@set sample_JSON this (str "stock") (JNum 41) (Some 30) None fresh_redis).2 in
  let st2 := (@set sample_JSON this (str "name") (JStr (str "41")) None None st1).2 in
  ((incr this (str "stock") st1).1 = 42
   /\ live (incr this (str "stock") st1).2 (str "test:stock")
      = Some (Entry (RString (str "42")) (Some 30)))
  /\ incr this (str "name") st2 = (0, st2).
Proof.
  split.
  - destruct (@incr_on_cached_value sample_JSON
                (new_CacheService (Some (str "test")) (Some 60)) (str "stock")
                (JNum 41) (Some 30) None fresh_redis (str "41") eq_refl
                ltac:(accept_ttl) eq_refl) as [Hnumber _].
    apply (Hnumber 41 eq_refl); [lia|cbn; lia].
  - destruct (@incr_on_cached_value sample_JSON
                (new_CacheService (Some (str "test")) (Some 60)) (str "name")
                (JStr (str "41")) None None
                (@set sample_JSON (new_CacheService (Some (str "test")) (Some 60))
                   (str "stock") (JNum 41) (Some 30) None fresh_redis).2
                (json_of (JStr (str "41"))) eq_refl ltac:(accept_ttl) eq_refl)
      as [_ Hother].
    apply Hother. intros c rest [= <- _]. lia.
Defined.

(** ** More on routes *)











(** ** The default key *)

Lemma string_ltb_irrefl a : string_ltb a a = false.
Proof.
  induction a as [|x a IH]; [reflexivity|].
  cbn [string_ltb]. rewrite Z.ltb_irrefl, Z.eqb_refl, IH. reflexivity.
Qed.

Lemma string_le_antisym a b : string_le a b -> string_le b a -> a = b.
Proof.
  unfold string_le. revert b. induction a as [|x a IH]; intros [|y b]; cbn [string_ltb];
    try discriminate; [reflexivity|].
  intros Hab Hba.
  apply orb_false_iff in Hab as [Hyx Hab], Hba as [Hxy Hba].
  apply Z.ltb_ge in Hyx, Hxy. assert (x = y) by lia. subst y.
  rewrite Z.eqb_refl in Hab, Hba. cbn [andb] in *.
  f_equal. apply IH; assumption.
Qed.

Lemma string_le_trans a b c : string_le a b -> string_le b c -> string_le a c.
Proof.
  unfold string_le. revert a b. induction c as [|z c IH]; intros a b.
  - destruct b as [|y b]; [auto|]. destruct a; discriminate.
  - destruct a as [|x a]; [reflexivity|]. destruct b as [|y b]; [discriminate|].
    cbn [string_ltb]. intros Hab Hbc.
    apply orb_false_iff in Hab as [Hyx Hab], Hbc as [Hzy Hbc].
    apply Z.ltb_ge in Hyx, Hzy. apply orb_false_iff. split; [apply Z.ltb_ge; lia|].
    destruct (Z.eqb_spec z x) as [->|]; [|reflexivity]. cbn [andb].
    assert (y = x) by lia. subst y. rewrite Z.eqb_refl in Hab, Hbc. cbn [andb] in *.
    exact (IH a b Hab Hbc).
Qed.

Lemma string_le_total a b : string_ltb a b = true -> string_le a b.
Proof.
  unfold string_le. revert b. induction a as [|x a IH]; intros [|y b]; cbn [string_ltb];
    try discriminate; [reflexivity|].
  intros Hab. apply orb_true_iff in Hab as [Hxy|Hab].
  - apply Z.ltb_lt in Hxy. apply orb_false_iff. split; [apply Z.ltb_ge; lia|].
    destruct (Z.eqb_spec y x); [lia|reflexivity].
  - apply andb_true_iff in Hab as [Hxy Hab]. apply Z.eqb_eq in Hxy as ->.
    rewrite Z.ltb_irrefl, Z.eqb_refl. cbn. apply IH, Hab.
Qed.

Lemma insert_sorted_perm k l : insert_sorted k l ≡ₚ k :: l.
Proof.
  induction l as [|h t IH]; [reflexivity|]. cbn [insert_sorted].
  destruct (string_ltb k h); [reflexivity|].
  rewrite IH. apply Permutation_swap.
Qed.

Lemma sort_perm l : sort l ≡ₚ l.
Proof.
  induction l as [|k l IH]; [reflexivity|].
  cbn [sort foldr]. rewrite insert_sorted_perm. fold (sort l). rewrite IH. reflexivity.
Qed.

Lemma insert_sorted_sorted k l :
  StronglySorted string_le l ->
  StronglySorted string_le (insert_sorted k l).
Proof.
  induction 1 as [|h t Hs IH Hall]; [repeat constructor|].
  cbn [insert_sorted]. destruct (string_ltb k h) eqn:Hk.
  - constructor; [constructor; assumption|].
    pose proof (string_le_total k h Hk) as Hkh.
    constructor; [exact Hkh|].
    eapply Forall_impl; [exact Hall|]. intros x Hx.
    exact (string_le_trans k h x Hkh Hx).
  - constructor; [exact IH|].
    rewrite insert_sorted_perm. constructor; [exact Hk|exact Hall].
Qed.

Lemma sort_sorted l : StronglySorted string_le (sort l).
Proof.
  induction l as [|k l IH]; [constructor|].
  cbn [sort foldr]. apply insert_sorted_sorted, IH.
Qed.

Lemma sort_permutation l l' : l ≡ₚ l' -> sort l = sort l'.
Proof.
  intros Hp.
  assert (Hanti : AntiSymm eq string_le)
    by (intros a b; apply string_le_antisym).
  apply (@StronglySorted_unique _ _ Hanti).
  - apply sort_sorted.
  - apply sort_sorted.
  - rewrite !sort_perm. exact Hp.
Qed.

Lemma assoc_Some {A} k (v : A) l :
  NoDup l.*1 -> assoc k l = Some v <-> (k, v) ∈ l.
Proof.
  induction l as [|[n x] l IH]; cbn [assoc fmap list_fmap fst].
  - intros _. split; [discriminate|]. intros Hin. inversion Hin.
  - intros [Hn Hnd]%NoDup_cons. rewrite elem_of_cons.
    destruct (decide (n = k)) as [->|Hne].
    + split.
      * intros [= ->]. left. reflexivity.
      * intros [[= ->]|Hin]; [reflexivity|].
        exfalso. apply Hn. apply list_elem_of_fmap. exists (k, v). auto.
    + rewrite (IH Hnd). split; [auto|]. intros [[= -> ->]|Hin]; [contradiction|exact Hin].
Qed.

Lemma assoc_permutation {A} k (l l' : list (jsstring * A)) :
  NoDup l.*1 -> l ≡ₚ l' -> assoc k l = assoc k l'.
Proof.
  intros Hnd Hp.
  assert (Hnd' : NoDup l'.*1) by (rewrite <- Hp; exact Hnd).
  destruct (assoc k l) as [v|] eqn:E.
  - symmetry. apply (assoc_Some k v l' Hnd'). rewrite <- Hp.
    apply (assoc_Some k v l Hnd), E.
  - destruct (assoc k l') as [v|] eqn:E'; [|reflexivity].
    apply (assoc_Some k v l' Hnd') in E'. rewrite <- Hp in E'.
    apply (assoc_Some k v l Hnd) in E'. congruence.
Qed.

(** X21.  The default key does not depend on the order in which the query
    parameters arrive: two requests with the same method, path and user
    whose queries hold the same parameters, each once, get the same key. *)
Theorem default_key_ignores_query_order `{Crypto} config req req' :
  method req' = method req -> path req' = path req -> user_id req' = user_id req ->
  NoDup (query req).*1 ->
  query req' ≡ₚ query req ->
  default_key config req' = default_key config req.
Proof.
  intros Hm Hp Hu Hnd Hq. unfold default_key. rewrite Hm, Hp, Hu.
  assert (Hkeys : sort (map fst (query req')) = sort (map fst (query req))).
  { apply sort_permutation. change (map fst ?l) with (l.*1). rewrite Hq. reflexivity. }
  rewrite Hkeys.
  assert (Hvals : forall k, query_value req' k = query_value req k).
  { intros k. unfold query_value. f_equal. symmetry.
    apply assoc_permutation; [exact Hnd|symmetry; exact Hq]. }
  replace (map (fun key => key ++ str "=" ++ to_string (query_value req' key))
             (sort (map fst (query req))))
    with (map (fun key => key ++ str "=" ++ to_string (query_value req key))
            (sort (map fst (query req)))).
  - reflexivity.
  - apply map_ext. intros k. rewrite Hvals. reflexivity.
Qed.

Lemma default_key_ignores_query_order_witness :
  let req := {| method := str "GET"; path := str "/api/users";
                query := [(str "page", JStr (str "2")); (str "limit", JStr (str "10"))];
                user_id := JUndefined; cacheKey := None |} in
  let req' := {| method := str "GET"; path := str "/api/users";
                 query := [(str "limit", JStr (str "10")); (str "page", JStr (str "2"))];
                 user_id := JUndefined; cacheKey := None |} in
  @default_key sample_Crypto no_autoCache req' = @default_key sample_Crypto no_autoCache req.
Proof.
  apply (@default_key_ignores_query_order sample_Crypto no_autoCache).
  - reflexivity.
  - reflexivity.
  - reflexivity.
  - cbn. repeat constructor; rewrite ?list_elem_of_singleton; try discriminate.
    intros Hin. inversion Hin.
  - apply Permutation_swap.
Defined.

Lemma join_snoc sep p parts x :
  join sep ((p :: parts) ++ [x]) = join sep (p :: parts) ++ sep ++ x.
Proof.
  revert p. induction parts as [|q parts IH]; intros p; [reflexivity|].
  change (join sep ((p :: q :: parts) ++ [x]))
    with (p ++ sep ++ join sep ((q :: parts) ++ [x])).
  rewrite IH. change (join sep (p :: q :: parts)) with (p ++ sep ++ join sep (q :: parts)).
  rewrite <- !app_assoc. reflexivity.
Qed.

(** X22.  With [includeAuth], requests that differ in nothing but the user
    get the same key exactly when the two user ids read the same as
    strings: users are kept apart, while the number 7 and the string "7"
    are one user. *)
Theorem default_key_separates_users `{Crypto} config req req' :
  ac_includeAuth config = true ->
  method req' = method req -> path req' = path req -> query req' = query req ->
  truthy (user_id req) = true -> truthy (user_id req') = true ->
  default_key config req' = default_key config req
  <-> to_string (user_id req') = to_string (user_id req).
Proof.
  intros Hauth Hm Hp Hq Hu Hu'. unfold default_key, query_value.
  rewrite Hauth, Hu, Hu', Hm, Hp, Hq. cbn [andb].
  set (queryString := join (str "&") _).
  assert (Hparts : exists p parts,
            match queryString with
            | [] => [method req; path req]
            | _ :: _ => [method req; path req] ++ [md5_hex queryString]
            end = p :: parts).
  { destruct queryString; eexists; eexists; reflexivity. }
  destruct Hparts as (p & parts & ->). rewrite !join_snoc.
  split.
  - intros E. apply app_inv_head in E. apply app_inv_head in E.
    apply app_inv_head in E. exact E.
  - intros ->. reflexivity.
Qed.

Lemma default_key_separates_users_witness :
  let config := {| ac_enabled := None; ac_keyGenerator := None; ac_tags := None;
                   ac_includeAuth := true; ac_condition := None |} in
  let request uid := {| method := str "GET"; path := str "/api/profile"; query := [];
                        user_id := uid; cacheKey := None |} in
  (@default_key sample_Crypto config (request (JNum 8))
   = @default_key sample_Crypto config (request (JNum 7))
   <-> to_string (JNum 8) = to_string (JNum 7))
  /\ @default_key sample_Crypto config (request (JStr (str "7")))
     = @default_key sample_Crypto config (request (JNum 7)).
Proof.
  split.
  - apply (@default_key_separates_users sample_Crypto); reflexivity.
  - apply (@default_key_separates_users sample_Crypto); reflexivity.
Defined.

(** ** A TTL below zero *)






(** ** A tag that cannot be read *)



(** ** Creating the client *)

Lemma split_free sep s : sep ∉ s -> split sep s = (s, []).
Proof.
  induction s as [|c s IH]; [reflexivity|]. intros Hn.
  apply not_elem_of_cons in Hn as [Hc Hs]. cbn [split]. rewrite (IH Hs).
  destruct (Z.eqb_spec c sep); [congruence|reflexivity].
Qed.

Lemma split_first sep s rest :
  sep ∉ s ->
  split sep (s ++ sep :: rest) = (s, (split sep rest).1 :: (split sep rest).2).
Proof.
  induction s as [|c s IH]; intros Hn.
  - cbn [app split]. destruct (split sep rest). rewrite Z.eqb_refl. reflexivity.
  - apply not_elem_of_cons in Hn as [Hc Hs]. cbn [app split]. rewrite (IH Hs).
    destruct (Z.eqb_spec c sep); [congruence|reflexivity].
Qed.

(** One character of a literal string, as a code unit. *)
Ltac str_head :=
  match goal with
  | |- context [str (String ?a ?s)] =>
      let v := eval vm_compute in (Z.of_N (N_of_ascii a)) in
      change (str (String a s)) with (v :: str s)
  end.

Ltac decide_condition :=
  match goal with
  | |- context [if ?b then _ else _] =>
      let r := eval vm_compute in b in change b with r; cbv iota
  end.

(** What the digits of an unsigned decimal add up to. *)
Lemma leading_digits_acc u :
  forall acc,
  leading_digits (str (NilEmpty.string_of_uint u)) (Some (Z.pos acc))
  = Some (Z.pos (Pos.of_uint_acc u acc)).
Proof.
  induction u; intros acc; cbn [NilEmpty.string_of_uint Pos.of_uint_acc];
    [reflexivity|..];
    str_head; cbn [leading_digits]; decide_condition;
    rewrite <- IHu; do 2 f_equal; cbn [default]; unfold id; lia.
Qed.

Lemma leading_digits_uint u :
  leading_digits (str (NilEmpty.string_of_uint u)) (Some 0)
  = Some (Z.of_N (Pos.of_uint u)).
Proof.
  induction u; cbn [NilEmpty.string_of_uint Pos.of_uint];
    [reflexivity|..];
    str_head; cbn [leading_digits]; decide_condition;
    [exact IHu|..];
    cbn [Z.of_N]; rewrite <- leading_digits_acc; reflexivity.
Qed.

Lemma uint_digits u : Forall (fun c => 48 <= c <= 57) (str (NilEmpty.string_of_uint u)).
Proof.
  induction u; cbn [NilEmpty.string_of_uint]; [constructor|..];
    str_head; (constructor; [lia|exact IHu]).
Qed.

Lemma decimal_pos p : decimal (Z.pos p) = str (NilEmpty.string_of_uint (Pos.to_uint p)).
Proof.
  unfold decimal. cbn [Z.to_int NilZero.string_of_int].
  pose proof (Unsigned.to_uint_nonnil p) as Hn.
  destruct (Pos.to_uint p); [contradiction|reflexivity..].
Qed.

Lemma decimal_digits n : 0 <= n -> Forall (fun c => 48 <= c <= 57) (decimal n).
Proof.
  destruct n as [|p|p]; [intros _|intros _|lia].
  - repeat constructor; cbn; lia.
  - rewrite decimal_pos. apply uint_digits.
Qed.

Lemma parseInt_decimal n : 0 <= n -> parseInt (Some (decimal n)) = Some n.
Proof.
  destruct n as [|p|p]; [reflexivity|intros _|lia].
  pose proof (uint_digits (Pos.to_uint p)) as Hd.
  pose proof (leading_digits_uint (Pos.to_uint p)) as Hv.
  rewrite Unsigned.of_to in Hv.
  unfold parseInt. change (default (str "undefined") (Some ?x)) with x.
  rewrite decimal_pos.
  destruct (str (NilEmpty.string_of_uint (Pos.to_uint p))) as [|c s] eqn:E.
  { discriminate Hv. }
  apply Forall_cons in Hd as [Hc _].
  assert (Hw : is_white_space c = false).
  { unfold is_white_space.
    repeat match goal with
    | |- context [?a <=? ?b] => destruct (Z.leb_spec a b); try lia
    | |- context [?a =? ?b] => destruct (Z.eqb_spec a b); try lia
    end; reflexivity. }
  cbn [trim_start]. rewrite Hw.
  destruct (Z.eqb_spec c 45); [lia|]. destruct (Z.eqb_spec c 43); [lia|].
  assert (Hcond : (48 <=? c) && (c <=? 57) = true)
    by (apply andb_true_iff; split; apply Z.leb_le; lia).
  cbn [leading_digits] in Hv |- *. rewrite Hcond in Hv |- *.
  replace (leading_digits s (Some (default 0 None * 10 + (c - 48))))
    with (Some (Z.of_N (N.pos p))) by (symmetry; exact Hv).
  reflexivity.
Qed.

Lemma parse_node_host_port h p :
  58 ∉ h -> 0 <= p ->
  parse_node (h ++ str ":" ++ decimal p) = {| host := h; port := Some p |}.
Proof.
  intros Hh Hp. unfold parse_node. change (str ":") with [58]. cbn [app].
  rewrite split_first by exact Hh.
  rewrite split_free.
  - cbn [fst snd head]. rewrite parseInt_decimal by exact Hp. reflexivity.
  - intros Hin. pose proof (decimal_digits p Hp) as Hd.
    apply (proj1 (Forall_forall _ _) Hd) in Hin. lia.
Qed.

(** X25.  Cluster nodes are read as [host:port].  In production with a
    non-empty node list [createRedisClient] builds a cluster client, whatever
    URL, host or port the configuration also gives; a node written as a host
    without colon, a colon and a decimal port below 2^53 (where a JavaScript
    number holds every integer) becomes that host and port, in the order of
    the list, and a node without a colon gets the port [NaN]. *)
Theorem cluster_nodes_are_parsed config first others :
  rc_isProduction config = Some true ->
  rc_clusterNodes config
  = Some (map (fun '(h, p) => h ++ str ":" ++ decimal p) (first :: others)) ->
  Forall (fun '(h, p) => (58 ∉ h) /\ 0 <= p < 2 ^ 53) (first :: others) ->
  (exists redisOptions,
     createRedisClient config
     = NewCluster (map (fun '(h, p) => {| host := h; port := Some p |}) (first :: others))
         redisOptions retryStrategy)
  /\ forall h, 58 ∉ h -> parse_node h = {| host := h; port := None |}.
Proof.
  intros Hprod Hnodes Hall. split.
  - unfold createRedisClient. rewrite Hprod, Hnodes.
    cbn [default map andb]. eexists. f_equal.
    change (map parse_node (map (fun '(h, p) => h ++ str ":" ++ decimal p)
                              (first :: others))
            = map (fun '(h, p) => {| host := h; port := Some p |}) (first :: others)).
    clear Hnodes. induction Hall as [|[h p] hps [Hh [Hp _]] _ IH]; [reflexivity|].
    cbn [map]. rewrite IH, parse_node_host_port by assumption. reflexivity.
  - intros h Hh. unfold parse_node. rewrite split_free by exact Hh. reflexivity.
Qed.

Lemma cluster_nodes_are_parsed_witness :
  let config := {| rc_url := Some (str "redis://cache:6379"); rc_host := None;
                   rc_port := None; rc_password := None; rc_username := None;
                   rc_clusterNodes := Some [str "node1:6379"; str "node2:6380"];
                   rc_isProduction := Some true; rc_maxRetriesPerRequest := None;
                   rc_lazyConnect := None |} in
  (exists redisOptions,
     createRedisClient config
     = NewCluster [{| host := str "node1"; port := Some 6379 |};
                   {| host := str "node2"; port := Some 6380 |}]
         redisOptions retryStrategy)
  /\ forall h, 58 ∉ h -> parse_node h = {| host := h; port := None |}.
Proof.
  apply (cluster_nodes_are_parsed
           {| rc_url := Some (str "redis://cache:6379"); rc_host := None;
              rc_port := None; rc_password := None; rc_username := None;
              rc_clusterNodes := Some [str "node1:6379"; str "node2:6380"];
              rc_isProduction := Some true; rc_maxRetriesPerRequest := None;
              rc_lazyConnect := None |}
           (str "node1", 6379) [(str "node2", 6380)]).
  - reflexivity.
  - reflexivity.
  - repeat constructor; try lia; vm_compute; intros Hin;
      repeat (apply elem_of_cons in Hin as [Hin|Hin]; [discriminate Hin|]);
      inversion Hin.
Defined.

(** X26.  Whatever the configuration, the client that is created waits
    50 ms more before each reconnection attempt, up to 2 seconds from the
    40th attempt on: the delay grows in step with the number of attempts, not
    with its power, and is always a number, so that the client never stops
    trying to reconnect. *)
Theorem reconnection_delay config times :
  1 <= times ->
  let delay := retry_delay (createRedisClient config) in
  delay times = (if times <? 40 then 50 * times else 2000)
  /\ delay times <= delay (times + 1) <= delay times + 50.
Proof.
  intros Ht delay.
  assert (E : delay = retryStrategy).
  { unfold delay, createRedisClient.
    destruct (_ && _); [reflexivity|].
    destruct (rc_url config) as [[|c u]|]; reflexivity. }
  rewrite E. unfold retryStrategy.
  destruct (Z.ltb_spec times 40); lia.
Qed.

Lemma reconnection_delay_witness :
  let config := {| rc_url := None; rc_host := None; rc_port := None;
                   rc_password := None; rc_username := None; rc_clusterNodes := None;
                   rc_isProduction := None; rc_maxRetriesPerRequest := None;
                   rc_lazyConnect := None |} in
  let delay := retry_delay (createRedisClient config) in
  delay 3 = 150 /\ delay 3 <= delay 4 <= delay 3 + 50.
Proof.
  apply (reconnection_delay
           {| rc_url := None; rc_host := None; rc_port := None;
              rc_password := None; rc_username := None; rc_clusterNodes := None;
              rc_isProduction := None; rc_maxRetriesPerRequest := None;
              rc_lazyConnect := None |} 3).
  lia.
Defined.

Lemma shutdown_again status quit_rejects s :
  isShuttingDown s = true -> shutdown status quit_rejects s = s.
Proof. intros Hs. unfold shutdown. rewrite Hs. reflexivity. Qed.

(** X27.  The client is shut down once.  The first signal makes the handler
    ask the client to quit when it is ready, connected or connecting, and to
    disconnect otherwise, or after a quit that failed; whatever signals
    follow, in whatever state of the client, the handler does nothing
    more. *)
Theorem shutdown_happens_once status quit_rejects later :
  let fresh := {| isShuttingDown := false; calls := [] |} in
  let first := shutdown status quit_rejects fresh in
  foldl (fun s '(status', rejects') => shutdown status' rejects' s) first later = first
  /\ calls first
     = if bool_decide (status ∈ [str "ready"; str "connect"; str "connecting"])
       then quit :: (if quit_rejects then [disconnect] else [])
       else [disconnect].
Proof.
  intros fresh first. split.
  - assert (Hflag : isShuttingDown first = true) by reflexivity.
    generalize dependent first. intros first Hflag.
    induction later as [|[status' rejects'] later IH]; [reflexivity|].
    cbn [foldl]. rewrite shutdown_again by exact Hflag. exact IH.
  - unfold first, shutdown, fresh. cbn [isShuttingDown calls app].
    destruct (decide (status = str "ready")) as [->|H1]; [destruct quit_rejects; reflexivity|].
    destruct (decide (status = str "connect")) as [->|H2];
      [destruct quit_rejects; reflexivity|].
    destruct (decide (status = str "connecting")) as [->|H3];
      [destruct quit_rejects; reflexivity|].
    rewrite !bool_decide_eq_false_2 by assumption.
    rewrite bool_decide_eq_false_2; [reflexivity|].
    intros Hin. repeat (apply elem_of_cons in Hin as [Hin|Hin]; [contradiction|]).
    inversion Hin.
Qed.

(** ** Invalidation after a mutating request *)

Lemma shrunk_refl st : shrunk st st.
Proof. repeat split; auto. Qed.

Lemma shrunk_trans st1 st2 st3 : shrunk st1 st2 -> shrunk st2 st3 -> shrunk st1 st3.
Proof.
  intros (Ho1 & Hc1 & Hl1) (Ho2 & Hc2 & Hl2).
  split; [congruence|]. split; [congruence|]. intros k.
  destruct (Hl2 k) as [ -> | -> ]; [left; reflexivity|apply Hl1].
Qed.

Lemma execute_deletes c st : command_deletes c -> shrunk st (execute c st).2.
Proof.
  intros Hc. destruct (execute_frame c st) as [Ho Hk].
  split; [exact Ho|]. split; [exact Hk|]. intros k.
  destruct (decide (k ∈ command_writes c)) as [Hin|Hin];
    [|right; apply execute_other, Hin].
  destruct c; try contradiction; cbn [command_writes] in Hin; try (inversion Hin; fail).
  unfold execute. rewrite online_record.
  destruct (online st); cbn [negb]; [|right; reflexivity].
  destruct (del_keys_spec keys (record_command (DEL keys) st)) as (_ & _ & _ & Hl).
  destruct (del_keys keys _) as [n st']. cbn [snd] in *. rewrite Hl.
  destruct (decide (k ∈ keys)); [left; reflexivity|contradiction].
Qed.

Lemma pipeline_deletes cmds st :
  Forall command_deletes cmds -> shrunk st (pipeline_exec cmds st).
Proof.
  intros H. revert st. induction H as [|c cmds Hc _ IH]; intros st; [apply shrunk_refl|].
  change (pipeline_exec (c :: cmds) st) with (pipeline_exec cmds (execute c st).2).
  eapply shrunk_trans; [apply execute_deletes, Hc|apply IH].
Qed.

Lemma turn_deleting t st :
  deleting t -> deleting (turn t st).1 /\ shrunk st (turn t st).2.
Proof.
  intros Ht. destruct Ht as [r| |c resume Hc Hres|cmds resume Hc Hres]; cbn [turn].
  - split; [constructor|apply shrunk_refl].
  - split; [constructor|apply shrunk_refl].
  - pose proof (execute_deletes c st Hc) as Hs.
    destruct (execute c st) as [r st']. split; [apply Hres|exact Hs].
  - split; [exact Hres|apply pipeline_deletes, Hc].
Qed.

Lemma take_turn_deleting pool st i :
  Forall deleting pool ->
  Forall deleting (take_turn (pool, st) i).1 /\ shrunk st (take_turn (pool, st) i).2.
Proof.
  intros Hpool. cbn [take_turn]. destruct (pool !! i) as [t|] eqn:Hi;
    [|split; [exact Hpool|apply shrunk_refl]].
  pose proof (turn_deleting t st (proj1 (Forall_lookup _ _) Hpool i t Hi)) as [Ht Hs].
  destruct (turn t st) as [t' st']. cbn [fst snd] in *.
  split; [apply Forall_insert; assumption|exact Hs].
Qed.

Lemma Promise_all_deleting schedule :
  forall pool st,
  Forall deleting pool ->
  Forall deleting (Promise_all schedule pool st).1
  /\ shrunk st (Promise_all schedule pool st).2.
Proof.
  unfold Promise_all.
  induction schedule as [|i schedule IH]; intros pool st Hpool;
    [split; [exact Hpool|apply shrunk_refl]|].
  cbn [foldl]. destruct (take_turn_deleting pool st i Hpool) as [Hp Hs].
  destruct (take_turn (pool, st) i) as [pool1 st1]. cbn [fst snd] in *.
  destruct (IH pool1 st1 Hp) as [Hp' Hs'].
  split; [exact Hp'|exact (shrunk_trans _ _ _ Hs Hs')].
Qed.

Lemma del_async_deleting this key ns : deleting (del_async this key ns).
Proof. constructor; [exact I|]. intros []; constructor. Qed.

Lemma invalidate_async_deleting this tags :
  forall total, deleting (invalidate_async this tags total).
Proof.
  induction tags as [|tag tags IH]; intros total; cbn [invalidate_async];
    [constructor|].
  constructor; [exact I|]. intros []; try constructor.
  destruct items as [|k ks]; [apply IH|].
  constructor; [|apply IH].
  apply Forall_app. split; [|repeat constructor].
  apply Forall_fmap, Forall_forall. intros ? _. exact I.
Qed.

Lemma delete_async_deleting bs : forall total, deleting (delete_async bs total).
Proof.
  induction bs as [|b bs IH]; intros total; cbn [delete_async]; [constructor|].
  constructor; [exact I|]. intros []; try apply IH; constructor.
Qed.

Lemma scan_async_deleting fuel pattern :
  forall cursor acc, deleting (scan_async fuel pattern cursor acc).
Proof.
  induction fuel as [|fuel IH]; intros cursor acc; cbn [scan_async]; [constructor|].
  constructor; [exact I|]. intros []; try constructor.
  destruct (cursor0 =? 0)%nat; [|apply IH].
  destruct (acc ++ keys); [constructor|apply delete_async_deleting].
Qed.

Lemma performInvalidation_deleting fuel cache invalidate req res data :
  Forall deleting (performInvalidation fuel cache invalidate req res data).
Proof.
  unfold performInvalidation. apply Forall_app. split; [|apply Forall_app; split].
  - destruct (resolve_source (inv_tags invalidate) req res data) as [[|tag tags]|];
      [constructor| |constructor].
    constructor; [apply invalidate_async_deleting|constructor].
  - apply Forall_fmap, Forall_forall. intros pattern _. apply scan_async_deleting.
  - apply Forall_fmap, Forall_forall. intros key _. apply del_async_deleting.
Qed.

Lemma take_turn_none pool st i : pool !! i = None -> take_turn (pool, st) i = (pool, st).
Proof. intros Hi. cbn [take_turn]. rewrite Hi. reflexivity. Qed.

Lemma Promise_all_nothing schedule st : Promise_all schedule [] st = ([], st).
Proof.
  unfold Promise_all. induction schedule as [|i schedule IH]; [reflexivity|].
  cbn [foldl]. rewrite take_turn_none by apply lookup_nil. exact IH.
Qed.

(** What holds of one call of the pool and the state, is kept by the call's
    own turns and is not undone by deletions, still holds when the pool has
    run. *)
Section Slot.
Variable I : redis -> promise -> Prop.
Hypothesis I_turn : forall st t, I st t -> I (turn t st).2 (turn t st).1.
Hypothesis I_stable : forall st st' t, I st t -> shrunk st st' -> I st' t.

Lemma slot_kept schedule :
  forall pool st i t,
  Forall deleting pool -> pool !! i = Some t -> I st t ->
  exists t', (Promise_all schedule pool st).1 !! i = Some t'
             /\ I (Promise_all schedule pool st).2 t'.
Proof.
  unfold Promise_all.
  induction schedule as [|j schedule IH]; intros pool st i t Hpool Hi Ht;
    [exists t; auto|].
  cbn [foldl].
  destruct (take_turn_deleting pool st j Hpool) as [Hpool1 Hs].
  destruct (pool !! j) as [u|] eqn:Hj.
  2:{ rewrite take_turn_none in * by exact Hj. apply (IH pool st i t); auto. }
  cbn [take_turn] in *. rewrite Hj in *.
  destruct (decide (j = i)) as [->|Hne].
  - assert (u = t) by congruence. subst u.
    specialize (I_turn st t Ht).
    destruct (turn t st) as [t1 st1]. cbn [fst snd] in *.
    apply (IH _ st1 i t1); [exact Hpool1| |exact I_turn].
    apply list_lookup_insert_eq. apply lookup_lt_Some in Hi. exact Hi.
  - destruct (turn u st) as [u1 st1]. cbn [fst snd] in *.
    apply (IH _ st1 i t); [exact Hpool1| |exact (I_stable _ _ _ Ht Hs)].
    rewrite list_lookup_insert_ne by exact Hne. exact Hi.
Qed.
End Slot.

Lemma shrunk_quiet st st' k : shrunk st st' -> quiet st k -> quiet st' k.
Proof.
  intros (Ho & _ & Hl) Hq. apply quiet_spec in Hq as [Hon Hk]. apply quiet_spec.
  split; [congruence|]. destruct (Hl k) as [ -> | -> ]; [exact I|exact Hk].
Qed.

Lemma shrunk_holds_string st st' k :
  shrunk st st' -> holds_string st k = false -> holds_string st' k = false.
Proof.
  intros (_ & _ & Hl) Hs. unfold holds_string in *.
  destruct (Hl k) as [ -> | -> ]; [reflexivity|exact Hs].
Qed.

(** A [del] of the pool: once it has resolved, its key is gone. *)
Lemma del_call_kept this key schedule pool st i :
  Forall deleting pool ->
  pool !! i = Some (del_async this key None) ->
  online st = true ->
  exists t', (Promise_all schedule pool st).1 !! i = Some t'
             /\ (resolved t' ->
                 live (Promise_all schedule pool st).2 (generateKey this key None) = None).
Proof.
  intros Hpool Hi Ho. set (fk := generateKey this key None).
  pose (Inv := fun st t => online st = true
                         /\ (t = del_async this key None
                             \/ (resolved t /\ live st fk = None))).
  assert (I_turn : forall st t, Inv st t -> Inv (turn t st).2 (turn t st).1).
  { intros st0 t (Hon & [->|[[r ->] Hgone]]).
    - cbn [turn del_async]. fold fk.
      destruct (execute_DEL st0 [fk] Hon) as [n ->]. cbn [fst snd].
      destruct (del_keys_spec [fk] (record_command (DEL [fk]) st0)) as (Ho' & _ & _ & Hl).
      split; [rewrite Ho'; exact Hon|]. right. split; [eexists; reflexivity|].
      rewrite Hl. destruct (decide (fk ∈ [fk])) as [|Hn]; [reflexivity|].
      exfalso. apply Hn. left.
    - cbn [turn fst snd]. split; [exact Hon|]. right. split; [eexists; reflexivity|exact Hgone]. }
  assert (I_stable : forall st st' t, Inv st t -> shrunk st st' -> Inv st' t).
  { intros st0 st1 t (Hon & Ht) (Ho' & _ & Hl). split; [congruence|].
    destruct Ht as [->|[Hr Hgone]]; [left; reflexivity|]. right. split; [exact Hr|].
    destruct (Hl fk) as [ -> | -> ]; [reflexivity|exact Hgone]. }
  destruct (slot_kept Inv I_turn I_stable schedule pool st i _ Hpool Hi
              (conj Ho (or_introl eq_refl))) as (t' & Hi' & _ & Ht').
  exists t'. split; [exact Hi'|]. intros [r ->].
  destruct Ht' as [E|[_ Hgone]]; [discriminate E|exact Hgone].
Qed.

(** The [invalidateByTags] of the pool: once it has resolved, none of its
    tag sets has a member left, provided none of their keys held a cache
    entry. *)
Lemma invalidate_call_kept this tags schedule pool st i :
  Forall deleting pool ->
  pool !! i = Some (invalidateByTags_async this tags) ->
  online st = true ->
  (forall tag, tag ∈ tags -> holds_string st (tag_key this tag) = false) ->
  exists t', (Promise_all schedule pool st).1 !! i = Some t'
             /\ (resolved t' ->
                 forall tag, tag ∈ tags ->
                             quiet (Promise_all schedule pool st).2 (tag_key this tag)).
Proof.
  intros Hpool Hi Ho Hsets.
  pose (Inv := fun st t =>
               online st = true
               /\ (forall tag, tag ∈ tags -> holds_string st (tag_key this tag) = false)
               /\ exists finished todo,
                    tags = finished ++ todo
                    /\ (forall tag, tag ∈ finished -> quiet st (tag_key this tag))
                    /\ ((exists total, t = invalidate_async this todo total)
                        \/ (exists tag rest keys total,
                              todo = tag :: rest
                              /\ t = AwaitingExec
                                       (map (fun k => DEL [k]) keys ++ [DEL [tag_key this tag]])
                                       (invalidate_async this rest total)))).
  assert (I_stable : forall st st' t, Inv st t -> shrunk st st' -> Inv st' t).
  { intros st0 st1 t (Hon & Hstr & finished & todo & E & Hq & Ht) Hs.
    split; [destruct Hs as (-> & _); exact Hon|].
    split; [intros tag Hin; exact (shrunk_holds_string _ _ _ Hs (Hstr tag Hin))|].
    exists finished, todo. split; [exact E|]. split; [|exact Ht].
    intros tag Hin. exact (shrunk_quiet _ _ _ Hs (Hq tag Hin)). }
  assert (I_turn : forall st t, Inv st t -> Inv (turn t st).2 (turn t st).1).
  { intros st0 t (Hon & Hstr & finished & todo & E & Hq & Ht).
    destruct Ht as [[total ->]|(tag & rest & keys & total & -> & ->)].
    - destruct todo as [|tag rest].
      + cbn [invalidate_async turn fst snd]. split; [exact Hon|]. split; [exact Hstr|].
        exists finished, []. split; [exact E|]. split; [exact Hq|]. left. eauto.
      + cbn [invalidate_async turn].
        pose proof (execute_SMEMBERS_state st0 (tag_key this tag)) as Hst.
        assert (Hreply : exists keys, (execute (SMEMBERS (tag_key this tag)) st0).1 = Array keys).
        { unfold execute. rewrite online_record, Hon. cbn [negb]. rewrite live_record.
          pose proof (Hstr tag) as Hs. unfold holds_string in Hs.
          destruct (live st0 (tag_key this tag)) as [[[s|ms] d]|]; cbn [fst]; eauto.
          discriminate Hs. subst tags. apply elem_of_app. right. left. }
        destruct Hreply as [keys Hreply].
        assert (Hq0 : keys = [] -> quiet st0 (tag_key this tag))
          by (intros ->; exact Hreply).
        pose proof (fun k => quiet_after_read st0 k (tag_key this tag)) as Hread.
        destruct (execute (SMEMBERS (tag_key this tag)) st0) as [r st1].
        cbn [fst snd] in *. subst r st1.
        split; [exact Hon|]. split; [exact Hstr|].
        destruct keys as [|k0 ks].
        * exists (finished ++ [tag]), rest.
          split; [rewrite <- app_assoc; exact E|]. split; [|left; eauto].
          intros tag' [Hin|Hin]%elem_of_app; [apply Hread, Hq, Hin|].
          apply list_elem_of_singleton in Hin as ->. apply Hread, Hq0. reflexivity.
        * exists finished, (tag :: rest). split; [exact E|].
          split; [intros tag' Hin; apply Hread, Hq, Hin|]. right.
          exists tag, rest, (k0 :: ks), (total + Z.of_nat (length (k0 :: ks))). auto.
    - cbn [turn fst snd].
      set (cmds := map (fun k => DEL [k]) keys ++ [DEL [tag_key this tag]]).
      assert (Hdel : Forall (fun c => exists ks, c = DEL ks) cmds)
        by apply invalidation_commands_are_DELs.
      assert (Hs : shrunk st0 (pipeline_exec cmds st0)).
      { apply pipeline_deletes. eapply Forall_impl; [exact Hdel|].
        intros c [ks ->]. exact I. }
      split; [destruct Hs as (-> & _); exact Hon|].
      split; [intros tag' Hin; exact (shrunk_holds_string _ _ _ Hs (Hstr tag' Hin))|].
      exists (finished ++ [tag]), rest.
      split; [rewrite <- app_assoc; exact E|]. split; [|left; eauto].
      intros tag' [Hin|Hin]%elem_of_app.
      + exact (shrunk_quiet _ _ _ Hs (Hq tag' Hin)).
      + apply list_elem_of_singleton in Hin as ->.
        apply quiet_after_DEL_self, Hon. }
  destruct (slot_kept Inv I_turn I_stable schedule pool st i _ Hpool Hi) as (t' & Hi' & Ht').
  { split; [exact Ho|]. split; [exact Hsets|].
    exists [], tags. split; [reflexivity|]. split; [intros tag Hin; inversion Hin|].
    left. exists 0. reflexivity. }
  exists t'. split; [exact Hi'|]. intros [r ->].
  destruct Ht' as (_ & _ & finished & todo & E & Hq & Ht).
  destruct Ht as [[total Ht]|(tag & rest & keys & total & _ & Ht)]; [|discriminate Ht].
  destruct todo as [|tag rest]; [|discriminate Ht].
  rewrite app_nil_r in E. subst finished. exact Hq.
Qed.

(** *** A call on its own is the method *)

Lemma alone_resolved n result st : alone n (Resolved result) st = (Resolved result, st).
Proof. induction n as [|n IH]; [reflexivity|]. cbn [alone turn]. exact IH. Qed.

Lemma del_alone this key ns st n :
  alone (S n) (del_async this key ns) st
  = (Resolved (JBool (del this key ns st).1), (del this key ns st).2).
Proof.
  cbn [alone turn del_async]. unfold del.
  destruct (execute _ st) as [[] st']; apply alone_resolved.
Qed.

Lemma invalidate_alone this tags :
  forall n total st result st',
  alone n (invalidate_async this tags total) st = (Resolved result, st') ->
  result = JNum (invalidate_loop this tags total st).1
  /\ st' = (invalidate_loop this tags total st).2.
Proof.
  induction tags as [|tag tags IH]; intros n total st result st'.
  - cbn [invalidate_async invalidate_loop]. rewrite alone_resolved.
    intros [= <- <-]. auto.
  - cbn [invalidate_async invalidate_loop].
    destruct n as [|n]; [discriminate|]. cbn [alone turn].
    destruct (execute (SMEMBERS (tag_key this tag)) st) as [r st1].
    destruct r as [| | | |[|k0 ks]| |]; try (rewrite alone_resolved; intros [= <- <-]; auto).
    + apply IH.
    + destruct n as [|n]; [discriminate|]. cbn [alone turn]. apply IH.
Qed.

Lemma alone_add n m t st :
  alone (n + m) t st = alone m (alone n t st).1 (alone n t st).2.
Proof.
  revert t st. induction n as [|n IH]; intros t st; [reflexivity|].
  cbn [Nat.add alone]. destruct (turn t st) as [t1 st1]. apply IH.
Qed.

Lemma alone_S n t st : alone (S n) t st = alone n (turn t st).1 (turn t st).2.
Proof. cbn [alone]. destruct (turn t st). reflexivity. Qed.

(** Two turns for each tag are enough for [invalidateByTags] to resolve. *)
Lemma invalidate_resolves this tags :
  forall total st,
  exists result, alone (2 * length tags) (invalidate_async this tags total) st
                 = (Resolved result, (invalidate_loop this tags total st).2).
Proof.
  induction tags as [|tag tags IH]; intros total st; [eexists; reflexivity|].
  cbn [invalidate_async invalidate_loop length].
  replace (2 * S (length tags))%nat with (S (2 * length tags + 1)) by lia.
  rewrite alone_S. cbn [turn].
  destruct (execute (SMEMBERS (tag_key this tag)) st) as [r st1]. cbn [fst snd].
  destruct r as [| | | |[|k0 ks]| |];
    try (rewrite alone_resolved; eexists; reflexivity).
  - destruct (IH total st1) as [result E]. exists result.
    rewrite alone_add, E. reflexivity.
  - rewrite Nat.add_comm. cbn [Nat.add]. rewrite alone_S. cbn [turn fst snd]. apply IH.
Qed.

(** With one call in the pool, a schedule gives it as many turns as it names
    it. *)
Lemma Promise_all_single schedule t st :
  Promise_all schedule [t] st
  = ([(alone (length (filter (fun i => i = 0%nat) schedule)) t st).1],
     (alone (length (filter (fun i => i = 0%nat) schedule)) t st).2).
Proof.
  unfold Promise_all. revert t st.
  induction schedule as [|i schedule IH]; intros t st; [reflexivity|].
  cbn [foldl]. destruct i as [|i].
  - rewrite filter_cons_True by reflexivity. cbn [take_turn lookup list_lookup length alone].
    destruct (turn t st) as [t1 st1]. cbn [insert list_insert]. apply IH.
  - rewrite filter_cons_False by discriminate.
    rewrite take_turn_none by reflexivity. apply IH.
Qed.

Lemma delete_alone bs :
  forall n total st result st',
  alone n (delete_async bs total) st = (Resolved result, st') ->
  result = JNum (delete_loop bs total st).1 /\ st' = (delete_loop bs total st).2.
Proof.
  induction bs as [|b bs IH]; intros n total st result st'.
  - cbn [delete_async delete_loop]. rewrite alone_resolved. intros [= <- <-]. auto.
  - cbn [delete_async delete_loop]. destruct n as [|n]; [discriminate|].
    cbn [alone turn]. destruct (execute (DEL b) st) as [r st1].
    destruct r; try apply IH. rewrite alone_resolved. intros [= <- <-]. auto.
Qed.

Lemma alone_unfinished n st : alone n Unfinished st = (Unfinished, st).
Proof. induction n as [|n IH]; [reflexivity|]. cbn [alone turn]. exact IH. Qed.

Lemma scan_alone pattern fuel :
  forall n cursor acc st result st',
  alone n (scan_async fuel pattern cursor acc) st = (Resolved result, st') ->
  match scan_loop fuel pattern cursor acc st with
  | (Collected [], st1) => result = JNum 0 /\ st' = st1
  | (Collected keys, st1) =>
      result = JNum (delete_loop (batches keys) 0 st1).1
      /\ st' = (delete_loop (batches keys) 0 st1).2
  | (ScanFailed, st1) => result = JNum 0 /\ st' = st1
  | (OutOfFuel, _) => False
  end.
Proof.
  induction fuel as [|fuel IH]; intros n cursor acc st result st'.
  - cbn [scan_async scan_loop]. rewrite alone_unfinished. discriminate.
  - cbn [scan_async scan_loop]. destruct n as [|n]; [discriminate|].
    cbn [alone turn]. destruct (execute (SCAN cursor pattern 100) st) as [r st1].
    destruct r as [| | | | |next keys|]; try (rewrite alone_resolved; intros [= <- <-]; auto).
    destruct (next =? 0)%nat; [|apply IH].
    destruct (acc ++ keys) as [|k0 ks].
    + rewrite alone_resolved. intros [= <- <-]. auto.
    + apply delete_alone.
Qed.

(** Run on its own until it resolves, [delPattern] command by command is
    [delPattern]. *)
Lemma delPattern_alone fuel this pattern n st result st' :
  alone n (delPattern_async fuel this pattern) st = (Resolved result, st') ->
  exists count, delPattern fuel this pattern st = Some (count, st')
                /\ result = JNum count.
Proof.
  intros E. apply scan_alone in E. unfold delPattern.
  destruct (scan_loop fuel (generateKey this pattern None) 0 [] st) as [[[|k0 ks]| |] st1].
  - destruct E as [-> ->]. eauto.
  - destruct E as [-> ->]. destruct (delete_loop _ 0 st1). eauto.
  - destruct E as [-> ->]. eauto.
  - contradiction.
Qed.

(** X28.  What the invalidation after a mutating request does, however the
    calls it starts take turns on the connection.  It only deletes: every key
    is gone afterwards or holds what it held.  After a response outside 2xx
    it does nothing.  After a 2xx response, on a reachable server and once
    all calls have resolved, every key listed under [keys] is gone and,
    unless the key of one of the tags held a cache entry, no tag set listed
    under [tags] has a member left. *)
Theorem invalidation_deletes_and_settles fuel cache invalidate req res schedule st :
  let keys := default [] (resolve_source (inv_keys invalidate) req res JUndefined) in
  let tags := default [] (resolve_source (inv_tags invalidate) req res JUndefined) in
  let '(calls, st') :=
    Promise_all schedule (on_finish fuel cache invalidate req res) st in
  shrunk st st'
  /\ (~ 200 <= statusCode res < 300 -> st' = st)
  /\ (200 <= statusCode res < 300 -> online st = true -> Forall resolved calls ->
      (forall key, key ∈ keys -> live st' (generateKey cache key None) = None)
      /\ ((forall tag, tag ∈ tags -> holds_string st (tag_key cache tag) = false) ->
          forall tag, tag ∈ tags -> quiet st' (tag_key cache tag))).
Proof.
  intros keys tags. unfold on_finish.
  destruct (Z.leb_spec 200 (statusCode res)) as [H200|H200]; cbn [andb].
  2:{ rewrite Promise_all_nothing.
      split; [apply shrunk_refl|]. split; [reflexivity|lia]. }
  destruct (Z.ltb_spec (statusCode res) 300) as [H300|H300].
  2:{ rewrite Promise_all_nothing.
      split; [apply shrunk_refl|]. split; [reflexivity|lia]. }
  set (pool := performInvalidation fuel cache invalidate req res JUndefined).
  pose proof (performInvalidation_deleting fuel cache invalidate req res JUndefined)
    as Hpool. fold pool in Hpool.
  pose proof (Promise_all_deleting schedule pool st Hpool) as [_ Hs].
  pose proof (fun key i => del_call_kept cache key schedule pool st i Hpool) as Hdel.
  pose proof (fun tags i => invalidate_call_kept cache tags schedule pool st i Hpool) as Hinv.
  destruct (Promise_all schedule pool st) as [calls st']. cbn [fst snd] in *.
  split; [exact Hs|]. split; [lia|]. intros _ Ho Hres. split.
  - intros key Hin.
    assert (Hcall : del_async cache key None ∈ pool).
    { unfold pool, performInvalidation. rewrite !elem_of_app. right. right.
      apply list_elem_of_fmap. exists key. split; [reflexivity|exact Hin]. }
    apply list_elem_of_lookup in Hcall as [i Hi].
    destruct (Hdel key i Hi Ho) as (t' & Hi' & Hgone).
    apply Hgone. exact (proj1 (Forall_lookup _ _) Hres i t' Hi').
  - intros Hsets tag Hin.
    destruct (resolve_source (inv_tags invalidate) req res JUndefined)
      as [[|tag0 tags0]|] eqn:Etags; subst tags; cbn [default] in *;
      try (inversion Hin; fail).
    assert (Hcall : invalidateByTags_async cache (tag0 :: tags0) ∈ pool).
    { unfold pool, performInvalidation. rewrite Etags. rewrite !elem_of_app. left. left. }
    apply list_elem_of_lookup in Hcall as [i Hi].
    destruct (Hinv (tag0 :: tags0) i Hi Ho Hsets) as (t' & Hi' & Hquiet).
    apply Hquiet; [|exact Hin]. exact (proj1 (Forall_lookup _ _) Hres i t' Hi').
Qed.

Lemma invalidation_deletes_and_settles_witness :
  let cache := new_CacheService (Some (str "test")) (Some 60) in
  let invalidate := {| inv_enabled := None;
                       inv_tags := Some (Fixed [str "users"]);
                       inv_patterns := Some (Fixed [str "list:*"]);
                       inv_keys := Some (Computed (fun req _ _ => [path req]));
                       inv_afterResponse := None |} in
  let req := {| method := str "POST"; path := str "/api/users"; query := [];
                user_id := JUndefined; cacheKey := None |} in
  let res := with_status 201 blank_response in
  let st1 := (@set sample_JSON cache (str "user:1") (JNum 1) None (Some [str "users"])
                fresh_redis).2 in
  let st2 := (@set sample_JSON cache (str "list:all") (JNum 2) None None st1).2 in
  let st := (@set sample_JSON cache (str "/api/users") (JNum 3) None None st2).2 in
  let '(calls, st') :=
    Promise_all [2; 1; 0; 1; 0; 2]%nat (on_finish 4 cache invalidate req res) st in
  arrange None invalidate req = OnFinish
  /\ Forall resolved calls
  /\ live st' (str "test:/api/users") = None
  /\ quiet st' (tag_key cache (str "users"))
  /\ length (cache_entries st) = 3%nat /\ length (cache_entries st') = 0%nat.
Proof.
  pose (cache := new_CacheService (Some (str "test")) (Some 60)).
  pose (invalidate := {| inv_enabled := None;
                         inv_tags := Some (Fixed [str "users"]);
                         inv_patterns := Some (Fixed [str "list:*"]);
                         inv_keys := Some (Computed (fun req _ _ => [path req]));
                         inv_afterResponse := None |}).
  pose (req := {| method := str "POST"; path := str "/api/users"; query := [];
                  user_id := JUndefined; cacheKey := None |}).
  pose (res := with_status 201 blank_response).
  pose (st1 := (@set sample_JSON cache (str "user:1") (JNum 1) None (Some [str "users"])
                  fresh_redis).2).
  pose (st2 := (@set sample_JSON cache (str "list:all") (JNum 2) None None st1).2).
  pose (st := (@set sample_JSON cache (str "/api/users") (JNum 3) None None st2).2).
  pose proof (invalidation_deletes_and_settles 4 cache invalidate req res
                [2; 1; 0; 1; 0; 2]%nat st) as Hthm.
  cbv zeta in Hthm |- *. fold cache invalidate req res st1 st2 st.
  destruct (Promise_all [2; 1; 0; 1; 0; 2]%nat (on_finish 4 cache invalidate req res) st)
    as [calls st'] eqn:E.
  destruct Hthm as (_ & _ & Hdone).
  assert (Ecalls : calls = (Promise_all [2; 1; 0; 1; 0; 2]%nat
                              (on_finish 4 cache invalidate req res) st).1)
    by (rewrite E; reflexivity).
  assert (Est : st' = (Promise_all [2; 1; 0; 1; 0; 2]%nat
                         (on_finish 4 cache invalidate req res) st).2)
    by (rewrite E; reflexivity).
  assert (Hres : Forall resolved calls).
  { rewrite Ecalls. vm_compute. repeat constructor; eexists; reflexivity. }
  destruct (Hdone ltac:(cbn; lia) eq_refl Hres) as [Hkeys Htags].
  split; [reflexivity|]. split; [exact Hres|].
  split; [apply (Hkeys (str "/api/users")); left|].
  split.
  - apply Htags; [|left]. intros tag Hin.
    apply list_elem_of_singleton in Hin as ->. reflexivity.
  - rewrite Est. vm_compute. split; reflexivity.
Defined.

(** X29.  With tags alone to invalidate, the middleware listens for the end
    of the response of a POST, PUT, DELETE or PATCH request, and after a 2xx
    response starts one call, [invalidateByTags(tags)] (none for an empty
    list): whatever turns are taken, once the call has resolved the server
    is in the state [invalidateByTags(tags)] leaves it in, and two turns for
    each tag are enough for that. *)
Theorem tags_only_invalidation strategy fuel cache invalidate req res tags schedule st :
  default auto strategy = auto ->
  method req ∈ [str "POST"; str "PUT"; str "DELETE"; str "PATCH"] ->
  inv_enabled invalidate <> Some false ->
  inv_afterResponse invalidate <> Some true ->
  inv_patterns invalidate = None -> inv_keys invalidate = None ->
  resolve_source (inv_tags invalidate) req res JUndefined = Some tags ->
  200 <= statusCode res < 300 ->
  let calls := on_finish fuel cache invalidate req res in
  arrange strategy invalidate req = OnFinish
  /\ (Forall resolved (Promise_all schedule calls st).1 ->
      (Promise_all schedule calls st).2 = (invalidateByTags cache tags st).2)
  /\ Forall resolved (Promise_all (repeat 0%nat (2 * length tags)) calls st).1.
Proof.
  intros Hauto Hm Hen Hafter Hpat Hkeys Htags Hcode calls.
  split.
  { unfold arrange. rewrite Hauto.
    rewrite (bool_decide_eq_true_2 _ Hm), (bool_decide_eq_false_2 _ Hen),
      (bool_decide_eq_false_2 _ Hafter). reflexivity. }
  assert (Ecalls : calls = match tags with
                           | [] => []
                           | _ => [invalidateByTags_async cache tags]
                           end).
  { unfold calls, on_finish.
    destruct (Z.leb_spec 200 (statusCode res)); [|lia].
    destruct (Z.ltb_spec (statusCode res) 300); [|lia]. cbn [andb].
    unfold performInvalidation. rewrite Htags, Hpat, Hkeys.
    destruct tags; reflexivity. }
  rewrite Ecalls. destruct tags as [|tag tags'].
  { rewrite !Promise_all_nothing. split; [reflexivity|constructor]. }
  rewrite !Promise_all_single. cbn [fst snd]. split.
  - intros Hres. apply Forall_cons in Hres as [[result Hres] _].
    unfold invalidateByTags_async in *.
    destruct (alone _ _ st) as [t' st'] eqn:E. cbn [fst snd] in *. subst t'.
    apply invalidate_alone in E as [_ ->]. reflexivity.
  - replace (length (filter (fun i => i = 0%nat) (repeat 0%nat (2 * length (tag :: tags')))))
      with (2 * length (tag :: tags'))%nat.
    + destruct (invalidate_resolves cache (tag :: tags') 0 st) as [result E].
      unfold invalidateByTags_async. rewrite E. repeat constructor. eexists. reflexivity.
    + generalize (2 * length (tag :: tags'))%nat as n. intros n.
      induction n as [|n IH]; [reflexivity|].
      cbn [repeat]. rewrite filter_cons_True by reflexivity. cbn [length]. congruence.
Qed.

Lemma tags_only_invalidation_witness :
  let cache := new_CacheService (Some (str "test")) (Some 60) in
  let invalidate := {| inv_enabled := None;
                       inv_tags := Some (Computed (fun req _ _ => [str "users"; path req]));
                       inv_patterns := None; inv_keys := None;
                       inv_afterResponse := None |} in
  let req := {| method := str "DELETE"; path := str "user:1"; query := [];
                user_id := JUndefined; cacheKey := None |} in
  let res := with_status 204 blank_response in
  let st := (@set sample_JSON cache (str "user:1") (JNum 1) None
               (Some [str "users"; str "user:1"]) fresh_redis).2 in
  let calls := on_finish 0 cache invalidate req res in
  arrange None invalidate req = OnFinish
  /\ (Forall resolved (Promise_all [0; 0; 1; 0; 0]%nat calls st).1 ->
      (Promise_all [0; 0; 1; 0; 0]%nat calls st).2
      = (invalidateByTags cache [str "users"; str "user:1"] st).2)
  /\ Forall resolved (Promise_all (repeat 0%nat 4) calls st).1.
Proof.
  apply (tags_only_invalidation None 0
           (new_CacheService (Some (str "test")) (Some 60))
           {| inv_enabled := None;
              inv_tags := Some (Computed (fun req _ _ => [str "users"; path req]));
              inv_patterns := None; inv_keys := None; inv_afterResponse := None |}
           {| method := str "DELETE"; path := str "user:1"; query := [];
              user_id := JUndefined; cacheKey := None |}
           (with_status 204 blank_response) [str "users"; str "user:1"]).
  - reflexivity.
  - right. right. left.
  - discriminate.
  - discriminate.
  - reflexivity.
  - reflexivity.
  - reflexivity.
  - cbn. lia.
Defined.
